(** * jacl: the stdin/JACK bridges, embedded and verified

    A shallow embedding of the three command-line clients of the
    repository:

    - [StdinToMidi]: [jack-stdin-to-midi.c], the lock-free outbound queue
      ([push_back], [process]), its deferred reclaimer ([free_excess]) and
      the hex line decoder ([hex_to_int], [handle_line]);
    - [MidiToStdin]: [jack-midi-to-stdin.c], the hex encoder ([int_to_hex])
      and the process callback with its buffer ([process], [flush_buf]);
    - [MidiToStdinLastWritten]: [unnamed/part_002], a second version of
      that callback;
    - [Cv]: [cv.c], the scalar cell and its line handler;
    - [EventLoop]: the [poll]/[read] loop that the two [main] functions of
      [jack-stdin-to-midi.c] and [cv.c] share;
    - [Cli]: [usage], which the three programs share.

    Memory is a finite map from addresses to nodes; a C function that
    mutates memory becomes a computation in a state-and-failure monad over
    that memory.  Atomic accesses are modelled as plain accesses to a
    sequentially consistent memory: the calls of the two threads run one
    at a time, and in [StdinToMidi.step] one shared access at a time;
    the memory orders of the C11 atomics are outside this model. *)

From Stdlib Require Import ZArith List SpecFloat.
From stdpp Require Import base option list gmap.

Open Scope Z_scope.

(** ** Outcomes of a C computation *)

Inductive failure : Type :=
| Aborted        (* [abort()]: [malloc] returned NULL *)
| Undefined      (* undefined behaviour: NULL or dangling dereference,
                    double free, out-of-bounds access *)
| AssertFailed   (* an [assert] failed in a build without NDEBUG *)
| OutOfFuel.     (* the loop did not finish within the fuel given *)

Inductive outcome (A : Type) : Type :=
| Ok (a : A)
| Stop (e : failure).
Arguments Ok {A} a.
Arguments Stop {A} e.


(** ** The event loop shared by [cv.c] and [jack-stdin-to-midi.c]

    The two [main] functions run the same [poll]/[read] loop; they
    differ in the size of the line buffer, in whether the byte [X] is a
    resynchronisation marker, and in the line handler. *)

Module EventLoop.

(** <poll.h> on Linux, <stdlib.h>, and the character constants. *)
Definition POLLIN : Z := 1.
Definition POLLNVAL : Z := 32.
Definition EXIT_SUCCESS : Z := 0.
Definition EXIT_FAILURE : Z := 1.
Definition char_X : Z := 88.
Definition char_LF : Z := 10.

(** What one call of [read(STDIN_FILENO, buf, sizeof(buf))] returns:
    [n < 0], [n == 0], or the [n] bytes placed in [buf] (between 1 and
    64 of them; the loop does not depend on their number). *)
Inductive read_result : Type :=
| ReadError
| ReadEof
| ReadBytes (buf : list Z).

(** What the environment does during one turn of the outer loop: the
    value [poll] returns, whether [errno] is EINTR after it, the
    [revents] it reports for the signal pipe and for standard input, and
    the results of the successive calls of [read]. *)
Record Wake : Type := mkWake {
  poll_status : Z;
  poll_eintr : bool;
  revents0 : Z;
  revents1 : Z;
  reads : list read_result;
}.

(** A turn on which the signal pipe reports nothing and [poll] does not
    fail (it succeeds, times out or is interrupted). *)
Definition quiet (k : Wake) : Prop :=
  revents0 k = 0
  ∧ (0 < poll_status k ∨ poll_status k = 0 ∨ poll_eintr k = true).

Section Loop.

Context {S : Type}.

(** [sizeof(line)]; whether the loop tests for ['X']; the line handler,
    applied to the bytes [line[0 .. linelen)]. *)
Variable capacity : nat.
Variable resync : bool.
Variable handler : list Z → S → outcome S.

(** The variables the loop keeps between turns: [pollfds[1].fd], the
    bytes [line[0 .. linelen)], and the state the handler works on. *)
Record LoopState : Type := mkLoopState {
  stdin_fd : Z;
  line : list Z;
  user : S;
}.

Inductive control : Type :=
| Continue (ls : LoopState)
| Exit (code : Z) (ls : LoopState).

(** A byte that the loop stores in [line]: no line feed, and no marker
    where the loop tests for it. *)
Definition plain (b : Z) : Prop :=
  b ≠ char_LF ∧ (resync = true → b ≠ char_X).

(** The body of [for (size_t i = 0; i < (size_t)n; ++i)]. *)
Definition on_byte (b : Z) (ls : list Z * S) : outcome (list Z * S) :=
  let '(line, s) := ls in
  if resync && (b =? char_X) then Ok ([], s)
  else if b =? char_LF then
    match handler line s with
    | Ok s' => Ok ([], s')
    | Stop e => Stop e
    end
  else if (length line <? capacity - 1)%nat then Ok (line ++ [b], s)
  else Ok (line, s).

Fixpoint on_bytes (buf : list Z) (ls : list Z * S) : outcome (list Z * S) :=
  match buf with
  | [] => Ok ls
  | b :: buf' =>
      match on_byte b ls with
      | Ok ls' => on_bytes buf' ls'
      | Stop e => Stop e
      end
  end.

(** The inner [while (true)] around [read].  The script of results plays
    the part of fuel: the loop ends at the first error or end of file. *)
Fixpoint read_loop (rs : list read_result) (ls : LoopState)
    : outcome LoopState :=
  match rs with
  | [] => Stop OutOfFuel
  | ReadError :: _ => Ok ls
  | ReadEof :: _ => Ok (mkLoopState (-1) (line ls) (user ls))
  | ReadBytes buf :: rs' =>
      match on_bytes buf (line ls, user ls) with
      | Ok (l, s) => read_loop rs' (mkLoopState (stdin_fd ls) l s)
      | Stop e => Stop e
      end
  end.

(** One turn of the outer [while (true)].  [poll] ignores a negative
    descriptor and reports no event for it.  The result is either the
    state for the next turn or the exit status of the program: leaving
    the loop with [break] ends in [return EXIT_SUCCESS], the failure
    exits print a message and end in [close_and_fail]. *)
Definition wake (k : Wake) (ls : LoopState) : outcome control :=
  if 0 <? poll_status k then
    let rev0 := revents0 k in
    let rev1 := if stdin_fd ls <? 0 then 0 else revents1 k in
    if negb (Z.land rev0 POLLNVAL =? 0) || negb (Z.land rev1 POLLNVAL =? 0)
    then Ok (Exit EXIT_FAILURE ls)
    else if negb (rev0 =? 0) then Ok (Exit EXIT_SUCCESS ls)
    else if negb (Z.land rev1 POLLIN =? 0) then
      match read_loop (reads k) ls with
      | Ok ls' => Ok (Continue ls')
      | Stop e => Stop e
      end
    else if negb (rev1 =? 0) then
      Ok (Continue (mkLoopState (-1) (line ls) (user ls)))
    else Ok (Continue ls)
  else if (poll_status k =? 0) || poll_eintr k then Ok (Continue ls)
  else Ok (Exit EXIT_FAILURE ls).

(** The outer loop over a script of turns. *)
Fixpoint run (ks : list Wake) (ls : LoopState) : outcome control :=
  match ks with
  | [] => Ok (Continue ls)
  | k :: ks' =>
      match wake k ls with
      | Ok (Continue ls') => run ks' ls'
      | r => r
      end
  end.

(** The state that a run ends with, whether the loop goes on or exits. *)
Definition state_of (c : control) : LoopState :=
  match c with
  | Continue ls | Exit _ ls => ls
  end.

(** The handler applied to a list of lines, one after the other; it
    stops at the first line on which the handler stops. *)
Fixpoint handle_all (lines : list (list Z)) (s : S) : outcome S :=
  match lines with
  | [] => Ok s
  | line :: lines' =>
      match handler line s with
      | Ok s' => handle_all lines' s'
      | Stop e => Stop e
      end
  end.

(** What the byte loop does to its input alone: the lines that it
    completes, in order, and the bytes that stay in the buffer, when it
    reads [buf] with [line] already in the buffer. *)
Fixpoint split_lines (buf line : list Z) : list (list Z) * list Z :=
  match buf with
  | [] => ([], line)
  | b :: buf' =>
      if resync && (b =? char_X) then split_lines buf' []
      else if b =? char_LF then
        let r := split_lines buf' [] in (line :: r.1, r.2)
      else if (length line <? capacity - 1)%nat
      then split_lines buf' (line ++ [b])
      else split_lines buf' line
  end.

(** A turn of the outer loop in which [poll] reports input only and
    [read] returns the chunks [chunks] and then fails (with EAGAIN, say). *)
Definition data_turn (chunks : list (list Z)) : Wake :=
  mkWake 1 false 0 POLLIN (map ReadBytes chunks ++ [ReadError]).

End Loop.

Arguments LoopState : clear implicits.
Arguments control : clear implicits.

End EventLoop.

Module StdinToMidi.

(** ** Data model of [jack-stdin-to-midi.c] *)

Definition addr := positive.

(** [struct Node].  The flexible array [message] and its [length] field are
    one list: [length] is the length of that list. *)
Record Node : Type := mkNode {
  next : option addr;
  message : list Z;
}.

(** [struct State], without the JACK client handle.  [port] records
    whether [state.port] is non-NULL. *)
Record State : Type := mkState {
  port : bool;
  malloc_head : addr;
  head : addr;
  tail : addr;
}.

(** What the program prints on [stderr]. *)
Inductive Diag : Type :=
| BadMessageLength            (* "bad message length" *)
| InvalidHexDigit (c : Z).    (* "invalid hex digit: %c (0x%x)" *)

Record World : Type := mkWorld {
  heap : gmap addr Node;
  state : State;
  stderr : list Diag;
}.

(** [malloc] is an interface: any function that returns either NULL or
    an address that is not allocated at the time of the call. *)
Record Allocator : Type := mkAllocator {
  malloc : gmap addr Node → nat → option addr;
  malloc_fresh : ∀ h n a, malloc h n = Some a → h !! a = None;
}.

(** The allocator that never fails and returns a free address chosen
    from the domain of the heap. *)
Definition bump_allocator : Allocator :=
  {| malloc := λ h _, Some (fresh (dom h));
     malloc_fresh := λ h _ a (H : Some (fresh (dom h)) = Some a),
       match H in (_ = o)
             return (match o with Some a' => h !! a' = None | None => True end)
       with
       | eq_refl => proj1 (not_elem_of_dom h _) (is_fresh (dom h))
       end |}.

Definition alloc_total (A : Allocator) : Prop :=
  ∀ h n, is_Some (malloc A h n).

(** ** The monad *)

Definition M (A : Type) : Type := World → outcome (A * World).

#[global] Instance M_ret : MRet M := λ A a w, Ok (a, w).
#[global] Instance M_bind : MBind M := λ A B f m w,
  match m w with
  | Ok (a, w') => f a w'
  | Stop e => Stop e
  end.

Definition stop {A} (e : failure) : M A := λ _, Stop e.

Definition get_state : M State := λ w, Ok (state w, w).
Definition put_state (s : State) : M unit :=
  λ w, Ok (tt, mkWorld (heap w) s (stderr w)).
Definition get_heap : M (gmap addr Node) := λ w, Ok (heap w, w).
Definition put_heap (h : gmap addr Node) : M unit :=
  λ w, Ok (tt, mkWorld h (state w) (stderr w)).

(** [fputs]/[fprintf] on [stderr]. *)
Definition fputs (d : Diag) : M unit :=
  λ w, Ok (tt, mkWorld (heap w) (state w) (stderr w ++ [d])).

(** Dereference of a node pointer. *)
Definition deref (a : addr) : M Node :=
  h ← get_heap;
  match h !! a with
  | Some n => mret n
  | None => stop Undefined
  end.

Definition load_next (a : addr) : M (option addr) :=
  n ← deref a; mret (next n).

Definition store_next (a : addr) (v : option addr) : M unit :=
  n ← deref a;
  h ← get_heap;
  put_heap (<[a := mkNode v (message n)]> h).

(** [node->message[i]] as an rvalue and as an lvalue. *)
Definition load_byte (a : addr) (i : nat) : M Z :=
  n ← deref a;
  match message n !! i with
  | Some b => mret b
  | None => stop Undefined
  end.

Definition store_byte (a : addr) (i : nat) (b : Z) : M unit :=
  n ← deref a;
  if decide (i < length (message n))%nat then
    h ← get_heap;
    put_heap (<[a := mkNode (next n) (<[i := b]> (message n))]> h)
  else stop Undefined.

Definition free (a : addr) : M unit :=
  _ ← deref a;
  h ← get_heap;
  put_heap (delete a h).

Definition load_head : M addr := s ← get_state; mret (head s).
Definition store_head (a : addr) : M unit :=
  s ← get_state;
  put_state (mkState (port s) (malloc_head s) a (tail s)).
Definition exchange_tail (a : addr) : M addr :=
  s ← get_state;
  put_state (mkState (port s) (malloc_head s) (head s) a);;
  mret (tail s).

Section Program.

(** The build and the environment: the allocator, the bytes found in a
    block that [malloc] has just returned, and whether the program was
    compiled with NDEBUG (the Makefile does so unless DEBUG is set). *)
Variable A : Allocator.
Variable uninit : addr → nat → Z.
Variable NDEBUG : bool.

(** [assert(cond)]: with NDEBUG the macro expands to nothing and [cond]
    is not evaluated. *)
Definition assert (cond : M bool) : M unit :=
  if NDEBUG then mret tt
  else
    b ← cond;
    if b : bool then mret tt else stop AssertFailed.

(** [sizeof(Node)] on an LP64 target. *)
Definition sizeof_Node : nat := 16.

(** [node_new]: [message = None] is the NULL argument, which leaves the
    payload bytes as [malloc] returned them. *)
Definition node_new (length : nat) (message : option (list Z)) : M addr :=
  h ← get_heap;
  match malloc A h (sizeof_Node + length) with
  | None => stop Aborted
  | Some node =>
      match message with
      | None =>
          put_heap (<[node := mkNode None (map (uninit node) (seq 0 length))]> h);;
          mret node
      | Some m =>
          if decide (length ≤ List.length m)%nat then
            put_heap (<[node := mkNode None (take length m)]> h);;
            mret node
          else stop Undefined
      end
  end.

Definition node_blank : M addr := node_new 0 None.

Definition push_back (node : addr) : M unit :=
  assert (nxt ← load_next node; mret (bool_decide (nxt = None)));;
  old ← exchange_tail node;
  (* [assert(old)]: [old] is an address, hence not NULL *)
  store_next old (Some node).

Fixpoint free_excess_loop (fuel : nat) (node : option addr) (head : addr)
    : M unit :=
  if decide (node = Some head) then mret tt
  else
    match fuel with
    | O => stop OutOfFuel
    | S fuel' =>
        assert (mret (bool_decide (node ≠ None)));;
        match node with
        | None => stop Undefined
        | Some a =>
            nxt ← load_next a;
            free a;;
            free_excess_loop fuel' nxt head
        end
    end.

(** Every iteration of the loop frees an allocated node, so one more
    than the number of allocated nodes is fuel enough
    (see [free_excess_loop_fuel]). *)
Definition free_excess : M unit :=
  head ← load_head;
  s ← get_state;
  let node := malloc_head s in
  put_state (mkState (port s) head (StdinToMidi.head s) (tail s));;
  h ← get_heap;
  free_excess_loop (S (size h)) (Some node) head.

(** The drain loop of [process].  [events] are the payloads handed to
    [jack_midi_event_write] so far. *)
Fixpoint process_loop (fuel : nat) (node : addr) (events : list (list Z))
    : M (addr * list (list Z)) :=
  match fuel with
  | O => stop OutOfFuel
  | S fuel' =>
      nxt ← load_next node;
      match nxt with
      | None => mret (node, events)
      | Some node' =>
          n ← deref node';
          process_loop fuel' node' (events ++ [message n])
      end
  end.

(** [process]: [buffer] tells whether [jack_port_get_buffer] returned a
    buffer.  The result is the return value and the events written to
    the (cleared) MIDI buffer. *)
Definition process (fuel : nat) (buffer : bool) : M (Z * list (list Z)) :=
  s ← get_state;
  if negb (port s) then mret (0, [])
  else if negb buffer then mret (-1, [])
  else
    node ← load_head;
    r ← process_loop fuel node [];
    store_head r.1;;
    mret (0, r.2).

Definition hex_to_int (c : Z) : Z :=
  if (48 <=? c) && (c <=? 57) then c - 48
  else if (97 <=? c) && (c <=? 102) then c - 97 + 10
  else if (65 <=? c) && (c <=? 70) then c - 65 + 10
  else -1.

(** Conversion of an [int] to [unsigned char]. *)
Definition to_uchar (v : Z) : Z := v mod 256.

(** The [for] loop of [handle_line], from index [i] on; the result tells
    whether the loop ran to its end ([false]: the function returned from
    inside the loop). *)
Fixpoint decode_loop (node : addr) (i : nat) (line : list Z) : M bool :=
  match line with
  | [] => mret true
  | c :: line' =>
      let value := hex_to_int c in
      if value =? -1 then
        fputs (InvalidHexDigit c);;
        mret false
      else
        (if (i mod 2 =? 0)%nat then
           store_byte node (i / 2) (to_uchar (Z.shiftl value 4))
         else
           b ← load_byte node (i / 2);
           store_byte node (i / 2) (to_uchar (Z.lor b value)));;
        decode_loop node (S i) line'
  end.

(** [handle_line(state, line, len)] with [len = length line]. *)
Definition handle_line (line : list Z) : M unit :=
  let len := length line in
  free_excess;;
  if negb (Nat.land len 1 =? 0)%nat then
    fputs BadMessageLength
  else
    node ← node_new (len / 2) None;
    finished ← decode_loop node 0 line;
    if finished : bool then push_back node else mret tt.

(** The part of [main] that builds the queue: the blank sentinel node,
    the [State] initialiser, and [state.port = port] once the port is
    registered. *)
Definition main_init : M unit :=
  blank ← node_blank;
  put_state (mkState false blank blank blank);;
  s ← get_state;
  put_state (mkState true (malloc_head s) (head s) (tail s)).

(** A producer that enqueues a ready-made message, as a test of the
    queue would; in the program itself the producer is [handle_line]. *)
Definition enqueue (m : list Z) : M addr :=
  node ← node_new (length m) (Some m);
  push_back node;;
  mret node.

Fixpoint enqueue_all (ms : list (list Z)) : M (list addr) :=
  match ms with
  | [] => mret []
  | m :: ms' =>
      node ← enqueue m;
      nodes ← enqueue_all ms';
      mret (node :: nodes)
  end.

(** The calls that the two threads make on the queue.  A drain is given
    more fuel than there are allocated nodes. *)
Inductive call : Type :=
| Enqueue (m : list Z)
| Line (line : list Z)
| Drain (buffer : bool)
| Reclaim.

Definition exec (c : call) : M unit :=
  match c with
  | Enqueue m => _ ← enqueue m; mret tt
  | Line line => handle_line line
  | Drain buffer =>
      h ← get_heap;
      _ ← process (S (size h)) buffer;
      mret tt
  | Reclaim => free_excess
  end.

Fixpoint exec_all (cs : list call) : M unit :=
  match cs with
  | [] => mret tt
  | c :: cs' => exec c;; exec_all cs'
  end.

(** The same calls, keeping the events that each drain writes to the
    MIDI buffer. *)
Definition exec_events (c : call) : M (list (list Z)) :=
  match c with
  | Enqueue m => _ ← enqueue m; mret []
  | Line line => handle_line line;; mret []
  | Drain buffer =>
      h ← get_heap;
      r ← process (S (size h)) buffer;
      mret r.2
  | Reclaim => free_excess;; mret []
  end.

Fixpoint exec_all_events (cs : list call) : M (list (list Z)) :=
  match cs with
  | [] => mret []
  | c :: cs' =>
      events ← exec_events c;
      events' ← exec_all_events cs';
      mret (events ++ events')
  end.

(** *** The two threads, one shared access at a time

    The control thread runs [handle_line] and the real-time thread runs
    [process]; they meet in the fields [head] and [tail] and in the
    [next] links.  Here each thread advances by one access to that
    shared memory at a time, and a schedule says which thread moves. *)

(** Where the control thread stands: outside the queue code; in the
    loop of [free_excess], with the locals [node] and [head]; or in
    [push_back], between the exchange of [tail] and the store to
    [old->next]. *)
Inductive control_pc : Type :=
| ControlIdle
| Freeing (node : option addr) (head : addr)
| Linking (old node : addr).

(** Where the real-time thread stands: outside [process]; in its loop,
    with the local [node] and the events written so far; or past the
    loop, before the store to [head]. *)
Inductive realtime_pc : Type :=
| RealtimeIdle
| Draining (node : addr) (events : list (list Z))
| Publishing (node : addr) (events : list (list Z)).

Inductive action : Type :=
| ReclaimBegin            (* [free_excess] up to its loop *)
| ReclaimStep             (* one test of [node != head], one iteration *)
| Produce (line : list Z) (* [handle_line] after [free_excess], up to
                             and including the exchange of [tail] *)
| PushEnd                 (* the store to [old->next] *)
| DrainBegin              (* [process] up to its loop *)
| DrainStep               (* one iteration of the loop of [process] *)
| DrainEnd.               (* the store to [head] *)

(** A step that the thread cannot take where it stands changes nothing. *)
Definition control_step (a : action) (pc : control_pc) : M control_pc :=
  match a, pc with
  | ReclaimBegin, ControlIdle =>
      head ← load_head;
      s ← get_state;
      put_state (mkState (port s) head (StdinToMidi.head s) (tail s));;
      mret (Freeing (Some (malloc_head s)) head)
  | ReclaimStep, Freeing node head =>
      if decide (node = Some head) then mret ControlIdle
      else
        assert (mret (bool_decide (node ≠ None)));;
        match node with
        | None => stop Undefined
        | Some a =>
            nxt ← load_next a;
            free a;;
            mret (Freeing nxt head)
        end
  | Produce line, ControlIdle =>
      let len := length line in
      if negb (Nat.land len 1 =? 0)%nat then
        fputs BadMessageLength;;
        mret ControlIdle
      else
        node ← node_new (len / 2) None;
        finished ← decode_loop node 0 line;
        if finished : bool then
          assert (nxt ← load_next node; mret (bool_decide (nxt = None)));;
          old ← exchange_tail node;
          mret (Linking old node)
        else mret ControlIdle
  | PushEnd, Linking old node =>
      store_next old (Some node);;
      mret ControlIdle
  | _, _ => mret pc
  end.

(** The real-time thread, with a registered port and a buffer at hand. *)
Definition realtime_step (a : action) (pc : realtime_pc) : M realtime_pc :=
  match a, pc with
  | DrainBegin, RealtimeIdle =>
      node ← load_head;
      mret (Draining node [])
  | DrainStep, Draining node events =>
      nxt ← load_next node;
      match nxt with
      | None => mret (Publishing node events)
      | Some node' =>
          n ← deref node';
          mret (Draining node' (events ++ [message n]))
      end
  | DrainEnd, Publishing node events =>
      store_head node;;
      mret RealtimeIdle
  | _, _ => mret pc
  end.

Record System : Type := mkSystem {
  world : World;
  control : control_pc;
  realtime : realtime_pc;
}.

Definition step (a : action) (sys : System) : outcome System :=
  match control_step a (control sys) (world sys) with
  | Stop e => Stop e
  | Ok (c, w) =>
      match realtime_step a (realtime sys) w with
      | Stop e => Stop e
      | Ok (r, w') => Ok (mkSystem w' c r)
      end
  end.

Fixpoint steps (schedule : list action) (sys : System) : outcome System :=
  match schedule with
  | [] => Ok sys
  | a :: schedule' =>
      match step a sys with
      | Ok sys' => steps schedule' sys'
      | Stop e => Stop e
      end
  end.

(** The handler as [main] calls it, and the loop of [main]:
    [char line[1024]], with the resynchronisation marker. *)
Definition line_handler (line : list Z) (w : World) : outcome World :=
  match handle_line line w with
  | Ok (_, w') => Ok w'
  | Stop e => Stop e
  end.

Definition main_on_bytes := EventLoop.on_bytes 1024 true line_handler.
Definition main_wake := EventLoop.wake 1024 true line_handler.
Definition main_loop := EventLoop.run 1024 true line_handler.

End Program.

(** ** The shape of the queue *)

(** [lseg h a l b]: following [next] from [a] visits exactly the nodes
    [l], all allocated, and arrives at [b]. *)
Fixpoint lseg (h : gmap addr Node) (a : option addr) (l : list addr)
    (b : option addr) : Prop :=
  match l with
  | [] => a = b
  | x :: l' => a = Some x ∧ ∃ n, h !! x = Some n ∧ lseg h (next n) l' b
  end.

(** [Queue w retired live]: [retired] are the nodes from the reclamation
    frontier up to, but not including, the emission cursor; [live] are
    the nodes from the emission cursor to the tail, whose link is unset. *)
Definition Queue (w : World) (retired live : list addr) : Prop :=
  lseg (heap w) (Some (malloc_head (state w))) retired
       (Some (head (state w)))
  ∧ lseg (heap w) (Some (head (state w))) live None
  ∧ last live = Some (tail (state w))
  ∧ NoDup (retired ++ live).

(** A node can be reached from another by following [next]. *)
Inductive reachable (h : gmap addr Node) : addr → addr → Prop :=
| reachable_refl a : reachable h a a
| reachable_next a n b c :
    h !! a = Some n → next n = Some b → reachable h b c → reachable h a c.

Definition payload (h : gmap addr Node) (a : addr) : list Z :=
  from_option message [] (h !! a).

(** The messages waiting in the queue: the payloads after the cursor. *)
Definition pending (w : World) (live : list addr) : list (list Z) :=
  map (payload (heap w)) (drop 1 live).

(** The shape of the queue while the two threads are at work.
    [tofree] are the nodes that the loop of [free_excess] has still to
    free; [retired] and [live] are as in [Queue].  While [push_back] is
    between its two accesses, [tail] is the new node, not yet linked.
    The real-time thread stands on a live node. *)
Definition SystemQueue (sys : System) (tofree retired live : list addr)
    : Prop :=
  let h := heap (world sys) in
  let s := state (world sys) in
  NoDup (tofree ++ retired ++ live)
  ∧ lseg h (Some (malloc_head s)) retired (Some (head s))
  ∧ lseg h (Some (head s)) live None
  ∧ match control sys with
    | Freeing node hd => lseg h node tofree (Some hd) ∧ hd = malloc_head s
    | _ => tofree = []
    end
  ∧ match control sys with
    | Linking old node =>
        last live = Some old ∧ tail s = node
        ∧ (∃ m, h !! node = Some (mkNode None m))
        ∧ node ∉ tofree ++ retired ++ live
    | _ => last live = Some (tail s)
    end
  ∧ match realtime sys with
    | RealtimeIdle => True
    | Draining node _ | Publishing node _ => node ∈ live
    end.

(** The heap once the nodes [l] are freed, first to last. *)
Definition free_all (l : list addr) (h : gmap addr Node) : gmap addr Node :=
  foldl (λ h a, delete a h) h l.

(** The memory when [main] starts: nothing is allocated, nothing has
    been printed, and the fields of [state] hold whatever [s] says. *)
Definition boot (s : State) : World := mkWorld ∅ s [].

(** The world that [main_init] builds when [malloc] returns [blank]. *)
Definition initial_world (blank : addr) : World :=
  mkWorld {[blank := mkNode None []]} (mkState true blank blank blank) [].

(** The world once [free_excess] has reclaimed the retired nodes. *)
Definition reclaimed (w : World) (retired : list addr) : World :=
  mkWorld (free_all retired (heap w))
          (mkState (port (state w)) (head (state w)) (head (state w))
                   (tail (state w)))
          (stderr w).

(** The payload that a line of hex digits denotes: [pairs] groups the
    characters two by two (a last odd one is left out). *)
Fixpoint pairs (line : list Z) : list (Z * Z) :=
  match line with
  | hi :: lo :: line' => (hi, lo) :: pairs line'
  | _ => []
  end.

Definition hex_digit (c : Z) : Prop := hex_to_int c ≠ -1.

Definition decode_line (line : list Z) : list Z :=
  map (λ p, 16 * hex_to_int p.1 + hex_to_int p.2) (pairs line).

Definition uchar (b : Z) : Prop := 0 ≤ b < 256.

(** The effect of the loop of [handle_line] on the payload alone: the
    bytes after the loop and the character that stopped it, if any. *)
Fixpoint decode_bytes (i : nat) (line : list Z) (msg : list Z)
    : list Z * option Z :=
  match line with
  | [] => (msg, None)
  | c :: line' =>
      let value := hex_to_int c in
      if value =? -1 then (msg, Some c)
      else
        decode_bytes (S i) line'
          (if (i mod 2 =? 0)%nat then
             <[(i / 2)%nat := to_uchar (Z.shiftl value 4)]> msg
           else
             <[(i / 2)%nat := to_uchar (Z.lor (msg !!! (i / 2)%nat) value)]> msg)
  end.

(** What the loop prints when a character stops it. *)
Definition decode_diag (bad : option Z) : list Diag :=
  match bad with
  | Some c => [InvalidHexDigit c]
  | None => []
  end.

(** What [handle_line] makes of a line, as a function of the line and
    of [hex_to_int]: a line with an odd number of characters is a length
    error, a line with a character that [hex_to_int] refuses is an error
    at the first such character, and any other line is the message of
    its digit pairs. *)
Inductive verdict : Type :=
| BadLength
| BadDigit (c : Z)
| Message (m : list Z).

Fixpoint first_bad (line : list Z) : option Z :=
  match line with
  | [] => None
  | c :: line' => if hex_to_int c =? -1 then Some c else first_bad line'
  end.

Definition line_verdict (line : list Z) : verdict :=
  if Nat.even (length line) then
    match first_bad line with
    | Some c => BadDigit c
    | None => Message (decode_line line)
    end
  else BadLength.

Definition verdict_diag (v : verdict) : list Diag :=
  match v with
  | BadLength => [BadMessageLength]
  | BadDigit c => [InvalidHexDigit c]
  | Message _ => []
  end.

Definition verdict_messages (v : verdict) : list (list Z) :=
  match v with
  | Message m => [m]
  | _ => []
  end.

(** The messages that a call puts into the queue. *)
Definition call_messages (c : call) : list (list Z) :=
  match c with
  | Enqueue m => [m]
  | Line line => verdict_messages (line_verdict line)
  | _ => []
  end.

(** *** A log of the two threads

    What has gone into the queue and what has come out of it, step by
    step: the control thread accepts the message of a line when it takes
    the line up, and the events of a callback are with JACK when the
    callback ends. *)
Record Log : Type := mkLog {
  accepted : list (list Z);
  emitted : list (list Z);
}.

Definition step_accepts (a : action) (sys : System) : list (list Z) :=
  match a, control sys with
  | Produce line, ControlIdle => verdict_messages (line_verdict line)
  | _, _ => []
  end.

Definition step_emits (a : action) (sys : System) : list (list Z) :=
  match a, realtime sys with
  | DrainEnd, Publishing _ events => events
  | _, _ => []
  end.

Definition step_log (a : action) (sys : System) (log : Log) : Log :=
  mkLog (accepted log ++ step_accepts a sys) (emitted log ++ step_emits a sys).

Fixpoint steps_log (A : Allocator) (uninit : addr → nat → Z) (NDEBUG : bool)
    (schedule : list action) (sys : System) (log : Log)
    : outcome (System * Log) :=
  match schedule with
  | [] => Ok (sys, log)
  | a :: schedule' =>
      match step A uninit NDEBUG a sys with
      | Ok sys' =>
          steps_log A uninit NDEBUG schedule' sys' (step_log a sys log)
      | Stop e => Stop e
      end
  end.

(** The events that the callback in progress has written so far. *)
Definition in_flight (sys : System) : list (list Z) :=
  match realtime sys with
  | RealtimeIdle => []
  | Draining _ events | Publishing _ events => events
  end.

(** The message of the node that [push_back] is about to link. *)
Definition linking (sys : System) : list (list Z) :=
  match control sys with
  | Linking _ node => [payload (heap (world sys)) node]
  | _ => []
  end.

(** The log against the queue: what was accepted is what was emitted,
    then what waits in the queue, then the message being linked; and the
    callback in progress has written the messages of the nodes that it
    has passed. *)
Definition LogInv (sys : System) (log : Log) (live : list addr) : Prop :=
  accepted log = emitted log ++ pending (world sys) live ++ linking sys
  ∧ match realtime sys with
    | RealtimeIdle => True
    | Draining node events | Publishing node events =>
        ∃ pre post,
          live = pre ++ node :: post
          ∧ events = map (payload (heap (world sys))) (drop 1 (pre ++ [node]))
    end.

(** ASCII upper-casing, to compare the two spellings of a hex digit. *)
Definition to_upper (c : Z) : Z :=
  if (97 <=? c) && (c <=? 122) then c - 32 else c.

Definition to_lower (c : Z) : Z :=
  if (65 <=? c) && (c <=? 90) then c + 32 else c.

(** *** The line protocol in the words of the specification

    "One line = an even-length hex string, two characters per payload
    byte, case-insensitive (e.g. 904000 = three-byte message)."  The hex
    digits are written out here as a table from ASCII codes to values,
    and a line is read two characters at a time.  Nothing below refers
    to [hex_to_int] or to [handle_line]: these definitions are what the
    code is measured against. *)
Definition spec_digits : list (Z * Z) :=
  [(48, 0); (49, 1); (50, 2); (51, 3); (52, 4);       (* 0 1 2 3 4 *)
   (53, 5); (54, 6); (55, 7); (56, 8); (57, 9);       (* 5 6 7 8 9 *)
   (97, 10); (98, 11); (99, 12);                      (* a b c *)
   (100, 13); (101, 14); (102, 15);                   (* d e f *)
   (65, 10); (66, 11); (67, 12);                      (* A B C *)
   (68, 13); (69, 14); (70, 15)].                     (* D E F *)

Fixpoint spec_lookup (c : Z) (table : list (Z * Z)) : option Z :=
  match table with
  | [] => None
  | (k, v) :: table' => if c =? k then Some v else spec_lookup c table'
  end.

(** The value of a hex digit; [None] for any other character. *)
Definition spec_digit (c : Z) : option Z := spec_lookup c spec_digits.

(** The payload of a hex string: one byte per pair of digits, the first
    digit of a pair being the high half; [None] when a character is no
    hex digit or when one character is left over. *)
Fixpoint spec_bytes (line : list Z) : option (list Z) :=
  match line with
  | [] => Some []
  | [_] => None
  | hi :: lo :: line' =>
      match spec_digit hi, spec_digit lo, spec_bytes line' with
      | Some h, Some l, Some m => Some ((16 * h + l) :: m)
      | _, _, _ => None
      end
  end.

End StdinToMidi.

(** ** [jack-midi-to-stdin.c]: the encoder and the process callback *)

Module MidiToStdin.

Definition int_to_hex (n : Z) : Z :=
  if (0 <=? n) && (n <=? 9) then 48 + n
  else if (10 <=? n) && (n <=? 15) then 97 + (n - 10)
  else 63.

(** The characters that [process] appends to [buf] for one event: two
    per byte of [event.buffer], then a line feed.  The flushing of [buf]
    with [write] is not part of this definition. *)
Definition encode_byte (value : Z) : list Z :=
  [int_to_hex (Z.shiftr value 4); int_to_hex (Z.land value 15)].

Definition encode_event (buffer : list Z) : list Z :=
  flat_map encode_byte buffer ++ [EventLoop.char_LF].

(** [state.port] (NULL or not), [state.line_completed], the bytes that
    standard output has taken so far, and the number of calls of [write]
    made so far. *)
Record World : Type := mkWorld {
  port : bool;
  line_completed : bool;
  stdout : list Z;
  writes : nat;
}.

Section Program.

(** [write(STDOUT_FILENO, buf, len)] belongs to the system, and standard
    output does not block: [write k bytes] is what the call number [k]
    returns when it is given [bytes]. *)
Variable write : nat → list Z → Z.

(** [char buf[128]] with [buflen]: the list holds the [buflen]
    characters stored so far, the rest of the array is never read.
    [buf[buflen++] = c] past the end of the array is undefined. *)
Definition sizeof_buf : nat := 128.

Definition put (c : Z) (buf : list Z) : outcome (list Z) :=
  if (length buf <? sizeof_buf)%nat then Ok (buf ++ [c])
  else Stop Undefined.

(** [flush_buf]: the first [written] bytes of [buf] have gone out (none
    when [write] fails); the result tells whether all of [buf] has. *)
Definition flush_buf (buf : list Z) (w : World) : bool * World :=
  let len := Z.of_nat (length buf) in
  let written := write (writes w) buf in
  let out := stdout w ++ take (Z.to_nat written) buf in
  let k := Datatypes.S (writes w) in
  if written <? 1 then (false, mkWorld (port w) (line_completed w) out k)
  else if len <? written then (false, mkWorld (port w) false out k)
  else
    let c := nth (Z.to_nat (written - 1)) buf 0 in
    let completed := (c =? EventLoop.char_LF) || (c =? EventLoop.char_X) in
    (written =? len, mkWorld (port w) completed out k).

(** The loop over the bytes of one event.  [None] in the result:
    [flush_buf] failed and [process] has returned; [Some buf]: the loop
    has run to its end. *)
Fixpoint event_loop (bytes : list Z) (buf : list Z) (w : World)
    : outcome (option (list Z) * World) :=
  match bytes with
  | [] => Ok (Some buf, w)
  | value :: bytes' =>
      match put (int_to_hex (Z.shiftr value 4)) buf with
      | Stop e => Stop e
      | Ok buf =>
          match put (int_to_hex (Z.land value 15)) buf with
          | Stop e => Stop e
          | Ok buf =>
              if (length buf <? sizeof_buf)%nat then event_loop bytes' buf w
              else
                let r := flush_buf buf w in
                if negb r.1 then Ok (None, r.2)
                else event_loop bytes' [] r.2
          end
      end
  end.

(** The loop over the events of the port's buffer; an event is [None]
    when [jack_midi_event_get] fails on it, which ends the loop. *)
Fixpoint events_loop (events : list (option (list Z))) (buf : list Z)
    (w : World) : outcome (option (list Z) * World) :=
  match events with
  | [] => Ok (Some buf, w)
  | None :: _ => Ok (Some buf, w)
  | Some bytes :: events' =>
      match event_loop bytes buf w with
      | Stop e => Stop e
      | Ok (None, w) => Ok (None, w)
      | Ok (Some buf, w) =>
          match put EventLoop.char_LF buf with
          | Stop e => Stop e
          | Ok buf => events_loop events' buf w
          end
      end
  end.

(** [process]: [buffer] is what [jack_port_get_buffer] returned ([None]
    is NULL), as the list of its events. *)
Definition process (buffer : option (list (option (list Z)))) (w : World)
    : outcome (Z * World) :=
  if negb (port w) then Ok (0, w)
  else
    match buffer with
    | None => Ok (-1, w)
    | Some events =>
        let buf := [] in
        match (if negb (line_completed w) then put EventLoop.char_X buf
               else Ok buf) with
        | Stop e => Stop e
        | Ok buf =>
            match events_loop events buf w with
            | Stop e => Stop e
            | Ok (None, w) => Ok (0, w)
            | Ok (Some buf, w) => Ok (0, (flush_buf buf w).2)
            end
        end
    end.

(** A run of callbacks, each on the events of its cycle. *)
Fixpoint callbacks (cycles : list (list (list Z))) (w : World)
    : outcome World :=
  match cycles with
  | [] => Ok w
  | events :: cycles' =>
      match process (Some (map Some events)) w with
      | Ok (_, w') => callbacks cycles' w'
      | Stop e => Stop e
      end
  end.

End Program.

(** The characters that one call of [process] has to send: the marker
    when the last line was left unfinished, then the events. *)
Definition payload (w : World) (events : list (list Z)) : list Z :=
  (if line_completed w then [] else [EventLoop.char_X])
  ++ concat (map encode_event events).

(** What has gone out ends a line: its last byte is a line feed or the
    marker. *)
Definition ends_line (p : list Z) : Prop :=
  ∃ init c, p = init ++ [c] ∧ (c = EventLoop.char_LF ∨ c = EventLoop.char_X).

(** [line_completed] after the bytes [p] have gone out between [w] and
    [w']: when it is set, either nothing has gone out and it was set
    before, or what has gone out ends a line. *)
Definition framed (w w' : World) (p : list Z) : Prop :=
  line_completed w' = true →
  (p = [] ∧ line_completed w = true) ∨ ends_line p.

(** [State state = { .line_completed = true }], and the port once it is
    registered. *)
Definition main_init : World := mkWorld true true [] 0.

End MidiToStdin.

(** ** [unnamed/part_002]: the encoder that remembers what it wrote last

    A second version of [jack-midi-to-stdin.c]: [State] holds a
    [LastWritten] instead of [line_completed], there is no [flush_buf],
    and [buf] belongs to the loop over the events. *)

Module MidiToStdinLastWritten.

Inductive LastWritten : Type :=
| LAST_WRITTEN_NEWLINE
| LAST_WRITTEN_X
| LAST_WRITTEN_PARTIAL.

(** [state.port], [state.last_written], the bytes that standard output
    has taken, the sizes printed on [stderr] ("got event, size %zu"),
    and the number of calls of [write] made so far. *)
Record World : Type := mkWorld {
  port : bool;
  last_written : LastWritten;
  stdout : list Z;
  stderr : list nat;
  writes : nat;
}.

Section Program.

Variable write : nat → list Z → Z.

(** [write(STDOUT_FILENO, bytes, len)]: its result, and the world after
    it; the first [result] bytes have gone out. *)
Definition do_write (bytes : list Z) (w : World) : Z * World :=
  let r := write (writes w) bytes in
  (r, mkWorld (port w) (last_written w)
              (stdout w ++ take (Z.to_nat r) bytes) (stderr w)
              (Datatypes.S (writes w))).

Definition set_last_written (l : LastWritten) (w : World) : World :=
  mkWorld (port w) l (stdout w) (stderr w) (writes w).

(** The loop over the bytes of one event; [None]: [process] has
    returned from inside the loop. *)
Fixpoint event_loop (bytes : list Z) (buf : list Z) (w : World)
    : outcome (option (list Z) * World) :=
  match bytes with
  | [] => Ok (Some buf, w)
  | value :: bytes' =>
      match MidiToStdin.put (MidiToStdin.int_to_hex (Z.shiftr value 4)) buf with
      | Stop e => Stop e
      | Ok buf =>
          match MidiToStdin.put (MidiToStdin.int_to_hex (Z.land value 15)) buf with
          | Stop e => Stop e
          | Ok buf =>
              if (length buf <? MidiToStdin.sizeof_buf)%nat
              then event_loop bytes' buf w
              else
                let r := do_write buf w in
                if negb (r.1 =? Z.of_nat (length buf))
                then Ok (None, set_last_written LAST_WRITTEN_PARTIAL r.2)
                else event_loop bytes' [] r.2
          end
      end
  end.

(** The loop over the events, up to its end or to the [return] inside
    it; an event is [None] when [jack_midi_event_get] fails on it. *)
Fixpoint events_loop (events : list (option (list Z))) (w : World)
    : outcome World :=
  match events with
  | [] => Ok w
  | None :: _ => Ok w
  | Some bytes :: events' =>
      let buf := [] in
      let w := mkWorld (port w) (last_written w) (stdout w)
                       (stderr w ++ [length bytes]) (writes w) in
      match event_loop bytes buf w with
      | Stop e => Stop e
      | Ok (None, w) => Ok w
      | Ok (Some buf, w) =>
          match MidiToStdin.put EventLoop.char_LF buf with
          | Stop e => Stop e
          | Ok buf =>
              let r := do_write buf w in
              if negb (r.1 =? Z.of_nat (length buf))
              then Ok (set_last_written LAST_WRITTEN_PARTIAL r.2)
              else events_loop events' r.2
          end
      end
  end.

Definition process (buffer : option (list (option (list Z)))) (w : World)
    : outcome (Z * World) :=
  if negb (port w) then Ok (0, w)
  else
    match buffer with
    | None => Ok (-1, w)
    | Some events =>
        let go (w : World) : outcome (Z * World) :=
          match events_loop events (set_last_written LAST_WRITTEN_NEWLINE w) with
          | Stop e => Stop e
          | Ok w => Ok (0, w)
          end in
        match last_written w with
        | LAST_WRITTEN_PARTIAL =>
            let r := do_write [EventLoop.char_X; EventLoop.char_LF] w in
            if r.1 =? 1 then Ok (0, set_last_written LAST_WRITTEN_X r.2)
            else if r.1 =? 2 then go r.2
            else Ok (0, r.2)
        | LAST_WRITTEN_X =>
            let r := do_write [EventLoop.char_LF] w in
            if negb (r.1 =? 1) then Ok (0, r.2) else go r.2
        | LAST_WRITTEN_NEWLINE => go w
        end
    end.

End Program.

(** What [process] sends before the events: the marker and a line feed
    after a partial line, the line feed that is still due after the
    marker, nothing after a line feed. *)
Definition recovery (l : LastWritten) : list Z :=
  match l with
  | LAST_WRITTEN_PARTIAL => [EventLoop.char_X; EventLoop.char_LF]
  | LAST_WRITTEN_X => [EventLoop.char_LF]
  | LAST_WRITTEN_NEWLINE => []
  end.

End MidiToStdinLastWritten.

(** ** [cv.c]: the scalar cell *)

Module Cv.

(** A [float] is a binary32 number in the representation of
    [SpecFloat]; only comparisons are performed on it. *)
Definition float := spec_float.
Definition float_zero : float := S754_zero false.
Definition float_one : float := S754_finite false 8388608 (-23).

Inductive Diag : Type :=
| CouldNotParse     (* "error: could not parse as a float" *)
| CannotBeNaN       (* "error: value cannot be NaN" *)
| ClampedTo0        (* "value clamped to 0" *)
| ClampedTo1.       (* "value clamped to 1" *)

(** [state.value] and [stderr]. *)
Record World : Type := mkWorld {
  value : float;
  stderr : list Diag;
}.

(** What [strtof(line, &endptr)] leaves behind: its result, [endptr]
    as an offset into [line] ([None] is NULL) and [errno]. *)
Record strtof_result : Type := mkStrtof {
  sf_value : float;
  sf_endptr : option nat;
  sf_errno : Z;
}.

(** The bytes of a C string stored in [l]: those before the first NUL. *)
Fixpoint c_str (l : list Z) : list Z :=
  match l with
  | [] => []
  | c :: l' => if c =? 0 then [] else c :: c_str l'
  end.

Section Program.

(** [strtof] belongs to the C library and [JACLI_CV_CLAMP] to the build. *)
Variable strtof : list Z → strtof_result.
Variable JACLI_CV_CLAMP : bool.

Definition fputs (d : Diag) (w : World) : World :=
  mkWorld (value w) (stderr w ++ [d]).

Definition handle_line (line : list Z) (w : World) : World :=
  let r := strtof line in
  let value := sf_value r in
  if bool_decide (sf_endptr r = None) || bool_decide (sf_endptr r = Some O)
     || negb (sf_errno r =? 0)
  then fputs CouldNotParse w
  else if negb (SFeqb value value) then fputs CannotBeNaN w
  else
    let clamp := JACLI_CV_CLAMP in
    if negb clamp then mkWorld value (stderr w)
    else if SFltb value float_zero then
      let w := fputs ClampedTo0 w in mkWorld float_zero (stderr w)
    else if SFltb float_one value then
      let w := fputs ClampedTo1 w in mkWorld float_one (stderr w)
    else mkWorld value (stderr w).

(** [process]: every frame of the buffer receives the cell's value. *)
Definition process (nframes : nat) (w : World) : list float :=
  repeat (value w) nframes.

(** The handler as [main] calls it (on the NUL-terminated [line]) and
    the loop of [main]: [char line[128]], no resynchronisation marker. *)
Definition line_handler (line : list Z) (w : World) : outcome World :=
  Ok (handle_line (c_str line) w).

Definition main_on_bytes := EventLoop.on_bytes 128 false line_handler.
Definition main_wake := EventLoop.wake 128 false line_handler.
Definition main_loop := EventLoop.run 128 false line_handler.

(** [State state = { .client = client }]: the cell starts at zero. *)
Definition main_init : World := mkWorld float_zero [].

End Program.

(** ** Values and lines used in the statements *)

(** The binary32 numbers 1.5, 0.5, the one nearest to -0.2
    (-13421773 * 2^-26) and positive infinity. *)
Definition float_1_5 : float := S754_finite false 12582912 (-23).
Definition float_0_5 : float := S754_finite false 8388608 (-24).
Definition float_minus_0_2 : float := S754_finite true 13421773 (-26).
Definition float_infinity : float := S754_infinity false.

(** The lines "1.5", "-0.2", "0.5", "nan", "0.5abc" and "1e999". *)
Definition line_1_5 : list Z := [49; 46; 53].
Definition line_minus_0_2 : list Z := [45; 48; 46; 50].
Definition line_0_5 : list Z := [48; 46; 53].
Definition line_nan : list Z := [110; 97; 110].
Definition line_0_5abc : list Z := [48; 46; 53; 97; 98; 99].
Definition line_1e999 : list Z := [49; 101; 57; 57; 57].

(** <errno.h> on Linux. *)
Definition ERANGE : Z := 34.

(** A result of [strtof] that [handle_line] takes as a parse: [endptr]
    is not NULL, it has moved past at least one character, and [errno]
    is still 0. *)
Definition parsed (r : strtof_result) : Prop :=
  (∃ n, sf_endptr r = Some (Datatypes.S n)) ∧ sf_errno r = 0.

Definition is_nan (v : float) : Prop := SFeqb v v = false.

(** The value that a clamping build stores for [v], and what it prints. *)
Definition clamped (v : float) : float :=
  if SFltb v float_zero then float_zero
  else if SFltb float_one v then float_one
  else v.

Definition clamp_notice (v : float) : list Diag :=
  if SFltb v float_zero then [ClampedTo0]
  else if SFltb float_one v then [ClampedTo1]
  else [].

(** A value between 0 and 1, both included, in the order of the
    comparisons of C (which no NaN satisfies). *)
Definition in_range (v : float) : Prop :=
  SFleb float_zero v = true ∧ SFleb v float_one = true.

(** What the cell is meant to hold: a number, and one between 0 and 1
    when the build clamps. *)
Definition good (clamp : bool) (w : World) : Prop :=
  SFeqb (value w) (value w) = true
  ∧ (clamp = true → in_range (value w)).

(** What the C library answers for the six lines above; any other line
    is answered as one that holds no number. *)
Definition strtof_sample (line : list Z) : strtof_result :=
  if bool_decide (line = line_1_5) then mkStrtof float_1_5 (Some 3%nat) 0
  else if bool_decide (line = line_minus_0_2)
  then mkStrtof float_minus_0_2 (Some 4%nat) 0
  else if bool_decide (line = line_0_5) then mkStrtof float_0_5 (Some 3%nat) 0
  else if bool_decide (line = line_nan) then mkStrtof S754_nan (Some 3%nat) 0
  else if bool_decide (line = line_0_5abc)
  then mkStrtof float_0_5 (Some 3%nat) 0
  else if bool_decide (line = line_1e999)
  then mkStrtof float_infinity (Some 5%nat) ERANGE
  else mkStrtof float_zero (Some 0%nat) 0.

End Cv.

(** ** The command line

    [usage] is the same function in the three programs, up to the name
    that it falls back on. *)

Module Cli.

Definition char_slash : Z := 47.

(** The loop of [usage] from the index [i] on: [start] is the index
    after the last ['/'] seen so far. *)
Fixpoint usage_loop (bin : list Z) (i start : nat) : nat :=
  match bin with
  | [] => start
  | c :: bin' =>
      usage_loop bin' (Datatypes.S i)
                 (if c =? char_slash then Datatypes.S i else start)
  end.

(** [usage]: the name that is printed for [%s]; [arg0] is [argv[0]],
    NULL or the characters of a string, and [fallback] is the name in
    the source ("jack-stdin-to-midi", "jack-midi-to-stdin", "jacl-cv"). *)
Definition usage (fallback : list Z) (arg0 : option (list Z)) : list Z :=
  let bin := match arg0 with Some s => s | None => [] end in
  let start := usage_loop bin 0 0 in
  let bin := drop start bin in
  match bin with
  | [] => fallback
  | _ => bin
  end.

End Cli.

(** * Verification *)

Import StdinToMidi.

(** ** Running monadic code *)

Lemma bind_ok {A B} (m : M A) (f : A → M B) w a w' :
  m w = Ok (a, w') → (m ≫= f) w = f a w'.
Proof. intros H. unfold mbind, M_bind. by rewrite H. Qed.

Lemma bind_stop {A B} (m : M A) (f : A → M B) w e :
  m w = Stop e → (m ≫= f) w = Stop e.
Proof. intros H. unfold mbind, M_bind. by rewrite H. Qed.

Lemma deref_ok w a n :
  heap w !! a = Some n → deref a w = Ok (n, w).
Proof. intros H. unfold deref, get_heap, mbind, M_bind. by rewrite H. Qed.

Lemma load_next_ok w a n :
  heap w !! a = Some n → load_next a w = Ok (next n, w).
Proof. intros H. unfold load_next. by rewrite (bind_ok _ _ _ _ _ (deref_ok _ _ _ H)). Qed.

Lemma store_next_ok w a n v :
  heap w !! a = Some n →
  store_next a v w
  = Ok (tt, mkWorld (<[a := mkNode v (message n)]> (heap w)) (state w) (stderr w)).
Proof. intros H. unfold store_next. by rewrite (bind_ok _ _ _ _ _ (deref_ok _ _ _ H)). Qed.

Lemma free_ok w a n :
  heap w !! a = Some n →
  free a w = Ok (tt, mkWorld (delete a (heap w)) (state w) (stderr w)).
Proof. intros H. unfold free. by rewrite (bind_ok _ _ _ _ _ (deref_ok _ _ _ H)). Qed.

Lemma assert_ok NDEBUG (cond : M bool) w :
  cond w = Ok (true, w) → assert NDEBUG cond w = Ok (tt, w).
Proof.
  intros H. unfold assert. destruct NDEBUG; [done|].
  by rewrite (bind_ok _ _ _ _ _ H).
Qed.

(** ** Facts about list segments *)

Lemma lseg_ext h h' a l b :
  (∀ x, x ∈ l → h' !! x = h !! x) → lseg h a l b → lseg h' a l b.
Proof.
  revert a. induction l as [|x l IH]; intros a Hext; simpl; [done|].
  intros [-> (n & Hn & Hl)]. split; [done|]. exists n. split.
  - rewrite Hext; [done | set_solver].
  - apply IH; [|done]. intros y Hy. apply Hext. set_solver.
Qed.

Lemma lseg_allocated h a l b x :
  lseg h a l b → x ∈ l → is_Some (h !! x).
Proof.
  revert a. induction l as [|y l IH]; intros a; simpl; [set_solver|].
  intros [-> (n & Hn & Hl)] [->|Hx]%elem_of_cons; eauto.
Qed.

Lemma lseg_app h a l1 c l2 b :
  lseg h a l1 c → lseg h c l2 b → lseg h a (l1 ++ l2) b.
Proof.
  revert a. induction l1 as [|x l1 IH]; intros a; simpl.
  - by intros ->.
  - intros [-> (n & Hn & Hl)] H2. split; [done|]. exists n. eauto.
Qed.

Lemma lseg_head h a x l b : lseg h a (x :: l) b → a = Some x.
Proof. by intros [-> _]. Qed.

Lemma lseg_None_nil h l b : lseg h None l b → l = [] ∧ b = None.
Proof. destruct l; simpl; [done|]. by intros [? _]. Qed.

(** The segment that ends at an unset link is determined by its start. *)
Lemma lseg_functional h a l1 l2 :
  lseg h a l1 None → lseg h a l2 None → l1 = l2.
Proof.
  revert a l2. induction l1 as [|x l1 IH]; intros a [|y l2]; simpl; try done.
  - by intros -> [? _].
  - by intros [-> _] ?.
  - intros [-> (n & Hn & Hl)] [[= <-] (n' & Hn' & Hl')].
    rewrite Hn in Hn'. injection Hn' as <-. f_equal. eauto.
Qed.

Lemma reachable_lseg h a l x :
  lseg h (Some a) l None → reachable h a x → x ∈ l.
Proof.
  intros Hl Hr. revert l Hl.
  induction Hr as [a|a n b c Hn Hnx _ IH]; intros [|y l]; simpl; try done.
  - intros [[= <-] _]. set_solver.
  - intros [[= <-] (n' & Hn' & Hl)]. rewrite Hn in Hn'. injection Hn' as <-.
    rewrite Hnx in Hl. apply elem_of_cons. right. by apply IH.
Qed.

Lemma lseg_reachable h a l x :
  lseg h (Some a) l None → x ∈ l → reachable h a x.
Proof.
  revert a. induction l as [|y l IH]; intros a; simpl; [set_solver|].
  intros [[= <-] (n & Hn & Hl)] [->|Hx]%elem_of_cons; [constructor|].
  destruct (next n) as [b|] eqn:Hnx.
  - eapply reachable_next; eauto.
  - apply lseg_None_nil in Hl as [-> _]. set_solver.
Qed.

Lemma free_all_lookup l h x :
  free_all l h !! x = if decide (x ∈ l) then None else h !! x.
Proof.
  unfold free_all. revert h. induction l as [|y l IH]; intros h; simpl.
  - destruct (decide (x ∈ [])) as [Hx|Hx]; [by apply elem_of_nil in Hx | done].
  - rewrite IH.
    destruct (decide (x ∈ l)) as [Hl|Hl], (decide (x ∈ y :: l)) as [Hyl|Hyl];
      try done.
    + exfalso. apply Hyl. by right.
    + apply elem_of_cons in Hyl as [->|?]; [|done]. apply lookup_delete_eq.
    + apply lookup_delete_ne. intros ->. apply Hyl. by left.
Qed.

Lemma lseg_last h a l t :
  lseg h a l None → last l = Some t →
  ∃ nt, h !! t = Some nt ∧ next nt = None.
Proof.
  revert a. induction l as [|x l IH]; intros a; simpl; [done|].
  intros [-> (n & Hn & Hl)] Hlast. destruct l as [|y l].
  - simpl in *. injection Hlast as <-. eauto.
  - eapply IH; eauto.
Qed.

Lemma lseg_push h a l t nt node m :
  lseg h a l None → last l = Some t → NoDup l → node ∉ l →
  h !! t = Some nt → h !! node = Some (mkNode None m) →
  lseg (<[t := mkNode (Some node) (message nt)]> h) a (l ++ [node]) None.
Proof.
  intros Hl Hlast Hnd Hnode Ht Hm. revert a Hl Hlast Hnd Hnode.
  induction l as [|x l IH]; intros a; simpl; [done|].
  intros [-> (n & Hn & Hl)] Hlast [Hx Hnd]%NoDup_cons Hnode.
  apply not_elem_of_cons in Hnode as [Hne Hnode]. split; [done|].
  destruct l as [|y l].
  - simpl in *. injection Hlast as <-. rewrite Hn in Ht. injection Ht as <-.
    eexists. rewrite lookup_insert_eq. split; [done|]. simpl. split; [done|].
    exists (mkNode None m). rewrite lookup_insert_ne by done. by rewrite Hm.
  - assert (x ≠ t) as Hxt.
    { intros ->. apply Hx. apply last_Some_elem_of. exact Hlast. }
    exists n. rewrite lookup_insert_ne by done. split; [done|].
    apply IH; done.
Qed.

Lemma last_elem_of {X} (l : list X) t : last l = Some t → t ∈ l.
Proof. apply last_Some_elem_of. Qed.

(** ** The queue operations on a well-shaped queue *)

Section QueueOps.

Variable A : Allocator.
Variable uninit : addr → nat → Z.
Variable NDEBUG : bool.

Lemma push_back_ok w node m nt :
  heap w !! node = Some (mkNode None m) →
  heap w !! tail (state w) = Some nt →
  push_back NDEBUG node w
  = Ok (tt, mkWorld (<[tail (state w) := mkNode (Some node) (message nt)]> (heap w))
                    (mkState (port (state w)) (malloc_head (state w))
                             (head (state w)) node)
                    (stderr w)).
Proof.
  intros Hnode Ht. unfold push_back.
  erewrite bind_ok; cycle 1.
  { apply assert_ok. by rewrite (bind_ok _ _ _ _ _ (load_next_ok _ _ _ Hnode)). }
  unfold exchange_tail, get_state, put_state, mbind, M_bind, mret, M_ret.
  simpl. by erewrite store_next_ok.
Qed.

Lemma Queue_push w retired live node m nt :
  Queue w retired live →
  heap w !! node = Some (mkNode None m) →
  node ∉ retired ++ live →
  heap w !! tail (state w) = Some nt →
  let w' := mkWorld (<[tail (state w) := mkNode (Some node) (message nt)]> (heap w))
                    (mkState (port (state w)) (malloc_head (state w))
                             (head (state w)) node)
                    (stderr w) in
  Queue w' retired (live ++ [node])
  ∧ pending w' (live ++ [node]) = pending w live ++ [m].
Proof.
  intros (Hret & Hlive & Hlast & Hnd) Hnode Hfresh Ht w'.
  apply not_elem_of_app in Hfresh as [Hfr Hfl].
  apply NoDup_app in Hnd as (Hndr & Hdisj & Hndl).
  pose proof (last_elem_of _ _ Hlast) as Htl.
  assert (heap w !! tail (state w) ≠ None) as _ by (by rewrite Ht).
  split; [split; [|split; [|split]]|]; simpl.
  - eapply lseg_ext; [|exact Hret]. intros x Hx.
    rewrite lookup_insert_ne; [done|]. intros <-. by apply (Hdisj _ Hx).
  - by apply lseg_push with (m := m).
  - by rewrite last_snoc.
  - rewrite app_assoc. apply NoDup_app. split; [by apply NoDup_app|].
    split; [|apply NoDup_singleton].
    intros x Hx ->%list_elem_of_singleton.
    apply elem_of_app in Hx as [?|?]; done.
  - unfold pending. simpl. destruct live as [|hd live]; [done|]. simpl.
    rewrite !drop_0, map_app. simpl. f_equal.
    + apply map_ext_in. intros x Hx%list_elem_of_In. unfold payload.
      destruct (decide (x = tail (state w))) as [->|Hne].
      * rewrite lookup_insert_eq, Ht. done.
      * by rewrite lookup_insert_ne.
    + unfold payload. rewrite lookup_insert_ne, Hnode; [done|].
      intros <-. done.
Qed.

End QueueOps.

Lemma lseg_app_inv h a l1 l2 b :
  lseg h a (l1 ++ l2) b → ∃ c, lseg h a l1 c ∧ lseg h c l2 b.
Proof.
  revert a. induction l1 as [|x l1 IH]; intros a; simpl.
  - intros H. by exists a.
  - intros [-> (n & Hn & Hl)]. destruct (IH _ Hl) as (c & H1 & H2).
    exists c. split; [|done]. split; [done|]. eauto.
Qed.

Lemma allocated_length_le (h : gmap addr Node) (l : list addr) :
  NoDup l → (∀ x, x ∈ l → is_Some (h !! x)) → (length l ≤ size h)%nat.
Proof.
  intros Hnd Hall. rewrite <- size_dom. unfold size, set_size. simpl.
  apply submseteq_length, NoDup_submseteq; [done|].
  intros x Hx. apply elem_of_elements, elem_of_dom. by apply Hall.
Qed.

Lemma Queue_ext w w' retired live :
  (∀ x, x ∈ retired ++ live → heap w' !! x = heap w !! x) →
  malloc_head (state w') = malloc_head (state w) →
  head (state w') = head (state w) →
  tail (state w') = tail (state w) →
  Queue w retired live →
  Queue w' retired live ∧ pending w' live = pending w live.
Proof.
  intros Hext Hm Hh Ht (Hret & Hlive & Hlast & Hnd).
  split; [split; [|split; [|split]]|].
  - rewrite Hm, Hh. eapply lseg_ext; [|exact Hret].
    intros x Hx. apply Hext, elem_of_app. by left.
  - rewrite Hh. eapply lseg_ext; [|exact Hlive].
    intros x Hx. apply Hext, elem_of_app. by right.
  - by rewrite Ht.
  - done.
  - unfold pending. apply map_ext_in. intros x Hx%list_elem_of_In.
    unfold payload. rewrite Hext; [done|]. apply elem_of_app. right.
    destruct live; [done|]. simpl in Hx. rewrite drop_0 in Hx. by right.
Qed.

Lemma Queue_live_head w retired live :
  Queue w retired live → ∃ rest, live = head (state w) :: rest.
Proof.
  intros (_ & Hlive & _). destruct live as [|x rest]; [done|].
  destruct Hlive as [[= <-] _]. eauto.
Qed.

Lemma Queue_allocated w retired live x :
  Queue w retired live → x ∈ retired ++ live → is_Some (heap w !! x).
Proof.
  intros (Hret & Hlive & _) [Hx|Hx]%elem_of_app.
  - eapply lseg_allocated; [exact Hret | done].
  - eapply lseg_allocated; [exact Hlive | done].
Qed.

Lemma Queue_size w retired live :
  Queue w retired live → (length (retired ++ live) ≤ size (heap w))%nat.
Proof.
  intros HQ. apply allocated_length_le; [apply HQ|].
  intros x. by apply Queue_allocated.
Qed.

Lemma last_default_irrelevant (l : list addr) (x d d' : addr) :
  List.last (x :: l) d = List.last (x :: l) d'.
Proof.
  revert x. induction l as [|y l IH]; intros x; [done|].
  change (List.last (y :: l) d = List.last (y :: l) d'). apply IH.
Qed.

Lemma last_Some_default (l : list addr) (t d : addr) :
  last l = Some t → List.last l d = t.
Proof.
  intros [init ->]%last_Some. apply last_last.
Qed.

Section Drain.

Lemma process_loop_ok w fuel node rest events :
  lseg (heap w) (Some node) (node :: rest) None →
  (length rest < fuel)%nat →
  process_loop fuel node events w
  = Ok ((List.last rest node, events ++ map (payload (heap w)) rest), w).
Proof.
  revert fuel node events.
  induction rest as [|x rest IH]; intros fuel node events Hl Hfuel;
    (destruct fuel as [|fuel]; [simpl in Hfuel; lia|]);
    destruct Hl as [_ (n & Hn & Hl)]; simpl process_loop;
    rewrite (bind_ok _ _ _ _ _ (load_next_ok _ _ _ Hn)).
  - simpl in Hl. rewrite Hl. by rewrite app_nil_r.
  - pose proof Hl as [Hnx (nx & Hx & _)]. rewrite Hnx.
    rewrite (bind_ok _ _ _ _ _ (deref_ok _ _ _ Hx)).
    rewrite IH; [|by rewrite Hnx in Hl|simpl in Hfuel; lia].
    rewrite <- app_assoc. simpl. unfold payload at 2. rewrite Hx. simpl.
    do 3 f_equal. destruct rest as [|y rest]; [done|].
    apply last_default_irrelevant.
Qed.

Lemma process_ok w retired live fuel :
  Queue w retired live →
  port (state w) = true →
  (length live ≤ fuel)%nat →
  let w' := mkWorld (heap w)
                    (mkState true (malloc_head (state w)) (tail (state w))
                             (tail (state w)))
                    (stderr w) in
  process fuel true w = Ok ((0, pending w live), w')
  ∧ Queue w' (retired ++ removelast live) [tail (state w)].
Proof.
  intros HQ Hport Hfuel w'.
  destruct (Queue_live_head _ _ _ HQ) as [rest ->].
  destruct HQ as (Hret & Hlive & Hlast & Hnd). split.
  - unfold process, get_state, load_head, store_head, put_state, get_state,
      mbind, M_bind, mret, M_ret. rewrite Hport. simpl.
    rewrite (process_loop_ok _ _ _ rest); [|done|simpl in Hfuel; lia].
    simpl. unfold pending. simpl. rewrite drop_0. do 3 f_equal.
    subst w'. rewrite Hport. do 2 f_equal.
    all: destruct rest as [|y rest]; [simpl in *; congruence|];
      rewrite last_cons_cons in Hlast; by apply last_Some_default.
  - apply last_Some in Hlast as [init Hinit]. rewrite Hinit in *.
    rewrite removelast_last.
    apply lseg_app_inv in Hlive as (c & H1 & H2).
    pose proof (lseg_head _ _ _ _ _ H2) as ->.
    split; [|split; [|split]]; simpl.
    + eapply lseg_app; eauto.
    + done.
    + done.
    + by rewrite <- app_assoc.
Qed.

End Drain.

(** ** The reclaimer *)

Section Reclaim.

Variable NDEBUG : bool.

Lemma free_excess_loop_ok w fuel node retired hd :
  lseg (heap w) node retired (Some hd) →
  NoDup retired → hd ∉ retired →
  (size (heap w) < fuel)%nat →
  free_excess_loop NDEBUG fuel node hd w
  = Ok (tt, mkWorld (free_all retired (heap w)) (state w) (stderr w)).
Proof.
  revert w fuel node.
  induction retired as [|x retired IH]; intros w fuel node Hl Hnd Hhd Hfuel.
  - simpl in Hl. subst node. destruct fuel; simpl.
    all: rewrite decide_True by done; by destruct w.
  - destruct Hl as [-> (n & Hn & Hl)].
    apply NoDup_cons in Hnd as [Hx Hnd].
    apply not_elem_of_cons in Hhd as [Hne Hhd].
    destruct fuel as [|fuel]; [lia|]. simpl free_excess_loop.
    rewrite decide_False by congruence.
    erewrite bind_ok; [|by apply assert_ok].
    rewrite (bind_ok _ _ _ _ _ (load_next_ok _ _ _ Hn)).
    rewrite (bind_ok _ _ _ _ _ (free_ok _ _ _ Hn)).
    rewrite IH; simpl; try done.
    + eapply lseg_ext; [|exact Hl]. intros y Hy.
      apply lookup_delete_ne. by intros ->.
    + rewrite map_size_delete_Some by eauto.
      assert (size (heap w) ≠ 0)%nat; [|lia].
      intros Hz%map_size_empty_inv. by rewrite Hz, lookup_empty in Hn.
Qed.

Lemma free_excess_ok w retired live :
  Queue w retired live →
  let w' := mkWorld (free_all retired (heap w))
                    (mkState (port (state w)) (head (state w))
                             (head (state w)) (tail (state w)))
                    (stderr w) in
  free_excess NDEBUG w = Ok (tt, w')
  ∧ Queue w' [] live
  ∧ pending w' live = pending w live.
Proof.
  intros HQ w'. pose proof HQ as (Hret & Hlive & Hlast & Hnd).
  destruct (Queue_live_head _ _ _ HQ) as [rest ->].
  apply NoDup_app in Hnd as (Hndr & Hdisj & Hndl).
  assert (∀ x, x ∈ head (state w) :: rest →
               free_all retired (heap w) !! x = heap w !! x) as Hkeep.
  { intros x Hx. rewrite free_all_lookup. rewrite decide_False; [done|].
    intros Hr. by apply (Hdisj _ Hr). }
  split; [|split; [split; [|split; [|split]]|]].
  - unfold free_excess, load_head, get_state, put_state, get_heap,
      mbind, M_bind, mret, M_ret. cbn -[free_excess_loop].
    rewrite (free_excess_loop_ok _ _ _ retired); simpl; try done.
    + intros Hr. apply (Hdisj _ Hr). by left.
    + lia.
  - done.
  - apply (lseg_ext (heap w)); [|exact Hlive]. done.
  - done.
  - done.
  - unfold pending. apply map_ext_in. intros x Hx%list_elem_of_In.
    unfold payload. simpl. rewrite Hkeep; [done|].
    simpl in Hx. rewrite drop_0 in Hx. by right.
Qed.

(** The fuel that [free_excess] gives its loop is always enough. *)
Lemma free_excess_loop_fuel w fuel node hd :
  (size (heap w) < fuel)%nat →
  free_excess_loop NDEBUG fuel node hd w ≠ Stop OutOfFuel.
Proof.
  revert w node. induction fuel as [|fuel IH]; intros w node Hfuel; [lia|].
  simpl. destruct (decide (node = Some hd)) as [|Hne]; [done|].
  destruct node as [a|]; cycle 1.
  { unfold mbind, M_bind, assert. by destruct NDEBUG. }
  erewrite bind_ok; [|by apply assert_ok].
  destruct (heap w !! a) as [nd|] eqn:Hn.
  - rewrite (bind_ok _ _ _ _ _ (load_next_ok _ _ _ Hn)).
    rewrite (bind_ok _ _ _ _ _ (free_ok _ _ _ Hn)).
    apply IH. simpl. rewrite map_size_delete_Some by eauto.
    assert (size (heap w) ≠ 0)%nat; [|lia].
    intros Hz%map_size_empty_inv. by rewrite Hz, lookup_empty in Hn.
  - unfold load_next, deref, get_heap, mbind, M_bind. by rewrite Hn.
Qed.

End Reclaim.

(** ** The hex codec *)

(** Case analysis on every integer comparison of the goal. *)
Ltac leb_cases :=
  repeat match goal with
    | |- context [?a <=? ?b] => destruct (Z.leb_spec a b)
    end;
  simpl in *; try lia.

Lemma hex_to_int_range c : hex_digit c → 0 ≤ hex_to_int c ≤ 15.
Proof. unfold hex_digit, hex_to_int. leb_cases. Qed.

Lemma hex_to_int_to_upper c : hex_to_int (to_upper c) = hex_to_int c.
Proof. unfold to_upper, hex_to_int. leb_cases. Qed.

Lemma hex_to_int_int_to_hex n :
  0 ≤ n ≤ 15 → hex_to_int (MidiToStdin.int_to_hex n) = n.
Proof. intros Hn. unfold MidiToStdin.int_to_hex, hex_to_int. leb_cases. Qed.

Lemma int_to_hex_digit n : 0 ≤ n ≤ 15 → hex_digit (MidiToStdin.int_to_hex n).
Proof. intros Hn. unfold hex_digit. rewrite hex_to_int_int_to_hex; lia. Qed.

Lemma nibbles_join hi lo :
  0 ≤ hi ≤ 15 → 0 ≤ lo ≤ 15 →
  to_uchar (Z.lor (to_uchar (Z.shiftl hi 4)) lo) = 16 * hi + lo.
Proof.
  intros Hhi Hlo. unfold to_uchar.
  rewrite Z.shiftl_mul_pow2 by lia. change (2 ^ 4) with 16.
  rewrite (Z.mod_small (hi * 16)) by lia.
  assert (Z.land (hi * 16) lo = 0) as Hland.
  { apply Z.bits_inj'. intros n Hn. rewrite Z.land_spec, Z.bits_0.
    destruct (decide (n < 4)) as [Hlt|Hge].
    - change 16 with (2 ^ 4). rewrite Z.mul_pow2_bits_low by lia. done.
    - rewrite (Z.bits_above_log2 lo n); [apply andb_false_r | lia |].
      destruct (decide (lo = 0)) as [->|]; [simpl; lia|].
      assert (Z.log2 lo < 4); [|lia]. apply Z.log2_lt_pow2; lia. }
  pose proof (Z.add_lor_land (hi * 16) lo) as Hadd.
  rewrite Hland, Z.add_0_r in Hadd. rewrite Hadd.
  rewrite Z.mod_small by lia. lia.
Qed.

Lemma nibbles_split b :
  uchar b →
  0 ≤ Z.shiftr b 4 ≤ 15 ∧ 0 ≤ Z.land b 15 ≤ 15
  ∧ 16 * Z.shiftr b 4 + Z.land b 15 = b.
Proof.
  intros [Hlo Hhi]. rewrite Z.shiftr_div_pow2 by lia.
  replace (Z.land b 15) with (b `mod` 16)
    by (change 15 with (Z.ones 4); by rewrite Z.land_ones by lia).
  change (2 ^ 4) with 16. Z.div_mod_to_equations. lia.
Qed.

Lemma load_byte_ok w a n i b :
  heap w !! a = Some n → message n !! i = Some b →
  load_byte a i w = Ok (b, w).
Proof.
  intros Hn Hb. unfold load_byte.
  rewrite (bind_ok _ _ _ _ _ (deref_ok _ _ _ Hn)). by rewrite Hb.
Qed.

Lemma store_byte_ok w a n i b :
  heap w !! a = Some n → (i < length (message n))%nat →
  store_byte a i b w
  = Ok (tt, mkWorld (<[a := mkNode (next n) (<[i := b]> (message n))]> (heap w))
                    (state w) (stderr w)).
Proof.
  intros Hn Hi. unfold store_byte.
  rewrite (bind_ok _ _ _ _ _ (deref_ok _ _ _ Hn)).
  by rewrite decide_True.
Qed.

Lemma decode_bytes_cons i c line msg :
  decode_bytes i (c :: line) msg
  = if hex_to_int c =? -1 then (msg, Some c)
    else decode_bytes (S i) line
           (if (i mod 2 =? 0)%nat
            then <[(i / 2)%nat := to_uchar (Z.shiftl (hex_to_int c) 4)]> msg
            else <[(i / 2)%nat :=
                     to_uchar (Z.lor (msg !!! (i / 2)%nat) (hex_to_int c))]> msg).
Proof. done. Qed.

Lemma decode_bytes_length i line msg :
  length (decode_bytes i line msg).1 = length msg.
Proof.
  revert i msg. induction line as [|c line IH]; intros i msg; [done|].
  rewrite decode_bytes_cons.
  destruct (hex_to_int c =? -1); [done|]. rewrite IH.
  destruct (i mod 2 =? 0)%nat; apply length_insert.
Qed.

Lemma decode_bytes_valid i line msg :
  Forall hex_digit line → (decode_bytes i line msg).2 = None.
Proof.
  intros Hall. revert i msg.
  induction Hall as [|c line Hc _ IH]; intros i msg; [done|].
  rewrite decode_bytes_cons.
  destruct (Z.eqb_spec (hex_to_int c) (-1)); [done | apply IH].
Qed.

Lemma decode_bytes_invalid i line msg :
  ¬ Forall hex_digit line →
  ∃ c, (decode_bytes i line msg).2 = Some c ∧ c ∈ line ∧ hex_to_int c = -1.
Proof.
  revert i msg. induction line as [|c line IH]; intros i msg Hbad.
  - by destruct Hbad.
  - rewrite decode_bytes_cons.
    destruct (Z.eqb_spec (hex_to_int c) (-1)) as [Hc|Hc].
    + exists c. split; [done|]. split; [by left | done].
    + destruct (IH (S i)
        (if (i mod 2 =? 0)%nat
         then <[(i / 2)%nat := to_uchar (Z.shiftl (hex_to_int c) 4)]> msg
         else <[(i / 2)%nat := to_uchar (Z.lor (msg !!! (i / 2)%nat) (hex_to_int c))]> msg))
        as (c' & Hs & Hin & Hc').
      { intros Hall. apply Hbad. by constructor. }
      exists c'. split; [done|]. split; [by right | done].
Qed.

(** Induction on a list, two elements at a time. *)
Lemma list_pair_ind {X} (P : list X → Prop) :
  P [] → (∀ x, P [x]) → (∀ x y l, P l → P (x :: y :: l)) → ∀ l, P l.
Proof.
  intros Hnil Hone Hstep l.
  assert (P l ∧ ∀ x, P (x :: l)) as [H _]; [|done].
  induction l as [|y l [IH1 IH2]]; [by split|]. split; [apply IH2|].
  intros x. by apply Hstep.
Qed.

Lemma decode_bytes_pairs line : ∀ k msg,
  Forall hex_digit line →
  Nat.even (length line) = true →
  (k + length line / 2 ≤ length msg)%nat →
  (decode_bytes (2 * k) line msg).1
  = take k msg ++ decode_line line ++ drop (k + length line / 2) msg.
Proof.
  induction line as [|c|hi lo line IH] using list_pair_ind;
    intros k msg Hall Heven Hlen.
  - simpl. rewrite Nat.add_0_r. by rewrite take_drop.
  - done.
  - apply Forall_cons in Hall as [Hhi Hall].
    apply Forall_cons in Hall as [Hlo Hall].
    change (length (hi :: lo :: line)) with (2 + length line)%nat in *.
    assert ((2 + length line) / 2 = S (length line / 2))%nat as Hdiv.
    { replace (2 + length line)%nat with (1 * 2 + length line)%nat by lia.
      rewrite Nat.div_add_l by lia. lia. }
    rewrite Hdiv in *.
    rewrite !decode_bytes_cons.
    destruct (Z.eqb_spec (hex_to_int hi) (-1)) as [|_]; [done|].
    destruct (Z.eqb_spec (hex_to_int lo) (-1)) as [|_]; [done|].
    assert ((2 * k) mod 2 = 0)%nat as -> 
      by (rewrite Nat.mul_comm; apply Nat.Div0.mod_mul).
    assert (S (2 * k) mod 2 = 1)%nat as ->.
    { replace (S (2 * k)) with (1 + k * 2)%nat by lia.
      by rewrite Nat.Div0.mod_add. }
    assert (2 * k / 2 = k)%nat as ->
      by (rewrite Nat.mul_comm; apply Nat.div_mul; lia).
    assert (S (2 * k) / 2 = k)%nat as ->.
    { replace (S (2 * k)) with (1 + k * 2)%nat by lia.
      rewrite Nat.div_add by lia. done. }
    simpl Nat.eqb. cbv iota.
    rewrite list_lookup_total_insert_eq by lia.
    rewrite list_insert_insert_eq.
    replace (S (S (2 * k))) with (2 * S k)%nat by lia.
    rewrite IH; [|done|done|rewrite length_insert; lia].
    rewrite nibbles_join by (by apply hex_to_int_range).
    unfold decode_line. simpl.
    rewrite (take_S_r _ _ (16 * hex_to_int hi + hex_to_int lo))
      by (apply list_lookup_insert_eq; lia).
    rewrite take_insert_ge by lia. rewrite drop_insert_lt by lia.
    rewrite <- app_assoc, Nat.add_succ_r. done.
Qed.


Lemma decode_loop_cons node i c line :
  decode_loop node i (c :: line)
  = let value := hex_to_int c in
    if value =? -1 then fputs (InvalidHexDigit c);; mret false
    else
      (if (i mod 2 =? 0)%nat then
         store_byte node (i / 2) (to_uchar (Z.shiftl value 4))
       else
         b ← load_byte node (i / 2);
         store_byte node (i / 2) (to_uchar (Z.lor b value)));;
      decode_loop node (S i) line.
Proof. done. Qed.

(** The loop of [handle_line] performs [decode_bytes] on the payload of
    its node and touches nothing else. *)
Lemma decode_loop_ok w node nx msg i line :
  heap w !! node = Some (mkNode nx msg) →
  (i + length line ≤ 2 * length msg)%nat →
  let r := decode_bytes i line msg in
  decode_loop node i line w
  = Ok (bool_decide (r.2 = None),
        mkWorld (<[node := mkNode nx r.1]> (heap w)) (state w)
                (stderr w ++ decode_diag r.2)).
Proof.
  revert w i msg. induction line as [|c line IH]; intros w i msg Hnode Hlen.
  - simpl. rewrite insert_id by done. rewrite app_nil_r. by destruct w.
  - rewrite decode_loop_cons, decode_bytes_cons. cbv zeta.
    destruct (Z.eqb_spec (hex_to_int c) (-1)) as [Hc|Hc].
    { simpl. by rewrite insert_id. }
    simpl in Hlen.
    assert (i / 2 < length msg)%nat as Hi.
    { apply Nat.Div0.div_lt_upper_bound. lia. }
    assert (∀ b, heap (mkWorld (<[node := mkNode nx (<[(i / 2)%nat := b]> msg)]> (heap w))
                               (state w) (stderr w)) !! node
                 = Some (mkNode nx (<[(i / 2)%nat := b]> msg))) as Hnode'.
    { intros b. simpl. apply lookup_insert_eq. }
    destruct (i mod 2 =? 0)%nat.
    + rewrite (bind_ok _ _ _ _ _ (store_byte_ok _ _ _ _ _ Hnode Hi)).
      simpl next. simpl message.
      rewrite (IH _ _ _ (Hnode' _)) by (rewrite length_insert; lia).
      simpl. by rewrite insert_insert_eq.
    + assert (msg !! (i / 2)%nat = Some (msg !!! (i / 2)%nat)) as Hb
        by (by apply list_lookup_lookup_total_lt).
      erewrite bind_ok; cycle 1.
      { rewrite (bind_ok _ _ _ _ _ (load_byte_ok _ _ _ _ _ Hnode Hb)).
        apply (store_byte_ok _ _ _ _ _ Hnode Hi). }
      simpl next. simpl message.
      rewrite (IH _ _ _ (Hnode' _)) by (rewrite length_insert; lia).
      simpl. by rewrite insert_insert_eq.
Qed.

Lemma decode_loop_to_upper node line : ∀ i w,
  Forall hex_digit line →
  decode_loop node i (map to_upper line) w = decode_loop node i line w.
Proof.
  induction line as [|c line IH]; intros i w Hall; [done|].
  apply Forall_cons in Hall as [Hc Hall].
  change (map to_upper (c :: line)) with (to_upper c :: map to_upper line).
  rewrite !decode_loop_cons. cbv zeta. rewrite hex_to_int_to_upper.
  destruct (Z.eqb_spec (hex_to_int c) (-1)) as [|_]; [done|].
  unfold mbind at 1 3, M_bind at 1 3.
  destruct (_ w) as [[[] w']|e]; [|done]. by apply IH.
Qed.

(** Decoding what the encoder wrote. *)
Lemma encode_hex_digits buffer :
  Forall uchar buffer → Forall hex_digit (flat_map MidiToStdin.encode_byte buffer).
Proof.
  induction 1 as [|b buffer Hb _ IH]; simpl; [done|].
  destruct (nibbles_split b Hb) as (Hhi & Hlo & _).
  repeat constructor; try done; by apply int_to_hex_digit.
Qed.

Lemma encode_length buffer :
  length (flat_map MidiToStdin.encode_byte buffer) = (2 * length buffer)%nat.
Proof. induction buffer as [|b buffer IH]; simpl; [done|]. rewrite IH. lia. Qed.

Lemma decode_line_encode buffer :
  Forall uchar buffer →
  decode_line (flat_map MidiToStdin.encode_byte buffer) = buffer.
Proof.
  induction 1 as [|b buffer Hb _ IH]; [done|].
  destruct (nibbles_split b Hb) as (Hhi & Hlo & Hjoin).
  unfold decode_line in *. simpl. rewrite IH.
  rewrite !hex_to_int_int_to_hex by done. by rewrite Hjoin.
Qed.


Lemma land_1_even n : (Nat.land n 1 =? 0)%nat = Nat.even n.
Proof.
  change 1%nat with (Nat.ones 1). rewrite Nat.land_ones. change (2 ^ 1)%nat with 2%nat.
  destruct (Nat.even n) eqn:He.
  - apply Nat.even_spec in He as [k ->]. apply Nat.eqb_eq.
    rewrite Nat.mul_comm. apply Nat.Div0.mod_mul.
  - apply Nat.eqb_neq. rewrite <- Nat.negb_odd in He.
    apply negb_false_iff, Nat.odd_spec in He as [k ->].
    rewrite Nat.add_comm, Nat.mul_comm, Nat.Div0.mod_add. done.
Qed.

(** ** [handle_line] on a well-shaped queue *)

Lemma even_div2 n : Nat.even n = true → (2 * (n / 2) = n)%nat.
Proof.
  intros [k ->]%Nat.even_spec. rewrite (Nat.mul_comm 2 k), Nat.div_mul; lia.
Qed.

Section HandleLine.

Variable A : Allocator.
Variable uninit : addr → nat → Z.
Variable NDEBUG : bool.

Lemma node_new_NULL_ok w length node :
  malloc A (heap w) (sizeof_Node + length) = Some node →
  node_new A uninit length None w
  = Ok (node, mkWorld (<[node := mkNode None (map (uninit node) (seq 0 length))]> (heap w))
                      (state w) (stderr w)).
Proof.
  intros Hm. unfold node_new, get_heap, mbind, M_bind. by rewrite Hm.
Qed.

Lemma node_new_copy_ok w m node :
  malloc A (heap w) (sizeof_Node + length m) = Some node →
  node_new A uninit (length m) (Some m) w
  = Ok (node, mkWorld (<[node := mkNode None m]> (heap w)) (state w) (stderr w)).
Proof.
  intros Hm. unfold node_new, get_heap, mbind, M_bind. rewrite Hm.
  rewrite decide_True by done. by rewrite firstn_all.
Qed.

Lemma node_new_abort w length message :
  malloc A (heap w) (sizeof_Node + length) = None →
  node_new A uninit length message w = Stop Aborted.
Proof.
  intros Hm. unfold node_new, get_heap, mbind, M_bind. by rewrite Hm.
Qed.

(** Allocating a node leaves a well-shaped queue as it is. *)
Lemma Queue_alloc w retired live node n :
  Queue w retired live → heap w !! node = None →
  let w' := mkWorld (<[node := n]> (heap w)) (state w) (stderr w) in
  Queue w' retired live ∧ pending w' live = pending w live
  ∧ node ∉ retired ++ live.
Proof.
  intros HQ Hfree w'.
  assert (node ∉ retired ++ live) as Hnot.
  { intros Hin. destruct (Queue_allocated _ _ _ _ HQ Hin) as [? Hs].
    by rewrite Hfree in Hs. }
  destruct (Queue_ext w w' retired live) as [HQ' Hp]; try done.
  intros x Hx. simpl. apply lookup_insert_ne. by intros <-.
Qed.

Lemma handle_line_odd w retired live line :
  Queue w retired live →
  Nat.even (length line) = false →
  handle_line A uninit NDEBUG line w
  = Ok (tt, mkWorld (heap (reclaimed w retired)) (state (reclaimed w retired))
                    (stderr w ++ [BadMessageLength])).
Proof.
  intros HQ Hodd. unfold handle_line. cbv zeta.
  destruct (free_excess_ok NDEBUG _ _ _ HQ) as (Hfree & _).
  rewrite (bind_ok (free_excess NDEBUG) _ w _ _ Hfree). by rewrite land_1_even, Hodd.
Qed.

Lemma handle_line_abort w retired live line :
  Queue w retired live →
  Nat.even (length line) = true →
  malloc A (free_all retired (heap w)) (sizeof_Node + length line / 2) = None →
  handle_line A uninit NDEBUG line w = Stop Aborted.
Proof.
  intros HQ Heven Hm. unfold handle_line. cbv zeta.
  destruct (free_excess_ok NDEBUG _ _ _ HQ) as (Hfree & _).
  rewrite (bind_ok (free_excess NDEBUG) _ w _ _ Hfree). rewrite land_1_even, Heven.
  change (negb true) with false. cbv iota. erewrite bind_stop; [done|]. apply node_new_abort. exact Hm.
Qed.

(** After the reclamation and the allocation, the loop has run. *)
Lemma handle_line_decoded w retired live line node :
  Queue w retired live →
  Nat.even (length line) = true →
  malloc A (free_all retired (heap w)) (sizeof_Node + length line / 2) = Some node →
  let r := decode_bytes 0 line (map (uninit node) (seq 0 (length line / 2))) in
  let w1 := mkWorld (<[node := mkNode None r.1]> (free_all retired (heap w)))
                    (state (reclaimed w retired))
                    (stderr w ++ decode_diag r.2) in
  handle_line A uninit NDEBUG line w
  = if bool_decide (r.2 = None) then push_back NDEBUG node w1 else Ok (tt, w1).
Proof.
  intros HQ Heven Hm r w1. unfold handle_line. cbv zeta.
  destruct (free_excess_ok NDEBUG _ _ _ HQ) as (Hfree & _).
  rewrite (bind_ok (free_excess NDEBUG) _ w _ _ Hfree). rewrite land_1_even, Heven.
  change (negb true) with false. cbv iota.
  erewrite bind_ok; [|apply node_new_NULL_ok; exact Hm].
  erewrite bind_ok; cycle 1.
  { eapply decode_loop_ok.
    - simpl. apply lookup_insert_eq.
    - rewrite length_map, length_seq. pose proof (even_div2 _ Heven).
      change (0 + length line)%nat with (length line).
      change ((Nat.divmod (length line) 1 0 1).1) with (length line / 2)%nat.
      lia. }
  simpl. rewrite insert_insert_eq.
  change ((Nat.divmod (length line) 1 0 1).1) with (length line / 2)%nat.
  fold r. destruct (bool_decide (r.2 = None)); reflexivity.
Qed.

End HandleLine.

(** ** Enqueueing and draining *)

Section Enqueue.

Variable A : Allocator.
Variable uninit : addr → nat → Z.
Variable NDEBUG : bool.

Lemma main_init_ok s0 blank :
  malloc A ∅ (sizeof_Node + 0) = Some blank →
  let w0 := mkWorld {[blank := mkNode None []]}
                    (mkState true blank blank blank) [] in
  main_init A uninit (boot s0) = Ok (tt, w0) ∧ Queue w0 [] [blank].
Proof.
  intros Hm w0. split.
  - unfold main_init, node_blank.
    erewrite bind_ok; [|apply node_new_NULL_ok; exact Hm]. done.
  - split; [done|]. split; [|split; [done|]].
    + split; [done|]. eexists. split; [apply lookup_singleton_eq | done].
    + apply NoDup_singleton.
Qed.

Lemma enqueue_ok w retired live m node :
  Queue w retired live →
  malloc A (heap w) (sizeof_Node + length m) = Some node →
  ∃ w', enqueue A uninit NDEBUG m w = Ok (node, w')
    ∧ Queue w' retired (live ++ [node])
    ∧ pending w' (live ++ [node]) = pending w live ++ [m]
    ∧ state w' = mkState (port (state w)) (malloc_head (state w))
                         (head (state w)) node
    ∧ stderr w' = stderr w.
Proof.
  intros HQ Hm. pose proof (malloc_fresh A _ _ _ Hm) as Hfresh.
  destruct (Queue_alloc w retired live node (mkNode None m) HQ Hfresh)
    as (HQ1 & Hp1 & Hnot).
  pose proof HQ1 as (_ & Hlive & Hlast & _).
  destruct (lseg_last _ _ _ _ Hlive Hlast) as (nt & Ht & _).
  destruct (Queue_push _ _ _ node m nt HQ1) as [HQ2 Hp2]; try done.
  { simpl. apply lookup_insert_eq. }
  eexists. split; [|split; [exact HQ2|split; [by rewrite Hp2, Hp1|done]]].
  unfold enqueue.
  erewrite bind_ok; [|apply node_new_copy_ok; exact Hm].
  erewrite bind_ok; [done|]. eapply push_back_ok; [|exact Ht].
  simpl. apply lookup_insert_eq.
Qed.

Lemma enqueue_all_ok msgs : ∀ w retired live,
  alloc_total A →
  Queue w retired live →
  ∃ nodes w', enqueue_all A uninit NDEBUG msgs w = Ok (nodes, w')
    ∧ length nodes = length msgs
    ∧ Queue w' retired (live ++ nodes)
    ∧ pending w' (live ++ nodes) = pending w live ++ msgs
    ∧ port (state w') = port (state w)
    ∧ head (state w') = head (state w)
    ∧ tail (state w') = List.last nodes (tail (state w)).
Proof.
  induction msgs as [|m msgs IH]; intros w retired live Htotal HQ.
  - exists [], w. rewrite !app_nil_r. done.
  - destruct (Htotal (heap w) (sizeof_Node + length m)%nat) as [node Hm].
    destruct (enqueue_ok _ _ _ _ _ HQ Hm) as (w1 & Hrun & HQ1 & Hp1 & Hs1 & _).
    destruct (IH _ _ _ Htotal HQ1)
      as (nodes & w' & Hrun' & Hlen & HQ' & Hp' & Hport & Hhead & Htail).
    exists (node :: nodes), w'. rewrite Hs1 in *. simpl in *.
    change (enqueue_all A uninit NDEBUG (m :: msgs))
      with (node ← enqueue A uninit NDEBUG m;
            nodes ← enqueue_all A uninit NDEBUG msgs;
            mret (node :: nodes)).
    rewrite (bind_ok _ _ _ _ _ Hrun), (bind_ok _ _ _ _ _ Hrun').
    rewrite <- !app_assoc in *. simpl in *.
    split; [done|]. split; [by rewrite Hlen|]. split; [done|].
    split; [by rewrite Hp', Hp1, <- app_assoc|].
    split; [done|]. split; [done|].
    rewrite Htail. destruct nodes as [|y nodes]; [done|].
    change (List.last (y :: nodes) node
            = List.last (y :: nodes) (tail (state w))).
    apply last_default_irrelevant.
Qed.

End Enqueue.

(** C1.  No data loss under single-producer enqueue: starting from the
    queue that [main] builds (one blank sentinel node), enqueue any
    messages with [push_back]; then one call of [process], given more
    fuel than there are messages, returns 0, hands exactly those
    payloads to the MIDI buffer, in the order of the enqueues, and stores
    in [head] the node enqueued last (the sentinel when there was no
    message), which is also [tail]. *)
Theorem drain_emits_enqueued_in_order
    (A : Allocator) (uninit : addr → nat → Z) (NDEBUG : bool)
    (s0 : State) (msgs : list (list Z)) (fuel : nat) :
  alloc_total A →
  (length msgs < fuel)%nat →
  ∃ w0 nodes w w',
    main_init A uninit (boot s0) = Ok (tt, w0)
    ∧ enqueue_all A uninit NDEBUG msgs w0 = Ok (nodes, w)
    ∧ length nodes = length msgs
    ∧ process fuel true w = Ok ((0, msgs), w')
    ∧ head (state w') = List.last nodes (head (state w0))
    ∧ head (state w') = tail (state w')
    ∧ heap w' = heap w.
Proof.
  intros Htotal Hfuel.
  destruct (Htotal ∅ (sizeof_Node + 0)%nat) as [blank Hblank].
  destruct (main_init_ok A uninit s0 blank Hblank) as [Hinit HQ0].
  destruct (enqueue_all_ok A uninit NDEBUG msgs _ _ _ Htotal HQ0)
    as (nodes & w & Hrun & Hlen & HQ & Hp & Hport & Hhead & Htail).
  destruct (process_ok w _ _ fuel HQ) as [Hdrain _].
  { by rewrite Hport. }
  { simpl. lia. }
  eexists _, nodes, w, _. split; [exact Hinit|]. split; [exact Hrun|].
  split; [done|]. rewrite Hdrain, Hp. simpl. done.
Qed.

Lemma bump_allocator_total : alloc_total bump_allocator.
Proof. intros h n. by eexists. Qed.

Lemma drain_emits_enqueued_in_order_witness :
  ∃ w0 nodes w w',
    main_init bump_allocator (λ _ _, 0) (boot (mkState false 1 1 1)%positive)
    = Ok (tt, w0)
    ∧ enqueue_all bump_allocator (λ _ _, 0) true [[144; 64; 0]; []; [128; 64; 0]] w0
      = Ok (nodes, w)
    ∧ length nodes = 3%nat
    ∧ process 4 true w = Ok ((0, [[144; 64; 0]; []; [128; 64; 0]]), w')
    ∧ head (state w') = List.last nodes (head (state w0))
    ∧ head (state w') = tail (state w')
    ∧ heap w' = heap w.
Proof.
  apply (drain_emits_enqueued_in_order bump_allocator (λ _ _, 0) true
           (mkState false 1 1 1)%positive [[144; 64; 0]; []; [128; 64; 0]] 4).
  - exact bump_allocator_total.
  - simpl. lia.
Defined.

(** ** What [handle_line] does to the queue *)

Section HandleLineQueue.

Variable A : Allocator.
Variable uninit : addr → nat → Z.
Variable NDEBUG : bool.

Lemma Queue_reclaimed w retired live e :
  Queue w retired live →
  let w' := mkWorld (heap (reclaimed w retired)) (state (reclaimed w retired)) e in
  Queue w' [] live ∧ pending w' live = pending w live.
Proof.
  intros HQ w'. destruct (free_excess_ok NDEBUG _ _ _ HQ) as (_ & HQ1 & Hp1).
  destruct (Queue_ext _ w' [] live (λ _ _, eq_refl) eq_refl eq_refl eq_refl HQ1)
    as [HQ2 Hp2].
  split; [exact HQ2|]. etrans; [exact Hp2 | exact Hp1].
Qed.

Lemma reclaimed_keeps_live w retired live x :
  Queue w retired live → x ∈ live →
  free_all retired (heap w) !! x = heap w !! x.
Proof.
  intros (_ & _ & _ & Hnd) Hx. rewrite free_all_lookup.
  rewrite decide_False; [done|]. intros Hr.
  apply NoDup_app in Hnd as (_ & Hdisj & _). by apply (Hdisj _ Hr).
Qed.

Lemma decode_bytes_whole line msg :
  Forall hex_digit line → Nat.even (length line) = true →
  length msg = (length line / 2)%nat →
  (decode_bytes 0 line msg).1 = decode_line line.
Proof.
  intros Hall Heven Hlen.
  pose proof (decode_bytes_pairs line 0 msg Hall Heven) as Hd.
  change (2 * 0)%nat with 0%nat in Hd. rewrite Nat.add_0_l in Hd.
  rewrite Hd by (by rewrite Hlen).
  rewrite take_0, drop_ge by (by rewrite Hlen). by rewrite app_nil_r.
Qed.

(** A line of an even number of hex digits is enqueued as the message
    it denotes. *)
Lemma handle_line_valid w retired live line node :
  Queue w retired live →
  Nat.even (length line) = true →
  Forall hex_digit line →
  malloc A (free_all retired (heap w)) (sizeof_Node + length line / 2) = Some node →
  ∃ w', handle_line A uninit NDEBUG line w = Ok (tt, w')
    ∧ Queue w' [] (live ++ [node])
    ∧ pending w' (live ++ [node]) = pending w live ++ [decode_line line]
    ∧ state w' = mkState (port (state w)) (head (state w)) (head (state w)) node
    ∧ stderr w' = stderr w.
Proof.
  intros HQ Heven Hall Hm.
  rewrite (handle_line_decoded A uninit NDEBUG w retired live line node HQ Heven Hm).
  rewrite decode_bytes_valid by done.
  rewrite decode_bytes_whole by (done || by rewrite length_map, length_seq).
  rewrite bool_decide_eq_true_2 by done. simpl decode_diag. rewrite app_nil_r.
  destruct (Queue_reclaimed w retired live (stderr w) HQ) as [HQ1 Hp1].
  pose proof (malloc_fresh A _ _ _ Hm) as Hfresh.
  destruct (Queue_alloc _ [] live node (mkNode None (decode_line line)) HQ1 Hfresh)
    as (HQ2 & Hp2 & Hnot).
  pose proof HQ2 as (_ & Hlive & Hlast & _).
  destruct (lseg_last _ _ _ _ Hlive Hlast) as (nt & Ht & _).
  destruct (Queue_push _ _ _ node (decode_line line) nt HQ2) as [HQ3 Hp3];
    try done.
  { simpl. apply lookup_insert_eq. }
  eexists. split; [|split; [exact HQ3|split; [by rewrite Hp3, Hp2, Hp1|done]]].
  eapply push_back_ok; [|exact Ht]. simpl. apply lookup_insert_eq.
Qed.

(** A line of even length with a character that is no hex digit: the
    character is reported, the node allocated for the line is left
    behind, and the queue is as [free_excess] left it. *)
Lemma handle_line_invalid w retired live line node :
  Queue w retired live →
  Nat.even (length line) = true →
  ¬ Forall hex_digit line →
  malloc A (free_all retired (heap w)) (sizeof_Node + length line / 2) = Some node →
  ∃ w' c nd, handle_line A uninit NDEBUG line w = Ok (tt, w')
    ∧ c ∈ line ∧ hex_to_int c = -1
    ∧ stderr w' = stderr w ++ [InvalidHexDigit c]
    ∧ state w' = state (reclaimed w retired)
    ∧ heap w' = <[node := nd]> (free_all retired (heap w))
    ∧ Queue w' [] live
    ∧ pending w' live = pending w live
    ∧ node ∉ live.
Proof.
  intros HQ Heven Hbad Hm.
  rewrite (handle_line_decoded A uninit NDEBUG w retired live line node HQ Heven Hm).
  destruct (decode_bytes_invalid 0 line
              (map (uninit node) (seq 0 (length line / 2))) Hbad)
    as (c & Hc & Hin & Hhex).
  rewrite Hc. rewrite bool_decide_eq_false_2 by done.
  destruct (Queue_reclaimed w retired live (stderr w ++ decode_diag (Some c)) HQ)
    as [HQ1 Hp1].
  pose proof (malloc_fresh A _ _ _ Hm) as Hfresh.
  destruct (Queue_alloc _ [] live node
              (mkNode None (decode_bytes 0 line
                 (map (uninit node) (seq 0 (length line / 2)))).1) HQ1 Hfresh)
    as (HQ2 & Hp2 & Hnot).
  eexists _, c, _. split; [done|]. simpl.
  do 5 (split; [done|]). split; [exact HQ2|].
  split; [etrans; [exact Hp2 | exact Hp1]|].
  intros Hin'. apply Hnot. by apply elem_of_app; right.
Qed.

End HandleLineQueue.

(** ** Every sequence of calls keeps the queue well shaped *)

Section Calls.

Variable A : Allocator.
Variable uninit : addr → nat → Z.
Variable NDEBUG : bool.

Lemma process_keeps_queue w retired live buffer :
  Queue w retired live →
  ∃ r w' retired' live',
    process (S (size (heap w))) buffer w = Ok (r, w')
    ∧ Queue w' retired' live'.
Proof.
  intros HQ. destruct (port (state w)) eqn:Hport; [destruct buffer|].
  - destruct (process_ok w retired live (S (size (heap w))) HQ Hport)
      as [Hrun HQ'].
    { pose proof (Queue_size _ _ _ HQ) as Hsize.
      rewrite length_app in Hsize. lia. }
    eauto 10.
  - exists (-1, []), w, retired, live. split; [|done].
    unfold process, get_state, mbind, M_bind. by rewrite Hport.
  - exists (0, []), w, retired, live. split; [|done].
    unfold process, get_state, mbind, M_bind. by rewrite Hport.
Qed.

Lemma exec_keeps_queue c w retired live :
  Queue w retired live →
  exec A uninit NDEBUG c w = Stop Aborted
  ∨ ∃ w' retired' live',
      exec A uninit NDEBUG c w = Ok (tt, w') ∧ Queue w' retired' live'.
Proof.
  intros HQ. destruct c as [m|line|buffer|]; simpl exec.
  - destruct (malloc A (heap w) (sizeof_Node + length m)) as [node|] eqn:Hm.
    + destruct (enqueue_ok A uninit NDEBUG _ _ _ _ _ HQ Hm)
        as (w' & Hrun & HQ' & _).
      right. exists w', retired, (live ++ [node]).
      by rewrite (bind_ok _ _ _ _ _ Hrun).
    + left. unfold enqueue.
      erewrite bind_stop; [done|]. erewrite bind_stop; [done|].
      by apply node_new_abort.
  - destruct (Nat.even (length line)) eqn:Heven.
    + destruct (malloc A (free_all retired (heap w))
                  (sizeof_Node + length line / 2)) as [node|] eqn:Hm.
      * destruct (decide (Forall hex_digit line)) as [Hall|Hbad].
        -- destruct (handle_line_valid A uninit NDEBUG _ _ _ _ _ HQ Heven Hall Hm)
             as (w' & Hrun & HQ' & _).
           right. eauto.
        -- destruct (handle_line_invalid A uninit NDEBUG _ _ _ _ _ HQ Heven Hbad Hm)
             as (w' & c & nd & Hrun & _ & _ & _ & _ & _ & HQ' & _).
           right. eauto.
      * left. by eapply handle_line_abort.
    + right. rewrite (handle_line_odd A uninit NDEBUG _ _ _ _ HQ Heven).
      destruct (Queue_reclaimed NDEBUG w retired live
                  (stderr w ++ [BadMessageLength]) HQ) as [HQ' _].
      eauto.
  - destruct (process_keeps_queue w retired live buffer HQ)
      as (r & w' & retired' & live' & Hrun & HQ').
    right. exists w', retired', live'. split; [|done].
    unfold get_heap, mbind at 1, M_bind at 1.
    by rewrite (bind_ok _ _ _ _ _ Hrun).
  - destruct (free_excess_ok NDEBUG _ _ _ HQ) as (Hrun & HQ' & _).
    right. eauto.
Qed.

Lemma exec_all_keeps_queue cs : ∀ w retired live,
  Queue w retired live →
  exec_all A uninit NDEBUG cs w = Stop Aborted
  ∨ ∃ w' retired' live',
      exec_all A uninit NDEBUG cs w = Ok (tt, w') ∧ Queue w' retired' live'.
Proof.
  induction cs as [|c cs IH]; intros w retired live HQ.
  - right. by exists w, retired, live.
  - change (exec_all A uninit NDEBUG (c :: cs))
      with (exec A uninit NDEBUG c;; exec_all A uninit NDEBUG cs).
    destruct (exec_keeps_queue c w retired live HQ)
      as [Habort | (w1 & retired1 & live1 & Hrun & HQ1)].
    + left. by rewrite (bind_stop _ _ _ _ Habort).
    + rewrite (bind_ok _ _ _ _ _ Hrun). by eapply IH.
Qed.

End Calls.

(** C2.  Reclamation safety.  Run [main]'s initialisation and then any
    sequence of enqueue, [handle_line], drain and reclaim calls.  Unless
    [malloc] failed on the way (the program has aborted), the queue is
    well shaped, and a run of [free_excess] then succeeds, frees exactly
    the nodes from [malloc_head] up to but not including [head], sets
    [malloc_head] to [head], and leaves every node that can be reached
    from [head] allocated and unchanged: no freed node is reachable
    from [head]. *)
Theorem free_excess_frees_only_retired
    (A : Allocator) (uninit : addr → nat → Z) (NDEBUG : bool)
    (s0 : State) (calls : list call) :
  let run := (main_init A uninit;; exec_all A uninit NDEBUG calls) (boot s0) in
  run = Stop Aborted
  ∨ ∃ w retired live w',
      run = Ok (tt, w)
      ∧ Queue w retired live
      ∧ free_excess NDEBUG w = Ok (tt, w')
      ∧ heap w' = free_all retired (heap w)
      ∧ state w' = mkState (port (state w)) (head (state w))
                           (head (state w)) (tail (state w))
      ∧ (∀ a, a ∈ retired →
              is_Some (heap w !! a) ∧ heap w' !! a = None
              ∧ ¬ reachable (heap w) (head (state w)) a)
      ∧ (∀ a, reachable (heap w) (head (state w)) a →
              is_Some (heap w !! a) ∧ heap w' !! a = heap w !! a).
Proof.
  intros run. subst run.
  destruct (malloc A ∅ (sizeof_Node + 0)) as [blank|] eqn:Hm.
  - destruct (main_init_ok A uninit s0 blank Hm) as [Hinit HQ0].
    rewrite (bind_ok _ _ _ _ _ Hinit).
    destruct (exec_all_keeps_queue A uninit NDEBUG calls _ _ _ HQ0)
      as [Habort | (w & retired & live & Hrun & HQ)]; [by left|].
    right. destruct (free_excess_ok NDEBUG _ _ _ HQ) as (Hfree & _ & _).
    pose proof HQ as (Hret & Hlive & _ & Hnd).
    apply NoDup_app in Hnd as (_ & Hdisj & _).
    eexists w, retired, live, _. split; [exact Hrun|]. split; [exact HQ|].
    split; [exact Hfree|]. split; [done|]. split; [done|]. simpl. split.
    + intros a Ha. split; [|split].
      * eapply lseg_allocated; [exact Hret | done].
      * rewrite free_all_lookup. by rewrite decide_True.
      * intros Hreach. apply (Hdisj _ Ha).
        eapply reachable_lseg; [exact Hlive | exact Hreach].
    + intros a Hreach.
      pose proof (reachable_lseg _ _ _ _ Hlive Hreach) as Ha. split.
      * eapply lseg_allocated; [exact Hlive | done].
      * by eapply reclaimed_keeps_live.
  - left. unfold main_init, node_blank.
    erewrite bind_stop; [done|]. erewrite bind_stop; [done|].
    by apply node_new_abort.
Qed.

(** ** The byte loop *)

Section ByteLoop.

Context {S : Type}.
Variable capacity : nat.
Variable resync : bool.
Variable handler : list Z → S → outcome S.

#[local] Abbreviation on_byte := (EventLoop.on_byte capacity resync handler).
#[local] Abbreviation on_bytes := (EventLoop.on_bytes capacity resync handler).

#[local] Abbreviation plain := (EventLoop.plain resync).

Lemma on_bytes_cons b buf ls :
  on_bytes (b :: buf) ls
  = match on_byte b ls with
    | Ok ls' => on_bytes buf ls'
    | Stop e => Stop e
    end.
Proof. done. Qed.

Lemma on_bytes_app buf1 buf2 ls :
  on_bytes (buf1 ++ buf2) ls
  = match on_bytes buf1 ls with
    | Ok ls' => on_bytes buf2 ls'
    | Stop e => Stop e
    end.
Proof.
  revert ls. induction buf1 as [|b buf1 IH]; intros ls; [done|].
  rewrite <- app_comm_cons, !on_bytes_cons.
  destruct (on_byte b ls); [apply IH | done].
Qed.

Lemma on_byte_plain b line s :
  plain b →
  on_byte b (line, s)
  = Ok (if (length line <? capacity - 1)%nat then line ++ [b] else line, s).
Proof.
  intros [Hlf Hx]. unfold EventLoop.on_byte.
  destruct (Z.eqb_spec b EventLoop.char_LF); [done|].
  destruct resync; simpl.
  - destruct (Z.eqb_spec b EventLoop.char_X); [by destruct Hx|].
    by destruct (length line <? capacity - 1)%nat.
  - by destruct (length line <? capacity - 1)%nat.
Qed.

(** Plain bytes are appended while there is room, and dropped after. *)
Lemma on_bytes_plain buf line s :
  Forall plain buf →
  on_bytes buf (line, s)
  = Ok (line ++ take (capacity - 1 - length line) buf, s).
Proof.
  intros Hbuf. revert line.
  induction Hbuf as [|b buf Hb _ IH]; intros line.
  - simpl. by rewrite take_nil, app_nil_r.
  - rewrite on_bytes_cons, (on_byte_plain _ _ _ Hb).
    destruct (Nat.ltb_spec (length line) (capacity - 1)) as [Hlt|Hge].
    + rewrite IH. rewrite length_app. simpl.
      replace (capacity - 1 - length line)%nat
        with (Datatypes.S (capacity - 1 - (length line + 1)))%nat by lia.
      simpl. by rewrite <- app_assoc.
    + rewrite IH.
      replace (capacity - 1 - length line)%nat with 0%nat by lia. done.
Qed.

Lemma on_byte_LF line s :
  on_byte EventLoop.char_LF (line, s)
  = match handler line s with
    | Ok s' => Ok ([], s')
    | Stop e => Stop e
    end.
Proof. unfold EventLoop.on_byte. by destruct resync. Qed.

Lemma on_byte_X line s :
  resync = true → on_byte EventLoop.char_X (line, s) = Ok ([], s).
Proof. intros ->. done. Qed.

(** A whole line, from an empty buffer: the handler receives what fits. *)
Lemma on_bytes_line buf s :
  Forall plain buf →
  on_bytes (buf ++ [EventLoop.char_LF]) ([], s)
  = match handler (take (capacity - 1) buf) s with
    | Ok s' => Ok ([], s')
    | Stop e => Stop e
    end.
Proof.
  intros Hbuf. rewrite on_bytes_app, (on_bytes_plain _ _ _ Hbuf).
  rewrite on_bytes_cons, on_byte_LF. simpl.
  rewrite Nat.sub_0_r. by destruct (handler _ s).
Qed.


End ByteLoop.

(** ** The decoder against the protocol *)

Lemma decode_bytes_first_bad line : ∀ i msg,
  (decode_bytes i line msg).2 = first_bad line.
Proof.
  induction line as [|c line IH]; intros i msg; [done|].
  rewrite decode_bytes_cons. simpl.
  destruct (hex_to_int c =? -1); [done | apply IH].
Qed.

Lemma first_bad_None line : first_bad line = None ↔ Forall hex_digit line.
Proof.
  induction line as [|c line IH]; simpl; [done|].
  destruct (Z.eqb_spec (hex_to_int c) (-1)) as [Hc|Hc].
  - split; [done|]. by intros [? _]%Forall_cons.
  - rewrite IH. split; [by constructor | by intros [_ ?]%Forall_cons].
Qed.

Lemma first_bad_Some line c :
  first_bad line = Some c → c ∈ line ∧ hex_to_int c = -1.
Proof.
  induction line as [|c' line IH]; simpl; [done|].
  destruct (Z.eqb_spec (hex_to_int c') (-1)) as [Hc|Hc].
  - intros [= <-]. split; [by left | done].
  - intros [Hin ?]%IH. split; [by right | done].
Qed.

Section Verdict.

Variable A : Allocator.
Variable uninit : addr → nat → Z.
Variable NDEBUG : bool.

(** [handle_line] implements [line_verdict]: it reclaims the retired
    nodes, prints the verdict's diagnostic and enqueues the verdict's
    message; the nodes of the queue are left as they were. *)
Lemma handle_line_verdict w retired live line :
  Queue w retired live →
  alloc_total A →
  ∃ w' live',
    handle_line A uninit NDEBUG line w = Ok (tt, w')
    ∧ Queue w' [] (live ++ live')
    ∧ length live' = length (verdict_messages (line_verdict line))
    ∧ pending w' (live ++ live')
      = pending w live ++ verdict_messages (line_verdict line)
    ∧ stderr w' = stderr w ++ verdict_diag (line_verdict line)
    ∧ port (state w') = port (state w)
    ∧ malloc_head (state w') = head (state w)
    ∧ head (state w') = head (state w)
    ∧ tail (state w') = List.last live' (tail (state w))
    ∧ (∀ x, x ∈ live → x ≠ tail (state w) → heap w' !! x = heap w !! x)
    ∧ (live' = [] → heap w' !! tail (state w) = heap w !! tail (state w)).
Proof.
  intros HQ Htotal. unfold line_verdict.
  destruct (Nat.even (length line)) eqn:Heven.
  - destruct (Htotal (free_all retired (heap w))
                (sizeof_Node + length line / 2)%nat) as [node Hm].
    destruct (first_bad line) as [c|] eqn:Hbad.
    + assert (¬ Forall hex_digit line) as Hnot.
      { intros Hall%first_bad_None. by rewrite Hall in Hbad. }
      rewrite (handle_line_decoded A uninit NDEBUG w retired live line node
                 HQ Heven Hm).
      rewrite decode_bytes_first_bad, Hbad.
      rewrite bool_decide_eq_false_2 by done.
      destruct (Queue_reclaimed NDEBUG w retired live
                  (stderr w ++ decode_diag (Some c)) HQ) as [HQ1 Hp1].
      pose proof (malloc_fresh A _ _ _ Hm) as Hfresh.
      destruct (Queue_alloc _ [] live node
                  (mkNode None (decode_bytes 0 line
                     (map (uninit node) (seq 0 (length line / 2)))).1)
                  HQ1 Hfresh) as (HQ2 & Hp2 & Hnot').
      eexists _, []. rewrite !app_nil_r. split; [done|]. split; [exact HQ2|].
      split; [done|]. split; [etrans; [exact Hp2 | exact Hp1]|]. simpl.
      do 5 (split; [done|]).
      assert (∀ x, x ∈ live →
                <[node := mkNode None (decode_bytes 0 line
                     (map (uninit node) (seq 0 (length line / 2)))).1]>
                  (free_all retired (heap w)) !! x = heap w !! x) as Hkeep.
      { intros x Hx. rewrite lookup_insert_ne by (by intros <-).
        by eapply reclaimed_keeps_live. }
      split; [by intros x Hx _; apply Hkeep|].
      intros _. apply Hkeep. apply last_Some_elem_of, HQ.
    + apply first_bad_None in Hbad.
      destruct (handle_line_valid A uninit NDEBUG _ _ _ _ _ HQ Heven Hbad Hm)
        as (w' & Hrun & HQ' & Hp' & Hs' & He').
      pose proof (handle_line_decoded A uninit NDEBUG w retired live line node
                    HQ Heven Hm) as Hdec.
      cbv zeta in Hdec. rewrite decode_bytes_valid in Hdec by done.
      rewrite decode_bytes_whole in Hdec
        by (done || by rewrite length_map, length_seq).
      rewrite bool_decide_eq_true_2 in Hdec by done. simpl in Hdec.
      rewrite app_nil_r in Hdec. rewrite Hrun in Hdec.
      exists w', [node]. split; [done|]. split; [done|]. split; [done|].
      split; [done|]. rewrite He', Hs', app_nil_r. simpl.
      do 5 (split; [done|]).
      destruct (Queue_reclaimed NDEBUG w retired live (stderr w) HQ) as [HQ1 _].
      pose proof (malloc_fresh A _ _ _ Hm) as Hfresh.
      destruct (Queue_alloc _ [] live node (mkNode None (decode_line line))
                  HQ1 Hfresh) as (HQ2 & _ & Hnot).
      pose proof HQ2 as (_ & Hlive & Hlast & _).
      destruct (lseg_last _ _ _ _ Hlive Hlast) as (nt & Ht & _).
      erewrite push_back_ok in Hdec; [|simpl; apply lookup_insert_eq|exact Ht].
      injection Hdec as ->. simpl. split; [|done].
      intros x Hx Hne. rewrite lookup_insert_ne by done.
      rewrite lookup_insert_ne.
      * by eapply reclaimed_keeps_live.
      * intros <-. apply Hnot. by apply elem_of_app; right.
  - rewrite (handle_line_odd A uninit NDEBUG _ _ _ _ HQ Heven).
    destruct (Queue_reclaimed NDEBUG w retired live
                (stderr w ++ [BadMessageLength]) HQ) as [HQ' Hp'].
    eexists _, []. rewrite !app_nil_r. split; [done|]. split; [exact HQ'|].
    split; [done|]. split; [exact Hp'|]. simpl. do 5 (split; [done|]).
    split.
    + intros x Hx _. by eapply reclaimed_keeps_live.
    + intros _. eapply reclaimed_keeps_live; [exact HQ|].
      apply last_Some_elem_of, HQ.
Qed.

End Verdict.

Lemma Queue_initial blank : Queue (initial_world blank) [] [blank].
Proof.
  split; [done|]. split; [|split; [done | apply NoDup_singleton]].
  split; [done|]. eexists. split; [apply lookup_singleton_eq | done].
Qed.

Lemma line_verdict_odd line :
  Nat.even (length line) = false → line_verdict line = BadLength.
Proof. intros H. unfold line_verdict. by rewrite H. Qed.

Lemma line_verdict_bad_digit line :
  Nat.even (length line) = true → ¬ Forall hex_digit line →
  ∃ c, line_verdict line = BadDigit c ∧ c ∈ line ∧ ¬ hex_digit c.
Proof.
  intros Heven Hbad. unfold line_verdict. rewrite Heven.
  destruct (first_bad line) as [c|] eqn:Hc.
  - apply first_bad_Some in Hc as [Hin Hhex]. exists c.
    split; [done|]. split; [done|]. intros Hd. by apply Hd.
  - by apply first_bad_None in Hc.
Qed.

Lemma line_verdict_message line :
  Nat.even (length line) = true → Forall hex_digit line →
  line_verdict line = Message (decode_line line).
Proof.
  intros Heven Hall%first_bad_None. unfold line_verdict.
  by rewrite Heven, Hall.
Qed.

Lemma even_double n : Nat.even (2 * n) = true.
Proof. apply Nat.even_spec. by exists n. Qed.

Lemma line_verdict_encode buffer :
  Forall uchar buffer →
  line_verdict (flat_map MidiToStdin.encode_byte buffer) = Message buffer.
Proof.
  intros Hb. rewrite line_verdict_message.
  - by rewrite decode_line_encode.
  - rewrite encode_length. apply even_double.
  - by apply encode_hex_digits.
Qed.

Lemma hex_digit_plain c : hex_digit c → EventLoop.plain true c.
Proof.
  intros Hc. split; [|intros _]; intros ->; by apply Hc.
Qed.

Section Codec.

Variable A : Allocator.
Variable uninit : addr → nat → Z.
Variable NDEBUG : bool.

Lemma handle_line_to_upper line w :
  Forall hex_digit line →
  handle_line A uninit NDEBUG (map to_upper line) w
  = handle_line A uninit NDEBUG line w.
Proof.
  intros Hall. unfold handle_line. cbv zeta. rewrite length_map.
  unfold mbind at 1 4, M_bind at 1 4.
  destruct (free_excess NDEBUG w) as [[[] w1]|e]; [|done].
  destruct (negb _); [done|].
  unfold mbind at 1 3, M_bind at 1 3.
  destruct (node_new A uninit _ None w1) as [[node w2]|e]; [|done].
  unfold mbind, M_bind. by rewrite decode_loop_to_upper.
Qed.

End Codec.

(** C4.  Round trip of the hex codec.  The encoder writes two hex digits
    per byte and then one line feed (a bare line feed for an empty
    message); [handle_line] turns the digits back into the bytes and
    enqueues exactly them, reporting nothing, and so does the loop of
    [main] on the encoder's output when the message has at most 511
    bytes (the line then fits the line buffer); upper-case digits decode
    as lower-case ones do; and a line with an odd number of characters
    is reported as [BadMessageLength] and enqueues nothing. *)
Theorem hex_round_trip
    (A : Allocator) (uninit : addr → nat → Z) (NDEBUG : bool)
    (w : World) (retired live : list addr) (buffer : list Z) :
  Queue w retired live →
  alloc_total A →
  Forall uchar buffer →
  let line := flat_map MidiToStdin.encode_byte buffer in
  MidiToStdin.encode_event buffer = line ++ [EventLoop.char_LF]
  ∧ length line = (2 * length buffer)%nat
  ∧ MidiToStdin.encode_event [] = [EventLoop.char_LF]
  ∧ decode_line line = buffer
  ∧ (∃ w' node,
       handle_line A uninit NDEBUG line w = Ok (tt, w')
       ∧ Queue w' [] (live ++ [node])
       ∧ pending w' (live ++ [node]) = pending w live ++ [buffer]
       ∧ stderr w' = stderr w
       ∧ ((length buffer ≤ 511)%nat →
          main_on_bytes A uninit NDEBUG (MidiToStdin.encode_event buffer) ([], w)
          = Ok ([], w')))
  ∧ (∀ c, hex_to_int (to_upper c) = hex_to_int c)
  ∧ handle_line A uninit NDEBUG (map to_upper line) w
    = handle_line A uninit NDEBUG line w
  ∧ (∀ odd, Nat.even (length odd) = false →
       ∃ w', handle_line A uninit NDEBUG odd w = Ok (tt, w')
         ∧ stderr w' = stderr w ++ [BadMessageLength]
         ∧ Queue w' [] live
         ∧ pending w' live = pending w live).
Proof.
  intros HQ Htotal Hbuf line.
  split; [done|]. split; [apply encode_length|]. split; [done|].
  split; [by apply decode_line_encode|]. split; [|split; [|split]].
  - destruct (handle_line_verdict A uninit NDEBUG w retired live line HQ Htotal)
      as (w' & live' & Hrun & HQ' & Hlen & Hp & He & _).
    subst line. rewrite line_verdict_encode in * by done. simpl in *.
    destruct live' as [|node [|? ?]]; try done.
    exists w', node. rewrite app_nil_r in He. do 4 (split; [done|]).
    intros Hlen'. unfold main_on_bytes, MidiToStdin.encode_event.
    rewrite on_bytes_line.
    + rewrite take_ge by (rewrite encode_length; lia).
      unfold line_handler. by rewrite Hrun.
    + eapply Forall_impl; [by apply encode_hex_digits|].
      apply hex_digit_plain.
  - apply hex_to_int_to_upper.
  - apply handle_line_to_upper. by apply encode_hex_digits.
  - intros odd Hodd.
    destruct (handle_line_verdict A uninit NDEBUG w retired live odd HQ Htotal)
      as (w' & live' & Hrun & HQ' & Hlen & Hp & He & _).
    rewrite line_verdict_odd in * by done. simpl in *.
    destruct live'; [|done]. rewrite !app_nil_r in *. by exists w'.
Qed.

Lemma hex_round_trip_witness :
  let line := flat_map MidiToStdin.encode_byte [144; 64; 0; 255] in
  MidiToStdin.encode_event [144; 64; 0; 255] = line ++ [EventLoop.char_LF]
  ∧ length line = (2 * length [144; 64; 0; 255])%nat
  ∧ MidiToStdin.encode_event [] = [EventLoop.char_LF]
  ∧ decode_line line = [144; 64; 0; 255]
  ∧ (∃ w' node,
       handle_line bump_allocator (λ _ _, 0) true line (initial_world 1%positive)
       = Ok (tt, w')
       ∧ Queue w' [] ([1%positive] ++ [node])
       ∧ pending w' ([1%positive] ++ [node])
         = pending (initial_world 1%positive) [1%positive] ++ [[144; 64; 0; 255]]
       ∧ stderr w' = stderr (initial_world 1%positive)
       ∧ ((length [144; 64; 0; 255] ≤ 511)%nat →
          main_on_bytes bump_allocator (λ _ _, 0) true
            (MidiToStdin.encode_event [144; 64; 0; 255])
            ([], initial_world 1%positive)
          = Ok ([], w')))
  ∧ (∀ c, hex_to_int (to_upper c) = hex_to_int c)
  ∧ handle_line bump_allocator (λ _ _, 0) true (map to_upper line)
      (initial_world 1%positive)
    = handle_line bump_allocator (λ _ _, 0) true line (initial_world 1%positive)
  ∧ (∀ odd, Nat.even (length odd) = false →
       ∃ w', handle_line bump_allocator (λ _ _, 0) true odd (initial_world 1%positive)
             = Ok (tt, w')
         ∧ stderr w' = stderr (initial_world 1%positive) ++ [BadMessageLength]
         ∧ Queue w' [] [1%positive]
         ∧ pending w' [1%positive] = pending (initial_world 1%positive) [1%positive]).
Proof.
  apply (hex_round_trip bump_allocator (λ _ _, 0) true (initial_world 1%positive)
           [] [1%positive] [144; 64; 0; 255]).
  - apply Queue_initial.
  - exact bump_allocator_total.
  - repeat constructor; unfold uchar; lia.
Defined.

(** C9.  A character that is no hex digit, in a line of even length:
    [handle_line] reports it and returns without calling [push_back].
    [head] and [tail] are as before, every node that could be reached
    from [head] is as before (same link, same payload) and the same
    nodes can be reached, while the node allocated for the line stays
    allocated outside the queue. *)
Theorem invalid_hex_leaves_queue_unchanged
    (A : Allocator) (uninit : addr → nat → Z) (NDEBUG : bool)
    (w : World) (retired live : list addr) (line : list Z) :
  Queue w retired live →
  alloc_total A →
  Nat.even (length line) = true →
  ¬ Forall hex_digit line →
  ∃ w' c node nd,
    handle_line A uninit NDEBUG line w = Ok (tt, w')
    ∧ stderr w' = stderr w ++ [InvalidHexDigit c]
    ∧ head (state w') = head (state w)
    ∧ tail (state w') = tail (state w)
    ∧ (∀ x, reachable (heap w) (head (state w)) x →
            heap w' !! x = heap w !! x)
    ∧ (∀ x, reachable (heap w') (head (state w')) x
            ↔ reachable (heap w) (head (state w)) x)
    ∧ pending w' live = pending w live
    ∧ free_all retired (heap w) !! node = None
    ∧ heap w' !! node = Some nd
    ∧ ¬ reachable (heap w') (head (state w')) node.
Proof.
  intros HQ Htotal Heven Hbad.
  destruct (Htotal (free_all retired (heap w))
              (sizeof_Node + length line / 2)%nat) as [node Hm].
  destruct (handle_line_invalid A uninit NDEBUG _ _ _ _ _ HQ Heven Hbad Hm)
    as (w' & c & nd & Hrun & _ & _ & He & Hs & Hh & HQ' & Hp & Hnot).
  pose proof (malloc_fresh A _ _ _ Hm) as Hfresh.
  pose proof HQ as (_ & Hlive & _). pose proof HQ' as (_ & Hlive' & _).
  assert (∀ x, reachable (heap w') (head (state w')) x
               ↔ reachable (heap w) (head (state w)) x) as Hreach.
  { intros x. split; intros Hr.
    - eapply lseg_reachable; [exact Hlive|].
      eapply reachable_lseg; [exact Hlive' | exact Hr].
    - eapply lseg_reachable; [exact Hlive'|].
      eapply reachable_lseg; [exact Hlive | exact Hr]. }
  exists w', c, node, nd. rewrite Hs in *. simpl in *.
  do 4 (split; [done|]). split; [|split; [done|]].
  - intros x Hx%(reachable_lseg _ _ _ _ Hlive). rewrite Hh.
    rewrite lookup_insert_ne by (by intros <-).
    by eapply reclaimed_keeps_live.
  - split; [done|]. split; [done|].
    split; [by rewrite Hh, lookup_insert_eq|].
    intros Hr. apply Hnot. eapply reachable_lseg; [exact Hlive' | exact Hr].
Qed.

Lemma invalid_hex_leaves_queue_unchanged_witness :
  ∃ w' c node nd,
    handle_line bump_allocator (λ _ _, 0) true [49; 120] (initial_world 1%positive)
    = Ok (tt, w')
    ∧ stderr w' = stderr (initial_world 1%positive) ++ [InvalidHexDigit c]
    ∧ head (state w') = head (state (initial_world 1%positive))
    ∧ tail (state w') = tail (state (initial_world 1%positive))
    ∧ (∀ x, reachable (heap (initial_world 1%positive))
                      (head (state (initial_world 1%positive))) x →
            heap w' !! x = heap (initial_world 1%positive) !! x)
    ∧ (∀ x, reachable (heap w') (head (state w')) x
            ↔ reachable (heap (initial_world 1%positive))
                        (head (state (initial_world 1%positive))) x)
    ∧ pending w' [1%positive] = pending (initial_world 1%positive) [1%positive]
    ∧ free_all [] (heap (initial_world 1%positive)) !! node = None
    ∧ heap w' !! node = Some nd
    ∧ ¬ reachable (heap w') (head (state w')) node.
Proof.
  apply (invalid_hex_leaves_queue_unchanged bump_allocator (λ _ _, 0) true
           (initial_world 1%positive) [] [1%positive] [49; 120]).
  - apply Queue_initial.
  - exact bump_allocator_total.
  - done.
  - intros [_ [Hx _]%Forall_cons]%Forall_cons. by apply Hx.
Defined.

(** ** Lines through the loop of [main] *)

Section Stream.

Variable A : Allocator.
Variable uninit : addr → nat → Z.
Variable NDEBUG : bool.

(** The loop of [main] decodes a stream of encoded messages, each of at
    most 511 bytes, into exactly those messages. *)
Lemma main_on_bytes_encoded msgs : ∀ w retired live,
  Queue w retired live →
  alloc_total A →
  Forall (λ m, Forall uchar m ∧ (length m ≤ 511)%nat) msgs →
  ∃ w' retired' live',
    main_on_bytes A uninit NDEBUG
      (concat (map MidiToStdin.encode_event msgs)) ([], w)
    = Ok ([], w')
    ∧ Queue w' retired' live'
    ∧ pending w' live' = pending w live ++ msgs
    ∧ stderr w' = stderr w.
Proof.
  induction msgs as [|m msgs IH]; intros w retired live HQ Htotal Hmsgs.
  - exists w, retired, live. by rewrite app_nil_r.
  - apply Forall_cons in Hmsgs as [[Hm Hlen] Hmsgs].
    destruct (handle_line_verdict A uninit NDEBUG w retired live
                (flat_map MidiToStdin.encode_byte m) HQ Htotal)
      as (w1 & live1 & Hrun & HQ1 & _ & Hp1 & He1 & _).
    rewrite line_verdict_encode in * by done. simpl in Hp1, He1.
    rewrite app_nil_r in He1.
    destruct (IH _ _ _ HQ1 Htotal Hmsgs)
      as (w' & retired' & live' & Hrun' & HQ' & Hp' & He').
    exists w', retired', live'. split; [|split; [done|split]].
    + simpl. unfold main_on_bytes, MidiToStdin.encode_event in *.
      rewrite on_bytes_app, on_bytes_line.
      * rewrite take_ge by (rewrite encode_length; lia).
        unfold line_handler at 1. by rewrite Hrun.
      * eapply Forall_impl; [by apply encode_hex_digits|].
        apply hex_digit_plain.
    + by rewrite Hp', Hp1, <- app_assoc.
    + by rewrite He', He1.
Qed.

End Stream.

(** C8.  Lines longer than the line buffer.  From an empty buffer, a
    line of any length followed by its line feed makes the loop call the
    line handler exactly once, on the first [sizeof(line) - 1] bytes of
    the line (1023 in [jack-stdin-to-midi.c], 127 in [cv.c]); the bytes
    beyond are dropped and have no effect whatever: the loop returns
    what the handler returns on the truncated line and prints nothing
    of its own. *)
Theorem overlong_line_is_truncated
    (A : Allocator) (uninit : addr → nat → Z) (NDEBUG : bool)
    (strtof : list Z → Cv.strtof_result) (JACLI_CV_CLAMP : bool)
    (w : World) (cw : Cv.World) (buf : list Z) :
  Forall (λ b, b ≠ EventLoop.char_LF) buf →
  Cv.main_on_bytes strtof JACLI_CV_CLAMP (buf ++ [EventLoop.char_LF]) ([], cw)
  = Ok ([], Cv.handle_line strtof JACLI_CV_CLAMP (Cv.c_str (take 127 buf)) cw)
  ∧ length (take 127 buf) = (length buf `min` 127)%nat
  ∧ length (take 1023 buf) = (length buf `min` 1023)%nat
  ∧ (Forall (λ b, b ≠ EventLoop.char_X) buf →
     main_on_bytes A uninit NDEBUG (buf ++ [EventLoop.char_LF]) ([], w)
     = match handle_line A uninit NDEBUG (take 1023 buf) w with
       | Ok (_, w') => Ok ([], w')
       | Stop e => Stop e
       end).
Proof.
  intros Hlf. split; [|split; [|split]].
  - unfold Cv.main_on_bytes. rewrite on_bytes_line; [done|].
    eapply Forall_impl; [exact Hlf|]. intros b Hb. by split.
  - rewrite length_take. lia.
  - rewrite length_take. lia.
  - intros Hx. unfold main_on_bytes. rewrite on_bytes_line.
    + unfold line_handler.
      by destruct (handle_line A uninit NDEBUG (take _ buf) w) as [[[] ?]|].
    + apply Forall_forall. intros b Hb. split.
      * by apply (proj1 (Forall_forall _ _) Hlf).
      * intros _. by apply (proj1 (Forall_forall _ _) Hx).
Qed.

Lemma overlong_line_is_truncated_witness :
  let buf := repeat 49 1030 in
  Cv.main_on_bytes (λ _, Cv.mkStrtof Cv.float_zero (Some O) 0) true
    (buf ++ [EventLoop.char_LF]) ([], Cv.main_init)
  = Ok ([], Cv.handle_line (λ _, Cv.mkStrtof Cv.float_zero (Some O) 0) true
              (Cv.c_str (take 127 buf)) Cv.main_init)
  ∧ length (take 127 buf) = (length buf `min` 127)%nat
  ∧ length (take 1023 buf) = (length buf `min` 1023)%nat
  ∧ (Forall (λ b, b ≠ EventLoop.char_X) buf →
     main_on_bytes bump_allocator (λ _ _, 0) true (buf ++ [EventLoop.char_LF])
       ([], initial_world 1%positive)
     = match handle_line bump_allocator (λ _ _, 0) true (take 1023 buf)
               (initial_world 1%positive) with
       | Ok (_, w') => Ok ([], w')
       | Stop e => Stop e
       end).
Proof.
  apply (overlong_line_is_truncated bump_allocator (λ _ _, 0) true
           (λ _, Cv.mkStrtof Cv.float_zero (Some O) 0) true
           (initial_world 1%positive) Cv.main_init (repeat 49 1030)).
  apply Forall_forall. intros b Hb%list_elem_of_In%repeat_spec. by subst b.
Defined.

(** X7.  A message of more than 511 bytes cannot pass.  In
    [jack-stdin-to-midi.c] a line of more than 1023 characters is cut to
    1023, an odd number: whatever it holds, the handler reports its
    length, nothing is enqueued and the queue is as it was. *)
Lemma overlong_midi_line_rejected
    (A : Allocator) (uninit : addr → nat → Z) (NDEBUG : bool)
    (w : World) (retired live : list addr) (buf : list Z) :
  Queue w retired live →
  Forall (EventLoop.plain true) buf →
  (1023 < length buf)%nat →
  ∃ w', main_on_bytes A uninit NDEBUG (buf ++ [EventLoop.char_LF]) ([], w)
        = Ok ([], w')
    ∧ stderr w' = stderr w ++ [BadMessageLength]
    ∧ Queue w' [] live
    ∧ pending w' live = pending w live.
Proof.
  intros HQ Hplain Hlen. unfold main_on_bytes.
  rewrite on_bytes_line by done. unfold line_handler.
  rewrite (handle_line_odd A uninit NDEBUG w retired live _ HQ).
  - destruct (Queue_reclaimed NDEBUG w retired live
                (stderr w ++ [BadMessageLength]) HQ) as [HQ' Hp'].
    eexists. split; [done|]. done.
  - rewrite length_take, Nat.min_l by lia. done.
Qed.

(** ** The outer loop *)

Section Wake.

Context {S : Type}.
Variable capacity : nat.
Variable resync : bool.
Variable handler : list Z → S → outcome S.

#[local] Abbreviation on_bytes := (EventLoop.on_bytes capacity resync handler).
#[local] Abbreviation read_loop := (EventLoop.read_loop capacity resync handler).
#[local] Abbreviation wake := (EventLoop.wake capacity resync handler).
#[local] Abbreviation run := (EventLoop.run capacity resync handler).

Lemma read_loop_chunks chunks rs (ls : EventLoop.LoopState S) :
  read_loop (map EventLoop.ReadBytes chunks ++ rs) ls
  = match on_bytes (concat chunks) (EventLoop.line ls, EventLoop.user ls) with
    | Ok (l, s) => read_loop rs (EventLoop.mkLoopState (EventLoop.stdin_fd ls) l s)
    | Stop e => Stop e
    end.
Proof.
  revert ls. induction chunks as [|buf chunks IH]; intros ls.
  - simpl. by destruct ls.
  - simpl. rewrite on_bytes_app.
    destruct (on_bytes buf _) as [[l s]|e]; [|done]. by rewrite IH.
Qed.

(** The signal pipe is looked at before standard input is read. *)
Lemma wake_shutdown k (ls : EventLoop.LoopState S) :
  0 < EventLoop.poll_status k →
  EventLoop.revents0 k ≠ 0 →
  ∃ code, wake k ls = Ok (EventLoop.Exit code ls).
Proof.
  intros Hst Hrev. unfold EventLoop.wake.
  destruct (Z.ltb_spec 0 (EventLoop.poll_status k)); [|lia].
  destruct (negb _ || negb _); [by eexists|].
  destruct (Z.eqb_spec (EventLoop.revents0 k) 0); [done|]. by eexists.
Qed.

Lemma wake_shutdown_success k (ls : EventLoop.LoopState S) :
  0 < EventLoop.poll_status k →
  EventLoop.revents0 k ≠ 0 →
  Z.land (EventLoop.revents0 k) EventLoop.POLLNVAL = 0 →
  Z.land (EventLoop.revents1 k) EventLoop.POLLNVAL = 0 →
  wake k ls = Ok (EventLoop.Exit EventLoop.EXIT_SUCCESS ls).
Proof.
  intros Hst Hrev Hn0 Hn1. unfold EventLoop.wake.
  destruct (Z.ltb_spec 0 (EventLoop.poll_status k)); [|lia].
  rewrite Hn0. destruct (EventLoop.stdin_fd ls <? 0); simpl.
  all: try rewrite Hn1; simpl.
  all: by destruct (Z.eqb_spec (EventLoop.revents0 k) 0).
Qed.

(** End of file: the descriptor leaves the poll set, the loop goes on. *)
Lemma wake_eof k (ls : EventLoop.LoopState S) chunks rs :
  0 < EventLoop.poll_status k →
  EventLoop.revents0 k = 0 →
  0 ≤ EventLoop.stdin_fd ls →
  Z.land (EventLoop.revents1 k) EventLoop.POLLNVAL = 0 →
  Z.land (EventLoop.revents1 k) EventLoop.POLLIN ≠ 0 →
  EventLoop.reads k = map EventLoop.ReadBytes chunks ++ EventLoop.ReadEof :: rs →
  wake k ls
  = match on_bytes (concat chunks) (EventLoop.line ls, EventLoop.user ls) with
    | Ok (l, s) => Ok (EventLoop.Continue (EventLoop.mkLoopState (-1) l s))
    | Stop e => Stop e
    end.
Proof.
  intros Hst Hrev Hfd Hnval Hin Hreads. unfold EventLoop.wake.
  destruct (Z.ltb_spec 0 (EventLoop.poll_status k)); [|lia].
  destruct (Z.ltb_spec (EventLoop.stdin_fd ls) 0); [lia|].
  rewrite Hrev, Hnval. simpl.
  destruct (Z.eqb_spec (Z.land (EventLoop.revents1 k) EventLoop.POLLIN) 0);
    [done|]. simpl.
  rewrite Hreads, read_loop_chunks.
  by destruct (on_bytes _ _) as [[l s]|e].
Qed.

(** Once the descriptor is out of the poll set, nothing is read. *)
Lemma wake_closed k (ls : EventLoop.LoopState S) :
  EventLoop.stdin_fd ls < 0 →
  (∃ code, wake k ls = Ok (EventLoop.Exit code ls))
  ∨ wake k ls = Ok (EventLoop.Continue ls).
Proof.
  intros Hfd. unfold EventLoop.wake.
  destruct (Z.ltb_spec (EventLoop.stdin_fd ls) 0); [|lia].
  destruct (0 <? EventLoop.poll_status k).
  - simpl. rewrite orb_false_r.
    destruct (negb _); [left; by eexists|].
    destruct (negb _); [left; by eexists|]. by right.
  - destruct (_ || _); [by right | left; by eexists].
Qed.

Lemma wake_closed_continue k (ls : EventLoop.LoopState S) :
  EventLoop.stdin_fd ls < 0 →
  EventLoop.revents0 k = 0 →
  0 < EventLoop.poll_status k
  ∨ EventLoop.poll_status k = 0 ∨ EventLoop.poll_eintr k = true →
  wake k ls = Ok (EventLoop.Continue ls).
Proof.
  intros Hfd Hrev Hst. unfold EventLoop.wake.
  destruct (Z.ltb_spec (EventLoop.stdin_fd ls) 0); [|lia].
  rewrite Hrev. simpl.
  destruct (Z.ltb_spec 0 (EventLoop.poll_status k)); [done|].
  destruct Hst as [?|[->| ->]]; [lia|done|]. by rewrite orb_true_r.
Qed.

Lemma run_closed ks (ls : EventLoop.LoopState S) :
  EventLoop.stdin_fd ls < 0 →
  Forall EventLoop.quiet ks →
  run ks ls = Ok (EventLoop.Continue ls).
Proof.
  intros Hfd Hks. induction Hks as [|k ks [Hrev Hst] _ IH]; [done|].
  simpl. by rewrite wake_closed_continue.
Qed.

End Wake.

(** C7.  One turn of the event loop, in [jack-stdin-to-midi.c] and in
    [cv.c] alike.  When [poll] reports an event on the signal pipe, the
    loop exits at once, before any byte of standard input is read: the
    line buffer and the handler's state are as they were (with exit
    status EXIT_SUCCESS unless a descriptor was reported invalid).  When
    [read] returns 0, the bytes read before are handled, standard input
    leaves the poll set, and the loop continues; from then on no turn
    reads anything, and the loop keeps running for as long as the signal
    pipe stays silent. *)
Theorem shutdown_first_and_eof_keeps_running
    (A : Allocator) (uninit : addr → nat → Z) (NDEBUG : bool)
    (strtof : list Z → Cv.strtof_result) (JACLI_CV_CLAMP : bool)
    (k : EventLoop.Wake) (ks : list EventLoop.Wake)
    (ls : EventLoop.LoopState World) (cls : EventLoop.LoopState Cv.World) :
  0 < EventLoop.poll_status k →
  (EventLoop.revents0 k ≠ 0 →
     (∃ code, main_wake A uninit NDEBUG k ls = Ok (EventLoop.Exit code ls))
     ∧ (∃ code, Cv.main_wake strtof JACLI_CV_CLAMP k cls
                = Ok (EventLoop.Exit code cls))
     ∧ (Z.land (EventLoop.revents0 k) EventLoop.POLLNVAL = 0 →
        Z.land (EventLoop.revents1 k) EventLoop.POLLNVAL = 0 →
        main_wake A uninit NDEBUG k ls
        = Ok (EventLoop.Exit EventLoop.EXIT_SUCCESS ls)
        ∧ Cv.main_wake strtof JACLI_CV_CLAMP k cls
          = Ok (EventLoop.Exit EventLoop.EXIT_SUCCESS cls)))
  ∧ (EventLoop.revents0 k = 0 →
     Z.land (EventLoop.revents1 k) EventLoop.POLLNVAL = 0 →
     Z.land (EventLoop.revents1 k) EventLoop.POLLIN ≠ 0 →
     ∀ chunks rs,
       EventLoop.reads k
       = map EventLoop.ReadBytes chunks ++ EventLoop.ReadEof :: rs →
       (0 ≤ EventLoop.stdin_fd ls →
        main_wake A uninit NDEBUG k ls
        = match main_on_bytes A uninit NDEBUG (concat chunks)
                  (EventLoop.line ls, EventLoop.user ls) with
          | Ok (l, s) =>
              Ok (EventLoop.Continue (EventLoop.mkLoopState (-1) l s))
          | Stop e => Stop e
          end)
       ∧ (0 ≤ EventLoop.stdin_fd cls →
          Cv.main_wake strtof JACLI_CV_CLAMP k cls
          = match Cv.main_on_bytes strtof JACLI_CV_CLAMP (concat chunks)
                    (EventLoop.line cls, EventLoop.user cls) with
            | Ok (l, s) =>
                Ok (EventLoop.Continue (EventLoop.mkLoopState (-1) l s))
            | Stop e => Stop e
            end))
  ∧ (EventLoop.stdin_fd ls < 0 →
     ((∃ code, main_wake A uninit NDEBUG k ls = Ok (EventLoop.Exit code ls))
      ∨ main_wake A uninit NDEBUG k ls = Ok (EventLoop.Continue ls))
     ∧ (Forall EventLoop.quiet ks →
        main_loop A uninit NDEBUG ks ls = Ok (EventLoop.Continue ls)))
  ∧ (EventLoop.stdin_fd cls < 0 →
     ((∃ code, Cv.main_wake strtof JACLI_CV_CLAMP k cls
               = Ok (EventLoop.Exit code cls))
      ∨ Cv.main_wake strtof JACLI_CV_CLAMP k cls = Ok (EventLoop.Continue cls))
     ∧ (Forall EventLoop.quiet ks →
        Cv.main_loop strtof JACLI_CV_CLAMP ks cls = Ok (EventLoop.Continue cls))).
Proof.
  intros Hst. unfold main_wake, Cv.main_wake, main_loop, Cv.main_loop,
    main_on_bytes, Cv.main_on_bytes.
  split; [|split; [|split]].
  - intros Hrev. split; [by apply wake_shutdown|].
    split; [by apply wake_shutdown|].
    intros Hn0 Hn1. split; by apply wake_shutdown_success.
  - intros Hrev Hnval Hin chunks rs Hreads.
    split; intros Hfd; by eapply wake_eof.
  - intros Hfd. split; [by apply wake_closed|]. intros Hks. by apply run_closed.
  - intros Hfd. split; [by apply wake_closed|]. intros Hks. by apply run_closed.
Qed.

Lemma shutdown_first_and_eof_keeps_running_witness :
  0 < EventLoop.poll_status (EventLoop.mkWake 1 false 16 1 [])
  ∧ main_wake bump_allocator (λ _ _, 0) true
      (EventLoop.mkWake 1 false 16 1 [])
      (EventLoop.mkLoopState 0 [57; 48] (initial_world 1%positive))
    = Ok (EventLoop.Exit EventLoop.EXIT_SUCCESS
            (EventLoop.mkLoopState 0 [57; 48] (initial_world 1%positive)))
  ∧ Cv.main_wake Cv.strtof_sample true
      (EventLoop.mkWake 1 false 16 1 [])
      (EventLoop.mkLoopState 0 [48] Cv.main_init)
    = Ok (EventLoop.Exit EventLoop.EXIT_SUCCESS
            (EventLoop.mkLoopState 0 [48] Cv.main_init)).
Proof.
  assert (0 < EventLoop.poll_status (EventLoop.mkWake 1 false 16 1 [])) as H
    by (simpl; lia).
  split; [exact H|].
  destruct (shutdown_first_and_eof_keeps_running bump_allocator (λ _ _, 0) true
              Cv.strtof_sample true (EventLoop.mkWake 1 false 16 1 []) []
              (EventLoop.mkLoopState 0 [57; 48] (initial_world 1%positive))
              (EventLoop.mkLoopState 0 [48] Cv.main_init) H)
    as [Hshut _].
  apply Hshut; done.
Defined.

(** ** The scalar cell *)

Section Scalar.

Variable strtof : list Z → Cv.strtof_result.

Lemma cv_handle_line_unparsable clamp line w :
  ¬ Cv.parsed (strtof line) →
  Cv.handle_line strtof clamp line w
  = Cv.mkWorld (Cv.value w) (Cv.stderr w ++ [Cv.CouldNotParse]).
Proof.
  intros Hnot. unfold Cv.handle_line.
  destruct (Cv.sf_endptr (strtof line)) as [[|n]|] eqn:Hend; try done.
  destruct (Z.eqb_spec (Cv.sf_errno (strtof line)) 0) as [Herr|Herr]; [|done].
  destruct Hnot. split; [by exists n | done].
Qed.

Lemma cv_handle_line_parsed clamp line w :
  Cv.parsed (strtof line) →
  Cv.handle_line strtof clamp line w
  = let v := Cv.sf_value (strtof line) in
    if SFeqb v v then
      if clamp then Cv.mkWorld (Cv.clamped v) (Cv.stderr w ++ Cv.clamp_notice v)
      else Cv.mkWorld v (Cv.stderr w)
    else Cv.mkWorld (Cv.value w) (Cv.stderr w ++ [Cv.CannotBeNaN]).
Proof.
  intros [[n Hend] Herr]. unfold Cv.handle_line, Cv.clamped, Cv.clamp_notice.
  rewrite Hend, Herr. simpl. destruct (SFeqb _ _); [|done]. simpl.
  destruct clamp; [|done]. simpl.
  destruct (SFltb _ Cv.float_zero); [done|].
  destruct (SFltb Cv.float_one _); [done|]. by rewrite app_nil_r.
Qed.

(** C6.  The scalar line handler.  Let [strtof] answer the lines "1.5",
    "-0.2", "0.5" and "nan" as the C library does.  A clamping build
    stores 1.0 for "1.5" and prints the clamp notice, stores 0.0 for
    "-0.2" (with its notice), stores 0.5 for "0.5" and prints nothing,
    and rejects "nan", keeping the value of the cell.  In either build a
    line that [strtof] cannot parse, and a line whose value is NaN, is
    reported and leaves the cell as it was.  A build without clamping
    stores the parsed value as it is. *)
Theorem scalar_clamp (w : Cv.World) :
  strtof Cv.line_1_5 = Cv.mkStrtof Cv.float_1_5 (Some 3%nat) 0 →
  strtof Cv.line_minus_0_2 = Cv.mkStrtof Cv.float_minus_0_2 (Some 4%nat) 0 →
  strtof Cv.line_0_5 = Cv.mkStrtof Cv.float_0_5 (Some 3%nat) 0 →
  strtof Cv.line_nan = Cv.mkStrtof S754_nan (Some 3%nat) 0 →
  Cv.handle_line strtof true Cv.line_1_5 w
  = Cv.mkWorld Cv.float_one (Cv.stderr w ++ [Cv.ClampedTo1])
  ∧ Cv.handle_line strtof true Cv.line_minus_0_2 w
    = Cv.mkWorld Cv.float_zero (Cv.stderr w ++ [Cv.ClampedTo0])
  ∧ Cv.handle_line strtof true Cv.line_0_5 w
    = Cv.mkWorld Cv.float_0_5 (Cv.stderr w)
  ∧ (∀ clamp, Cv.handle_line strtof clamp Cv.line_nan w
              = Cv.mkWorld (Cv.value w) (Cv.stderr w ++ [Cv.CannotBeNaN]))
  ∧ (∀ clamp line, ¬ Cv.parsed (strtof line) →
       Cv.handle_line strtof clamp line w
       = Cv.mkWorld (Cv.value w) (Cv.stderr w ++ [Cv.CouldNotParse]))
  ∧ (∀ clamp line, Cv.parsed (strtof line) →
       Cv.is_nan (Cv.sf_value (strtof line)) →
       Cv.handle_line strtof clamp line w
       = Cv.mkWorld (Cv.value w) (Cv.stderr w ++ [Cv.CannotBeNaN]))
  ∧ (∀ line, Cv.parsed (strtof line) →
       ¬ Cv.is_nan (Cv.sf_value (strtof line)) →
       Cv.handle_line strtof false line w
       = Cv.mkWorld (Cv.sf_value (strtof line)) (Cv.stderr w))
  ∧ Cv.handle_line strtof false Cv.line_1_5 w
    = Cv.mkWorld Cv.float_1_5 (Cv.stderr w)
  ∧ Cv.handle_line strtof false Cv.line_minus_0_2 w
    = Cv.mkWorld Cv.float_minus_0_2 (Cv.stderr w).
Proof.
  intros H15 H02 H05 Hnan.
  assert (∀ line v n, strtof line = Cv.mkStrtof v (Some (Datatypes.S n)) 0 →
                      Cv.parsed (strtof line)) as Hparsed.
  { intros line v n ->. split; [by exists n | done]. }
  repeat split.
  - rewrite cv_handle_line_parsed by eauto. by rewrite H15.
  - rewrite cv_handle_line_parsed by eauto. by rewrite H02.
  - rewrite cv_handle_line_parsed by eauto. rewrite H05. simpl.
    by rewrite app_nil_r.
  - intros clamp. rewrite cv_handle_line_parsed by eauto. by rewrite Hnan.
  - intros clamp line. apply cv_handle_line_unparsable.
  - intros clamp line Hp Hn. rewrite cv_handle_line_parsed by done.
    unfold Cv.is_nan in Hn. simpl. by rewrite Hn.
  - intros line Hp Hn. rewrite cv_handle_line_parsed by done. simpl.
    unfold Cv.is_nan in Hn. by destruct (SFeqb _ _).
  - rewrite cv_handle_line_parsed by eauto. by rewrite H15.
  - rewrite cv_handle_line_parsed by eauto. by rewrite H02.
Qed.

End Scalar.

Lemma scalar_clamp_witness :
  Cv.handle_line Cv.strtof_sample true Cv.line_1_5 Cv.main_init
  = Cv.mkWorld Cv.float_one (Cv.stderr Cv.main_init ++ [Cv.ClampedTo1])
  ∧ Cv.handle_line Cv.strtof_sample true Cv.line_minus_0_2 Cv.main_init
    = Cv.mkWorld Cv.float_zero (Cv.stderr Cv.main_init ++ [Cv.ClampedTo0])
  ∧ Cv.handle_line Cv.strtof_sample true Cv.line_0_5 Cv.main_init
    = Cv.mkWorld Cv.float_0_5 (Cv.stderr Cv.main_init).
Proof.
  destruct (scalar_clamp Cv.strtof_sample Cv.main_init)
    as (H1 & H2 & H3 & _); try reflexivity.
  by repeat split.
Defined.

(** The claim that a line is rejected as unparsable only when no
    initial float literal can be extracted fails: for "1e999" the C
    library consumes the five characters of the literal, returns
    infinity and sets [errno] to ERANGE, and [handle_line] rejects the
    line as unparsable. *)
Lemma range_error_rejected_as_unparsable :
  Cv.strtof_sample Cv.line_1e999
  = Cv.mkStrtof Cv.float_infinity (Some 5%nat) Cv.ERANGE
  ∧ Cv.handle_line Cv.strtof_sample false Cv.line_1e999 Cv.main_init
    = Cv.mkWorld (Cv.value Cv.main_init)
                 (Cv.stderr Cv.main_init ++ [Cv.CouldNotParse])
  ∧ ¬ (∀ (strtof : list Z → Cv.strtof_result) (clamp : bool)
         (line : list Z) (w : Cv.World),
         Cv.handle_line strtof clamp line w
         = Cv.mkWorld (Cv.value w) (Cv.stderr w ++ [Cv.CouldNotParse]) →
         Cv.sf_endptr (strtof line) = None
         ∨ Cv.sf_endptr (strtof line) = Some 0%nat).
Proof.
  split; [reflexivity|]. split; [reflexivity|]. intros H.
  by destruct (H Cv.strtof_sample false Cv.line_1e999 Cv.main_init eq_refl).
Qed.

Lemma app_singleton_ne {X} (l k : list X) (x : X) :
  k ≠ [x] → l ++ [x] ≠ l ++ k.
Proof. intros Hk Heq. apply Hk. symmetry. by eapply app_inv_head. Qed.

(** C10, as the code has it.  [handle_line] rejects a line as
    unparsable exactly when [strtof] consumed no character (or left
    [endptr] NULL) or set [errno].  Any other line whose value is not
    NaN is accepted, whatever characters follow the number: the cell
    receives the value that [strtof] returned, clamped to [0, 1] in a
    clamping build. *)
Theorem scalar_line_accepts_parsed_prefix
    (strtof : list Z → Cv.strtof_result) (clamp : bool)
    (line : list Z) (w : Cv.World) :
  let r := strtof line in
  let v := Cv.sf_value r in
  (Cv.handle_line strtof clamp line w
   = Cv.mkWorld (Cv.value w) (Cv.stderr w ++ [Cv.CouldNotParse])
   ↔ Cv.sf_endptr r = None ∨ Cv.sf_endptr r = Some 0%nat ∨ Cv.sf_errno r ≠ 0)
  ∧ (Cv.parsed r → ¬ Cv.is_nan v →
     Cv.handle_line strtof clamp line w
     = if clamp
       then Cv.mkWorld (Cv.clamped v) (Cv.stderr w ++ Cv.clamp_notice v)
       else Cv.mkWorld v (Cv.stderr w))
  ∧ (Cv.parsed r → ¬ Cv.is_nan v →
     SFltb v Cv.float_zero = false → SFltb Cv.float_one v = false →
     Cv.handle_line strtof clamp line w = Cv.mkWorld v (Cv.stderr w)).
Proof.
  intros r v.
  assert (Cv.parsed r → ¬ Cv.is_nan v →
     Cv.handle_line strtof clamp line w
     = if clamp
       then Cv.mkWorld (Cv.clamped v) (Cv.stderr w ++ Cv.clamp_notice v)
       else Cv.mkWorld v (Cv.stderr w)) as Hacc.
  { intros Hp Hn. rewrite cv_handle_line_parsed by done. fold r v. simpl.
    unfold Cv.is_nan in Hn. by destruct (SFeqb v v). }
  split; [|split; [exact Hacc|]].
  - split.
    + intros Hrej.
      destruct (Cv.sf_endptr r) as [[|n]|] eqn:Hend; [by auto| |by auto].
      destruct (decide (Cv.sf_errno r = 0)) as [Herr|Herr]; [|by auto].
      exfalso. assert (Cv.parsed r) as Hp by (split; [by exists n | done]).
      rewrite cv_handle_line_parsed in Hrej by done. fold r v in Hrej.
      simpl in Hrej. destruct (SFeqb v v).
      * destruct clamp.
        -- injection Hrej as _ Hrej. symmetry in Hrej.
           revert Hrej. apply app_singleton_ne. unfold Cv.clamp_notice.
           by repeat case_match.
        -- injection Hrej as _ Hrej. symmetry in Hrej.
           rewrite <- (app_nil_r (Cv.stderr w)) in Hrej at 2.
           revert Hrej. by apply app_singleton_ne.
      * injection Hrej as Hrej. symmetry in Hrej.
        revert Hrej. by apply app_singleton_ne.
    + intros Hno. apply cv_handle_line_unparsable. intros [[n Hend] Herr].
      fold r in Hend, Herr. rewrite Hend in Hno.
      by destruct Hno as [?|[?|?]].
  - intros Hp Hn Hlo Hhi. rewrite Hacc by done.
    unfold Cv.clamped, Cv.clamp_notice. rewrite Hlo, Hhi.
    destruct clamp; [by rewrite app_nil_r | done].
Qed.

Lemma scalar_line_accepts_parsed_prefix_witness :
  Cv.handle_line Cv.strtof_sample true Cv.line_0_5abc Cv.main_init
  = Cv.mkWorld Cv.float_0_5 (Cv.stderr Cv.main_init)
  ∧ Cv.handle_line Cv.strtof_sample false Cv.line_0_5abc Cv.main_init
    = Cv.mkWorld Cv.float_0_5 (Cv.stderr Cv.main_init).
Proof.
  split.
  - apply (scalar_line_accepts_parsed_prefix Cv.strtof_sample true
             Cv.line_0_5abc Cv.main_init); try done.
    split; [by exists 2%nat | done].
  - apply (scalar_line_accepts_parsed_prefix Cv.strtof_sample false
             Cv.line_0_5abc Cv.main_init); try done.
    split; [by exists 2%nat | done].
Defined.

(** ** The programs on concrete inputs *)

Example hex_to_int_values :
  hex_to_int 48 = 0 ∧ hex_to_int 57 = 9 ∧ hex_to_int 97 = 10
  ∧ hex_to_int 102 = 15 ∧ hex_to_int 65 = 10 ∧ hex_to_int 70 = 15
  ∧ hex_to_int 103 = -1 ∧ hex_to_int 88 = -1 ∧ hex_to_int 10 = -1.
Proof. by repeat split. Qed.

Example int_to_hex_values :
  MidiToStdin.int_to_hex 0 = 48 ∧ MidiToStdin.int_to_hex 9 = 57
  ∧ MidiToStdin.int_to_hex 10 = 97 ∧ MidiToStdin.int_to_hex 15 = 102
  ∧ MidiToStdin.int_to_hex 16 = 63.
Proof. by repeat split. Qed.

(** The message 90 40 00 ff is written as the line "904000ff". *)
Example encode_event_note_on :
  MidiToStdin.encode_event [144; 64; 0; 255]
  = [57; 48; 52; 48; 48; 48; 102; 102; 10].
Proof. reflexivity. Qed.

(** [main] reads "90X904000", "1", "80400X", "Ab" and "90X4000", each
    followed by a line feed, and [process] then runs once.  The first
    line loses the two characters before its marker; "1" is reported;
    the marker at the end of "80400X" leaves an empty line, which is
    enqueued as an empty message; "Ab" is the byte 0xab; and of
    "90X4000" the part after the marker is a line of its own. *)
Example main_then_process :
  ∃ w0 w1 w2,
    main_init bump_allocator (λ _ _, 0) (boot (mkState false 1 1 1)%positive)
    = Ok (tt, w0)
    ∧ main_on_bytes bump_allocator (λ _ _, 0) true
        [57; 48; 88; 57; 48; 52; 48; 48; 48; 10;
         49; 10;
         56; 48; 52; 48; 48; 88; 10;
         65; 98; 10;
         57; 48; 88; 52; 48; 48; 48; 10] ([], w0)
      = Ok ([], w1)
    ∧ stderr w1 = [BadMessageLength]
    ∧ process 5 true w1 = Ok ((0, [[144; 64; 0]; []; [171]; [64; 0]]), w2)
    ∧ head (state w2) = tail (state w2).
Proof. do 3 eexists. by vm_compute. Qed.

(** Enqueue, drain, enqueue, reclaim: the sentinel is freed, the node
    drained last becomes the new sentinel. *)
Example reclaim_after_drain :
  ∃ w,
    (main_init bump_allocator (λ _ _, 0);;
     exec_all bump_allocator (λ _ _, 0) true
       [Enqueue [144; 64; 0]; Drain true; Enqueue [128; 64; 0]; Reclaim])
      (boot (mkState false 1 1 1)%positive)
    = Ok (tt, w)
    ∧ heap w !! 1%positive = None
    ∧ heap w !! 2%positive = Some (mkNode (Some 3%positive) [144; 64; 0])
    ∧ heap w !! 3%positive = Some (mkNode None [128; 64; 0])
    ∧ state w = (mkState true 2 2 3)%positive.
Proof. eexists. by vm_compute. Qed.

(** ** The two threads interleaved *)

Lemma lseg_next_in h a l x n y :
  lseg h a l None → x ∈ l → h !! x = Some n → next n = Some y → y ∈ l.
Proof.
  revert a. induction l as [|z l IH]; intros a; simpl.
  - by intros _ ?%elem_of_nil.
  - intros [-> (nz & Hz & Hl)] [->|Hx]%elem_of_cons Hn Hy.
    + rewrite Hz in Hn. injection Hn as <-. rewrite Hy in Hl.
      destruct l as [|z' l]; [done|]. destruct Hl as [[= <-] _].
      right. by left.
    + right. by eapply IH.
Qed.

Lemma lseg_split h a l x :
  lseg h a l None → x ∈ l →
  ∃ pre post, l = pre ++ x :: post
    ∧ lseg h a pre (Some x) ∧ lseg h (Some x) (x :: post) None.
Proof.
  intros Hl (pre & post & ->)%list_elem_of_split.
  apply lseg_app_inv in Hl as (c & Hpre & Hpost).
  pose proof (lseg_head _ _ _ _ _ Hpost) as ->. eauto.
Qed.

Section Interleaving.

Variable A : Allocator.
Variable uninit : addr → nat → Z.
Variable NDEBUG : bool.

#[local] Abbreviation step := (step A uninit NDEBUG).
#[local] Abbreviation steps := (steps A uninit NDEBUG).
#[local] Abbreviation control_step := (control_step A uninit NDEBUG).

Lemma step_control a sys c w :
  control_step a (control sys) (world sys) = Ok (c, w) →
  realtime_step a (realtime sys) w = Ok (realtime sys, w) →
  step a sys = Ok (mkSystem w c (realtime sys)).
Proof. intros Hc Hr. unfold StdinToMidi.step. by rewrite Hc, Hr. Qed.

Lemma step_realtime a sys r w :
  control_step a (control sys) (world sys) = Ok (control sys, world sys) →
  realtime_step a (realtime sys) (world sys) = Ok (r, w) →
  step a sys = Ok (mkSystem w (control sys) r).
Proof. intros Hc Hr. unfold StdinToMidi.step. by rewrite Hc, Hr. Qed.

Lemma reclaim_begin_keeps_queue sys tofree retired live :
  SystemQueue sys tofree retired live →
  control sys = ControlIdle →
  ∃ sys', step ReclaimBegin sys = Ok sys'
    ∧ SystemQueue sys' retired [] live.
Proof.
  destruct sys as [w c r]. simpl. intros (Hnd & Hret & Hlive & Hc & Ht & Hr) ->.
  simpl in *. subst tofree. eexists. split.
  - apply step_control; [done|]. simpl. by destruct r.
  - unfold SystemQueue. simpl in *. by repeat split.
Qed.

Lemma reclaim_step_keeps_queue sys tofree retired live node hd :
  SystemQueue sys tofree retired live →
  control sys = Freeing node hd →
  ∃ sys' tofree', step ReclaimStep sys = Ok sys'
    ∧ SystemQueue sys' tofree' retired live.
Proof.
  destruct sys as [w c r]. simpl. intros (Hnd & Hret & Hlive & Hc & Ht & Hr) ->.
  simpl in *. destruct Hc as [Hfree ->].
  assert (malloc_head (state w) ∈ retired ++ live) as Hmh.
  { destruct retired as [|x retired].
    - simpl in Hret. injection Hret as ->.
      destruct live as [|y live]; [done|]. destruct Hlive as [[= <-] _].
      by left.
    - destruct Hret as [[= <-] _]. by left. }
  destruct (decide (node = Some (malloc_head (state w)))) as [->|Hne].
  - assert (tofree = []) as ->.
    { destruct tofree as [|x tofree]; [done|]. destruct Hfree as [[= <-] _].
      apply NoDup_app in Hnd as (_ & Hdisj & _). exfalso.
      eapply Hdisj; [by left | done]. }
    exists (mkSystem w ControlIdle r), []. split; [|by unfold SystemQueue].
    apply step_control; simpl; [by rewrite decide_True | by destruct r].
  - destruct tofree as [|a tofree]; [done|].
    destruct Hfree as [-> (n & Hn & Hfree)].
    apply NoDup_cons in Hnd as [Ha Hnd].
    assert (∀ l, (∀ x, x ∈ l → x ≠ a) → ∀ b c,
              lseg (heap w) b l c → lseg (delete a (heap w)) b l c) as Hkeep.
    { intros l Hl b c'. apply lseg_ext. intros x Hx.
      apply lookup_delete_ne. intros <-. by eapply Hl. }
    eexists (mkSystem (mkWorld (delete a (heap w)) (state w) (stderr w))
                      (Freeing (next n) (malloc_head (state w))) r), tofree.
    split.
    + apply step_control; [|by destruct r]. simpl.
      rewrite decide_False by done.
      erewrite bind_ok; [|by apply assert_ok].
      rewrite (bind_ok _ _ _ _ _ (load_next_ok _ _ _ Hn)).
      by rewrite (bind_ok _ _ _ _ _ (free_ok _ _ _ Hn)).
    + unfold SystemQueue. simpl in *. split; [done|].
      split; [apply Hkeep; [|done]|split; [apply Hkeep; [|done]|]].
      * intros x Hx ->. apply Ha. apply elem_of_app. right.
        apply elem_of_app. by left.
      * intros x Hx ->. apply Ha. apply elem_of_app. right.
        apply elem_of_app. by right.
      * split; [|done]. split; [|done]. apply Hkeep; [|done].
        intros x Hx ->. apply Ha. apply elem_of_app. by left.
Qed.

Lemma produce_keeps_queue sys tofree retired live line :
  SystemQueue sys tofree retired live →
  control sys = ControlIdle →
  step (Produce line) sys = Stop Aborted
  ∨ ∃ sys', step (Produce line) sys = Ok sys'
      ∧ SystemQueue sys' tofree retired live.
Proof.
  destruct sys as [w c r]. simpl. intros (Hnd & Hret & Hlive & Hc & Ht & Hr) ->.
  simpl in *. subst tofree. simpl in Hnd.
  unfold StdinToMidi.step. simpl. rewrite land_1_even.
  destruct (Nat.even (length line)) eqn:Heven; simpl; cycle 1.
  { right. eexists. split; [by destruct r|]. by unfold SystemQueue. }
  destruct (malloc A (heap w) (sizeof_Node + length line / 2)) as [node|] eqn:Hm;
    cycle 1.
  { left. erewrite bind_stop; [done|]. by apply node_new_abort. }
  right. pose proof (malloc_fresh A _ _ _ Hm) as Hfresh.
  assert (node ∉ retired ++ live) as Hnot.
  { intros [Hin|Hin]%elem_of_app.
    - destruct (lseg_allocated _ _ _ _ _ Hret Hin) as [? Hs]. congruence.
    - destruct (lseg_allocated _ _ _ _ _ Hlive Hin) as [? Hs]. congruence. }
  assert (∀ nd l b c, (∀ x, x ∈ l → x ∈ retired ++ live) →
            lseg (heap w) b l c → lseg (<[node := nd]> (heap w)) b l c) as Hkeep.
  { intros nd l b c' Hl. apply lseg_ext. intros x Hx.
    apply lookup_insert_ne. intros <-. by apply Hnot, Hl. }
  erewrite bind_ok; [|apply node_new_NULL_ok; exact Hm].
  erewrite bind_ok; cycle 1.
  { eapply decode_loop_ok.
    - simpl. apply lookup_insert_eq.
    - rewrite length_map, length_seq. pose proof (even_div2 _ Heven).
      change (0 + length line)%nat with (length line).
      change ((Nat.divmod (length line) 1 0 1).1) with (length line / 2)%nat.
      lia. }
  simpl. rewrite insert_insert_eq.
  destruct (bool_decide _).
  - erewrite bind_ok; cycle 1.
    { apply assert_ok. erewrite bind_ok; [|
        apply load_next_ok; simpl; apply lookup_insert_eq]. reflexivity. }
    simpl. eexists. split; [by destruct r|]. unfold SystemQueue. simpl.
    split; [done|]. split; [apply Hkeep; [|done]|split; [apply Hkeep; [|done]|]].
    + intros x Hx. apply elem_of_app. by left.
    + intros x Hx. apply elem_of_app. by right.
    + split; [done|]. split; [|done]. split; [done|]. split; [done|].
      split; [|done]. eexists. apply lookup_insert_eq.
  - simpl. eexists. split; [by destruct r|]. unfold SystemQueue. simpl.
    split; [done|]. split; [apply Hkeep; [|done]|split; [apply Hkeep; [|done]|]].
    + intros x Hx. apply elem_of_app. by left.
    + intros x Hx. apply elem_of_app. by right.
    + done.
Qed.

Lemma push_end_keeps_queue sys tofree retired live old node :
  SystemQueue sys tofree retired live →
  control sys = Linking old node →
  ∃ sys', step PushEnd sys = Ok sys'
    ∧ SystemQueue sys' tofree retired (live ++ [node]).
Proof.
  destruct sys as [w c r]. simpl. intros (Hnd & Hret & Hlive & Hc & Ht & Hr) ->.
  simpl in *. subst tofree. simpl in *.
  destruct Ht as (Hlast & Htail & [m Hnode] & Hnot).
  destruct (lseg_last _ _ _ _ Hlive Hlast) as (nt & Hold & _).
  apply not_elem_of_app in Hnot as [Hnr Hnl].
  pose proof Hnd as (Hndr & Hdisj & Hndl)%NoDup_app.
  pose proof (last_Some_elem_of _ _ Hlast) as Hin.
  eexists. split.
  - unfold StdinToMidi.step. simpl.
    rewrite (bind_ok _ _ _ _ _ (store_next_ok _ _ _ _ Hold)). simpl.
    by destruct r.
  - unfold SystemQueue. simpl. split; [|split; [|split; [|split; [done|split]]]].
    + rewrite app_assoc. apply NoDup_app. split; [done|].
      split; [|apply NoDup_singleton].
      intros x Hx ->%list_elem_of_singleton.
      apply elem_of_app in Hx as [?|?]; done.
    + eapply lseg_ext; [|exact Hret]. intros x Hx.
      apply lookup_insert_ne. intros <-. by apply (Hdisj _ Hx).
    + by apply lseg_push with (m := m).
    + rewrite last_snoc. by rewrite Htail.
    + destruct r; [done| |]; apply elem_of_app; by left.
Qed.

Lemma drain_begin_keeps_queue sys tofree retired live :
  SystemQueue sys tofree retired live →
  realtime sys = RealtimeIdle →
  ∃ sys', step DrainBegin sys = Ok sys'
    ∧ SystemQueue sys' tofree retired live.
Proof.
  destruct sys as [w c r]. simpl. intros (Hnd & Hret & Hlive & Hc & Ht & Hr) ->.
  eexists. split.
  - unfold StdinToMidi.step. simpl. by destruct c.
  - unfold SystemQueue. simpl. do 5 (split; [done|]).
    destruct live as [|x live]; [done|]. destruct Hlive as [[= <-] _]. by left.
Qed.

Lemma drain_step_keeps_queue sys tofree retired live node events :
  SystemQueue sys tofree retired live →
  realtime sys = Draining node events →
  ∃ sys', step DrainStep sys = Ok sys'
    ∧ SystemQueue sys' tofree retired live.
Proof.
  destruct sys as [w c r]. simpl. intros (Hnd & Hret & Hlive & Hc & Ht & Hr) ->.
  simpl in Hr.
  destruct (lseg_allocated _ _ _ _ _ Hlive Hr) as [n Hn].
  assert (control_step DrainStep c w = Ok (c, w)) as Hcs by (by destruct c).
  destruct (next n) as [node'|] eqn:Hnext.
  - pose proof (lseg_next_in _ _ _ _ _ _ Hlive Hr Hn Hnext) as Hin'.
    destruct (lseg_allocated _ _ _ _ _ Hlive Hin') as [n' Hn'].
    eexists. split.
    + unfold StdinToMidi.step. cbn [control world realtime]. rewrite Hcs. simpl.
      rewrite (bind_ok _ _ _ _ _ (load_next_ok _ _ _ Hn)), Hnext.
      by rewrite (bind_ok _ _ _ _ _ (deref_ok _ _ _ Hn')).
    + by unfold SystemQueue.
  - eexists. split.
    + unfold StdinToMidi.step. cbn [control world realtime]. rewrite Hcs. simpl.
      by rewrite (bind_ok _ _ _ _ _ (load_next_ok _ _ _ Hn)), Hnext.
    + by unfold SystemQueue.
Qed.

Lemma drain_end_keeps_queue sys tofree retired live node events :
  SystemQueue sys tofree retired live →
  realtime sys = Publishing node events →
  ∃ sys' pre post, step DrainEnd sys = Ok sys'
    ∧ live = pre ++ node :: post
    ∧ SystemQueue sys' tofree (retired ++ pre) (node :: post).
Proof.
  destruct sys as [w c r]. simpl. intros (Hnd & Hret & Hlive & Hc & Ht & Hr) ->.
  simpl in Hr.
  destruct (lseg_split _ _ _ _ Hlive Hr) as (pre & post & -> & Hpre & Hpost).
  assert (control_step DrainEnd c w = Ok (c, w)) as Hcs by (by destruct c).
  eexists _, pre, post. split; [|split; [done|]].
  - unfold StdinToMidi.step. cbn [control world realtime]. by rewrite Hcs.
  - unfold SystemQueue. simpl.
    assert (last (node :: post) = last (pre ++ node :: post)) as Hlast.
    { rewrite last_app. by destruct (last (node :: post)) eqn:E;
        [|apply last_None in E]. }
    split; [by rewrite <- (app_assoc retired)|].
    split; [by eapply lseg_app|]. split; [done|]. split; [done|].
    split; [|done]. destruct c; rewrite ?Hlast; try done.
    destruct Ht as (? & ? & ? & Hnot). do 3 (split; [done|]).
    by rewrite <- (app_assoc retired).
Qed.

Lemma step_keeps_queue a sys tofree retired live :
  SystemQueue sys tofree retired live →
  step a sys = Stop Aborted
  ∨ ∃ sys' tofree' retired' live',
      step a sys = Ok sys' ∧ SystemQueue sys' tofree' retired' live'.
Proof.
  intros HQ.
  assert (step a sys = Ok sys →
          step a sys = Stop Aborted
          ∨ ∃ sys' tofree' retired' live',
              step a sys = Ok sys' ∧ SystemQueue sys' tofree' retired' live')
    as Hskip.
  { intros Hs. right. exists sys, tofree, retired, live. by rewrite Hs. }
  destruct a.
  - destruct (control sys) eqn:Hc;
      [|apply Hskip; destruct sys as [? ? []]; simpl in *; by subst..].
    destruct (reclaim_begin_keeps_queue _ _ _ _ HQ Hc) as (sys' & ? & ?).
    right. eauto 10.
  - destruct (control sys) eqn:Hc;
      [apply Hskip; destruct sys as [? ? []]; simpl in *; by subst| |
       apply Hskip; destruct sys as [? ? []]; simpl in *; by subst].
    destruct (reclaim_step_keeps_queue _ _ _ _ _ _ HQ Hc) as (sys' & ? & ? & ?).
    right. eauto 10.
  - destruct (control sys) eqn:Hc;
      [|apply Hskip; destruct sys as [? ? []]; simpl in *; by subst..].
    destruct (produce_keeps_queue _ _ _ _ line HQ Hc) as [?|(sys' & ? & ?)];
      [by left|]. right. eauto 10.
  - destruct (control sys) eqn:Hc;
      [apply Hskip; destruct sys as [? ? []]; simpl in *; by subst..|].
    destruct (push_end_keeps_queue _ _ _ _ _ _ HQ Hc) as (sys' & ? & ?).
    right. eauto 10.
  - destruct (realtime sys) eqn:Hr;
      [|apply Hskip; destruct sys as [? [] ?]; simpl in *; by subst..].
    destruct (drain_begin_keeps_queue _ _ _ _ HQ Hr) as (sys' & ? & ?).
    right. eauto 10.
  - destruct (realtime sys) eqn:Hr;
      [apply Hskip; destruct sys as [? [] ?]; simpl in *; by subst| |
       apply Hskip; destruct sys as [? [] ?]; simpl in *; by subst].
    destruct (drain_step_keeps_queue _ _ _ _ _ _ HQ Hr) as (sys' & ? & ?).
    right. eauto 10.
  - destruct (realtime sys) eqn:Hr;
      [apply Hskip; destruct sys as [? [] ?]; simpl in *; by subst..|].
    destruct (drain_end_keeps_queue _ _ _ _ _ _ HQ Hr)
      as (sys' & pre & post & ? & ? & ?).
    right. eauto 10.
Qed.

Lemma steps_keep_queue schedule : ∀ sys tofree retired live,
  SystemQueue sys tofree retired live →
  steps schedule sys = Stop Aborted
  ∨ ∃ sys' tofree' retired' live',
      steps schedule sys = Ok sys' ∧ SystemQueue sys' tofree' retired' live'.
Proof.
  induction schedule as [|a schedule IH]; intros sys tofree retired live HQ.
  - right. by exists sys, tofree, retired, live.
  - simpl.
    destruct (step_keeps_queue a sys _ _ _ HQ)
      as [Hs | (sys' & ? & ? & ? & Hs & HQ')]; rewrite Hs; [by left|].
    by eapply IH.
Qed.

End Interleaving.

(** X4.  Reclamation safety under every schedule.  Let the control thread
    ([free_excess], the rest of [handle_line], [push_back]) and the
    real-time thread ([process]) advance one shared access at a time, in
    any order.  No access is ever undefined and no assertion fails: the
    run stops only if [malloc] fails.  Whenever the loop of
    [free_excess] is about to free a node, that node is allocated, it
    cannot be reached from [head], and the real-time thread does not
    stand on it. *)
Theorem interleaved_threads_safe
    (A : Allocator) (uninit : addr → nat → Z) (NDEBUG : bool)
    (blank : addr) (schedule : list action) :
  let run := steps A uninit NDEBUG schedule
               (mkSystem (initial_world blank) ControlIdle RealtimeIdle) in
  run = Stop Aborted
  ∨ ∃ sys tofree retired live,
      run = Ok sys
      ∧ SystemQueue sys tofree retired live
      ∧ ∀ a hd,
          control sys = Freeing (Some a) hd → a ≠ hd →
          is_Some (heap (world sys) !! a)
          ∧ ¬ reachable (heap (world sys)) (head (state (world sys))) a
          ∧ match realtime sys with
            | RealtimeIdle => True
            | Draining node _ | Publishing node _ => node ≠ a
            end.
Proof.
  intros run. subst run.
  destruct (steps_keep_queue A uninit NDEBUG schedule
              (mkSystem (initial_world blank) ControlIdle RealtimeIdle)
              [] [] [blank])
    as [? | (sys & tofree & retired & live & Hrun & HQ)]; [|by left|].
  { unfold SystemQueue. simpl. split; [apply NoDup_singleton|].
    split; [done|]. split; [|done]. split; [done|].
    eexists. split; [apply lookup_singleton_eq | done]. }
  right. exists sys, tofree, retired, live. split; [done|]. split; [done|].
  intros a hd Hc Hne. destruct HQ as (Hnd & Hret & Hlive & Hfree & _ & Hr).
  rewrite Hc in Hfree. destruct Hfree as [Hfree ->].
  destruct tofree as [|x tofree]; [by injection Hfree|].
  destruct Hfree as [[= <-] (n & Hn & _)].
  apply NoDup_cons in Hnd as [Ha _].
  assert (a ∉ live) as Hal.
  { intros Hin. apply Ha. apply elem_of_app. right. apply elem_of_app. by right. }
  split; [by eexists|]. split.
  - intros Hreach. apply Hal. by eapply reachable_lseg.
  - destruct (realtime sys); [done|by intros ->..].
Qed.

(** A schedule in which [process] runs while [push_back] and
    [free_excess] are under way.  The drain that starts between the two
    accesses of the first [push_back] sees nothing new; the next one
    passes the first node while the second is being linked; the
    reclaimer then frees the sentinel while a third drain advances. *)
Example interleaved_schedule :
  ∃ sys,
    steps bump_allocator (λ _ _, 0) true
      [Produce [57; 48]; DrainBegin; DrainStep; PushEnd; DrainEnd;
       DrainBegin; DrainStep; Produce [56; 48]; DrainStep; DrainEnd;
       PushEnd; ReclaimBegin; DrainBegin; ReclaimStep; DrainStep;
       ReclaimStep; DrainStep; DrainEnd]
      (mkSystem (initial_world 1%positive) ControlIdle RealtimeIdle)
    = Ok sys
    ∧ control sys = ControlIdle
    ∧ realtime sys = RealtimeIdle
    ∧ heap (world sys) !! 1%positive = None
    ∧ heap (world sys) !! 2%positive = Some (mkNode (Some 3%positive) [144])
    ∧ heap (world sys) !! 3%positive = Some (mkNode None [128])
    ∧ state (world sys) = (mkState true 2 3 3)%positive.
Proof. eexists. by vm_compute. Qed.

(** * Further properties of the code *)

(** ** The byte loop as a splitter *)

Section Splitter.

Context {S : Type}.
Variable capacity : nat.
Variable resync : bool.
Variable handler : list Z → S → outcome S.

#[local] Abbreviation on_bytes := (EventLoop.on_bytes capacity resync handler).
#[local] Abbreviation split_lines := (EventLoop.split_lines capacity resync).
#[local] Abbreviation handle_all := (EventLoop.handle_all handler).

Lemma handle_all_app lines1 lines2 s :
  handle_all (lines1 ++ lines2) s
  = match handle_all lines1 s with
    | Ok s' => handle_all lines2 s'
    | Stop e => Stop e
    end.
Proof.
  revert s. induction lines1 as [|l lines1 IH]; intros s; simpl; [done|].
  destruct (handler l s); [apply IH | done].
Qed.

Lemma split_lines_app buf1 buf2 line :
  split_lines (buf1 ++ buf2) line
  = let r1 := split_lines buf1 line in
    let r2 := split_lines buf2 r1.2 in
    (r1.1 ++ r2.1, r2.2).
Proof.
  revert line. induction buf1 as [|b buf1 IH]; intros line; simpl.
  - by destruct (split_lines buf2 line).
  - destruct (resync && (b =? EventLoop.char_X)); [apply IH|].
    destruct (b =? EventLoop.char_LF); [by rewrite IH|].
    destruct (length line <? capacity - 1)%nat; apply IH.
Qed.

(** The loop hands the lines of [split_lines] to the handler, in order,
    and keeps the bytes that [split_lines] leaves. *)
Lemma on_bytes_split buf : ∀ line s,
  on_bytes buf (line, s)
  = match handle_all (split_lines buf line).1 s with
    | Ok s' => Ok ((split_lines buf line).2, s')
    | Stop e => Stop e
    end.
Proof.
  induction buf as [|b buf IH]; intros line s; [done|].
  rewrite on_bytes_cons. unfold EventLoop.on_byte. simpl.
  destruct (resync && (b =? EventLoop.char_X)); [apply IH|].
  destruct (b =? EventLoop.char_LF).
  - simpl. destruct (handler line s); [apply IH | done].
  - destruct (length line <? capacity - 1)%nat; apply IH.
Qed.

(** The buffer never holds more than [capacity - 1] bytes, and a line
    given to the handler neither. *)
Lemma split_lines_bounded buf : ∀ line,
  (length line ≤ capacity - 1)%nat →
  Forall (λ l, (length l ≤ capacity - 1)%nat) (split_lines buf line).1
  ∧ (length (split_lines buf line).2 ≤ capacity - 1)%nat.
Proof.
  induction buf as [|b buf IH]; intros line Hlen; simpl; [by split|].
  destruct (resync && (b =? EventLoop.char_X)); [apply IH; simpl; lia|].
  destruct (b =? EventLoop.char_LF).
  - destruct (IH [] ltac:(simpl; lia)) as [H1 H2]. simpl.
    split; [by constructor | done].
  - destruct (Nat.ltb_spec (length line) (capacity - 1)); apply IH; [|done].
    rewrite length_app. simpl. lia.
Qed.

Lemma split_lines_plain buf : ∀ line,
  Forall (EventLoop.plain resync) line →
  Forall (Forall (EventLoop.plain resync)) (split_lines buf line).1
  ∧ Forall (EventLoop.plain resync) (split_lines buf line).2.
Proof.
  induction buf as [|b buf IH]; intros line Hline; simpl; [by split|].
  destruct (resync && (b =? EventLoop.char_X)) eqn:Hx; [by apply IH|].
  destruct (Z.eqb_spec b EventLoop.char_LF) as [Hlf|Hlf].
  - destruct (IH [] ltac:(done)) as [H1 H2]. simpl.
    split; [by constructor | done].
  - assert (EventLoop.plain resync b) as Hb.
    { split; [done|]. intros ->. simpl in Hx.
      by destruct (Z.eqb_spec b EventLoop.char_X). }
    destruct (length line <? capacity - 1)%nat; apply IH; [|done].
    apply Forall_app. split; [done | by constructor].
Qed.

End Splitter.

(** X6.  How the input is cut into [read] calls and [poll] turns does not
    matter.  A run of turns in which only input arrives, each turn
    reading some chunks until [read] fails, does to the line buffer and
    to the handler's state what the byte loop does on all the bytes in
    one piece; standard input stays in the poll set. *)
Theorem chunking_is_irrelevant
    {S : Type} (capacity : nat) (resync : bool)
    (handler : list Z → S → outcome S)
    (turns : list (list (list Z))) (ls : EventLoop.LoopState S) :
  0 ≤ EventLoop.stdin_fd ls →
  EventLoop.run capacity resync handler (map EventLoop.data_turn turns) ls
  = match EventLoop.on_bytes capacity resync handler (concat (concat turns))
            (EventLoop.line ls, EventLoop.user ls) with
    | Ok (l, s) =>
        Ok (EventLoop.Continue
              (EventLoop.mkLoopState (EventLoop.stdin_fd ls) l s))
    | Stop e => Stop e
    end.
Proof.
  revert ls. induction turns as [|chunks turns IH]; intros ls Hfd.
  - simpl. by destruct ls.
  - rewrite map_cons. change (concat (chunks :: turns)) with (chunks ++ concat turns).
    rewrite concat_app, on_bytes_app.
    change (EventLoop.run capacity resync handler
              (EventLoop.data_turn chunks :: map EventLoop.data_turn turns) ls)
      with (match EventLoop.wake capacity resync handler
                    (EventLoop.data_turn chunks) ls with
            | Ok (EventLoop.Continue ls') =>
                EventLoop.run capacity resync handler
                  (map EventLoop.data_turn turns) ls'
            | r => r
            end).
    assert (EventLoop.wake capacity resync handler (EventLoop.data_turn chunks) ls
            = match EventLoop.on_bytes capacity resync handler (concat chunks)
                      (EventLoop.line ls, EventLoop.user ls) with
              | Ok (l, s) =>
                  Ok (EventLoop.Continue
                        (EventLoop.mkLoopState (EventLoop.stdin_fd ls) l s))
              | Stop e => Stop e
              end) as ->.
    { unfold EventLoop.wake, EventLoop.data_turn. simpl.
      destruct (Z.ltb_spec (EventLoop.stdin_fd ls) 0); [lia|]. simpl.
      rewrite read_loop_chunks.
      by destruct (EventLoop.on_bytes _ _ _ (concat chunks) _) as [[l s]|e]. }
    destruct (EventLoop.on_bytes _ _ _ (concat chunks) _) as [[l s]|e];
      [|done].
    by rewrite IH.
Qed.

Lemma chunking_is_irrelevant_witness :
  EventLoop.run 128 false (Cv.line_handler Cv.strtof_sample true)
    (map EventLoop.data_turn [[[48]; [46; 53]]; [[10; 49]]])
    (EventLoop.mkLoopState 0 [] Cv.main_init)
  = match EventLoop.on_bytes 128 false (Cv.line_handler Cv.strtof_sample true)
            (concat (concat [[[48]; [46; 53]]; [[10; 49]]]))
            ([], Cv.main_init) with
    | Ok (l, s) => Ok (EventLoop.Continue (EventLoop.mkLoopState 0 l s))
    | Stop e => Stop e
    end.
Proof.
  apply (chunking_is_irrelevant 128 false (Cv.line_handler Cv.strtof_sample true)
           [[[48]; [46; 53]]; [[10; 49]]]
           (EventLoop.mkLoopState 0 [] Cv.main_init)).
  simpl. lia.
Defined.

(** ** The whole input of [jack-stdin-to-midi.c] *)

Section MidiInput.

Variable A : Allocator.
Variable uninit : addr → nat → Z.
Variable NDEBUG : bool.

Lemma handle_all_lines lines : ∀ w retired live,
  Queue w retired live →
  alloc_total A →
  ∃ w' retired' live',
    EventLoop.handle_all (line_handler A uninit NDEBUG) lines w = Ok w'
    ∧ Queue w' retired' live'
    ∧ pending w' live'
      = pending w live
        ++ concat (map (λ l, verdict_messages (line_verdict l)) lines)
    ∧ stderr w'
      = stderr w ++ concat (map (λ l, verdict_diag (line_verdict l)) lines).
Proof.
  induction lines as [|l lines IH]; intros w retired live HQ Htotal.
  - exists w, retired, live. by rewrite !app_nil_r.
  - destruct (handle_line_verdict A uninit NDEBUG w retired live l HQ Htotal)
      as (w1 & live1 & Hrun & HQ1 & _ & Hp1 & He1 & _).
    destruct (IH _ _ _ HQ1 Htotal) as (w' & retired' & live' & Hrun' & HQ' & Hp' & He').
    exists w', retired', live'. simpl. unfold line_handler at 1. rewrite Hrun.
    split; [done|]. split; [done|].
    split; [by rewrite Hp', Hp1, <- app_assoc | by rewrite He', He1, <- app_assoc].
Qed.

(** X5.  What [main] makes of any input.  Whatever bytes arrive, the loop
    of [main] never runs into undefined behaviour: it hands the lines of
    [split_lines] to [handle_line], each of at most 1023 bytes and free
    of line feeds and markers; the messages of the lines that decode are
    appended to the queue, in order, and one diagnostic is printed for
    each line that does not. *)
Theorem main_decodes_any_input
    (w : World) (retired live : list addr) (buf : list Z) :
  Queue w retired live →
  alloc_total A →
  let lines := (EventLoop.split_lines 1024 true buf []).1 in
  let rest := (EventLoop.split_lines 1024 true buf []).2 in
  ∃ w' retired' live',
    main_on_bytes A uninit NDEBUG buf ([], w) = Ok (rest, w')
    ∧ Queue w' retired' live'
    ∧ pending w' live'
      = pending w live
        ++ concat (map (λ l, verdict_messages (line_verdict l)) lines)
    ∧ stderr w'
      = stderr w ++ concat (map (λ l, verdict_diag (line_verdict l)) lines)
    ∧ Forall (λ l, (length l ≤ 1023)%nat ∧ Forall (EventLoop.plain true) l)
             lines
    ∧ (length rest ≤ 1023)%nat.
Proof.
  intros HQ Htotal lines rest.
  destruct (handle_all_lines lines w retired live HQ Htotal)
    as (w' & retired' & live' & Hrun & HQ' & Hp & He).
  exists w', retired', live'. unfold main_on_bytes. rewrite on_bytes_split.
  fold lines rest. rewrite Hrun. do 4 (split; [done|]).
  destruct (split_lines_bounded 1024 true buf [] ltac:(simpl; lia)) as [Hb Hr].
  destruct (split_lines_plain 1024 true buf [] ltac:(done)) as [Hpl _].
  split; [|done]. fold lines in Hb, Hpl.
  apply Forall_forall. intros l Hl. split.
  - by apply (proj1 (Forall_forall _ _) Hb).
  - by apply (proj1 (Forall_forall _ _) Hpl).
Qed.

End MidiInput.

Lemma main_decodes_any_input_witness :
  let buf := [57; 48; 88; 56; 48; 10; 49; 10; 49; 120; 10; 65] in
  let lines := (EventLoop.split_lines 1024 true buf []).1 in
  let rest := (EventLoop.split_lines 1024 true buf []).2 in
  ∃ w' retired' live',
    main_on_bytes bump_allocator (λ _ _, 0) true buf
      ([], initial_world 1%positive)
    = Ok (rest, w')
    ∧ Queue w' retired' live'
    ∧ pending w' live'
      = pending (initial_world 1%positive) [1%positive]
        ++ concat (map (λ l, verdict_messages (line_verdict l)) lines)
    ∧ stderr w'
      = stderr (initial_world 1%positive)
        ++ concat (map (λ l, verdict_diag (line_verdict l)) lines)
    ∧ Forall (λ l, (length l ≤ 1023)%nat ∧ Forall (EventLoop.plain true) l)
             lines
    ∧ (length rest ≤ 1023)%nat.
Proof.
  apply (main_decodes_any_input bump_allocator (λ _ _, 0) true
           (initial_world 1%positive) [] [1%positive]).
  - apply Queue_initial.
  - exact bump_allocator_total.
Defined.

(** ** The queue over any sequence of calls *)

Section Fifo.

Variable A : Allocator.
Variable uninit : addr → nat → Z.
Variable NDEBUG : bool.

Lemma exec_events_fifo c w retired live :
  Queue w retired live →
  alloc_total A →
  ∃ ev w' retired' live',
    exec_events A uninit NDEBUG c w = Ok (ev, w')
    ∧ Queue w' retired' live'
    ∧ pending w live ++ call_messages c = ev ++ pending w' live'.
Proof.
  intros HQ Htotal. destruct c as [m|line|buffer|]; simpl exec_events.
  - destruct (Htotal (heap w) (sizeof_Node + length m)%nat) as [node Hm].
    destruct (enqueue_ok A uninit NDEBUG _ _ _ _ _ HQ Hm)
      as (w' & Hrun & HQ' & Hp & _).
    exists [], w', retired, (live ++ [node]).
    rewrite (bind_ok _ _ _ _ _ Hrun). by rewrite Hp.
  - destruct (handle_line_verdict A uninit NDEBUG w retired live line HQ Htotal)
      as (w' & live' & Hrun & HQ' & _ & Hp & _).
    exists [], w', [], (live ++ live').
    rewrite (bind_ok _ _ _ _ _ Hrun). by rewrite Hp.
  - unfold get_heap, mbind at 1, M_bind at 1. rewrite app_nil_r.
    destruct (port (state w)) eqn:Hport; [destruct buffer|].
    + destruct (process_ok w retired live (S (size (heap w))) HQ Hport)
        as [Hrun HQ'].
      { pose proof (Queue_size _ _ _ HQ) as Hsize.
        rewrite length_app in Hsize. lia. }
      cbv zeta in Hrun, HQ'.
      eexists _, _, _, _. rewrite (bind_ok _ _ _ _ _ Hrun).
      split; [reflexivity|]. split; [exact HQ'|].
      unfold pending at 3. simpl. by rewrite app_nil_r.
    + exists [], w, retired, live. split; [|done].
      unfold process, get_state, mbind, M_bind, mret, M_ret. by rewrite Hport.
    + exists [], w, retired, live. split; [|done].
      unfold process, get_state, mbind, M_bind, mret, M_ret. by rewrite Hport.
  - destruct (free_excess_ok NDEBUG _ _ _ HQ) as (Hrun & HQ' & Hp).
    cbv zeta in Hrun, HQ', Hp.
    eexists [], _, [], live. rewrite (bind_ok _ _ _ _ _ Hrun).
    split; [reflexivity|]. split; [exact HQ'|]. by rewrite Hp, app_nil_r.
Qed.

(** X1.  Every message is delivered exactly once and in order.  Over any
    sequence of whole calls (messages enqueued, lines handled, process
    callbacks with or without a buffer, reclamations), what was waiting
    at the start followed by what the calls brought in equals what the
    callbacks emitted followed by what is still waiting at the end:
    nothing is lost, duplicated or reordered, and no call fails. *)
Theorem messages_delivered_once_in_order (cs : list call) :
  ∀ (w : World) (retired live : list addr),
  Queue w retired live →
  alloc_total A →
  ∃ events w' retired' live',
    exec_all_events A uninit NDEBUG cs w = Ok (events, w')
    ∧ Queue w' retired' live'
    ∧ pending w live ++ concat (map call_messages cs)
      = events ++ pending w' live'.
Proof.
  induction cs as [|c cs IH]; intros w retired live HQ Htotal.
  - exists [], w, retired, live. simpl. by rewrite app_nil_r.
  - destruct (exec_events_fifo c w retired live HQ Htotal)
      as (ev & w1 & retired1 & live1 & Hrun & HQ1 & Hp1).
    destruct (IH w1 retired1 live1 HQ1 Htotal)
      as (evs & w' & retired' & live' & Hrun' & HQ' & Hp').
    exists (ev ++ evs), w', retired', live'. simpl.
    rewrite (bind_ok _ _ _ _ _ Hrun), (bind_ok _ _ _ _ _ Hrun').
    split; [done|]. split; [done|].
    by rewrite app_assoc, Hp1, <- !app_assoc, Hp'.
Qed.

End Fifo.

Lemma messages_delivered_once_in_order_witness :
  ∃ events w' retired' live',
    exec_all_events bump_allocator (λ _ _, 0) true
      [Enqueue [144; 60; 127]; Line [56; 48; 51; 99; 52; 48]; Drain true;
       Line [49]; Reclaim; Enqueue [176; 7; 100]; Drain false; Drain true]
      (initial_world 1%positive)
    = Ok (events, w')
    ∧ Queue w' retired' live'
    ∧ pending (initial_world 1%positive) [1%positive]
      ++ concat (map call_messages
           [Enqueue [144; 60; 127]; Line [56; 48; 51; 99; 52; 48]; Drain true;
            Line [49]; Reclaim; Enqueue [176; 7; 100]; Drain false; Drain true])
      = events ++ pending w' live'.
Proof.
  apply (messages_delivered_once_in_order bump_allocator (λ _ _, 0) true
           [Enqueue [144; 60; 127]; Line [56; 48; 51; 99; 52; 48]; Drain true;
            Line [49]; Reclaim; Enqueue [176; 7; 100]; Drain false; Drain true]
           (initial_world 1%positive) [] [1%positive]).
  - apply Queue_initial.
  - exact bump_allocator_total.
Defined.

(** ** Memory outside the queue *)

Section Frame.

Variable A : Allocator.
Variable uninit : addr → nat → Z.
Variable NDEBUG : bool.

Lemma removelast_elem_of {X} (l : list X) x : x ∈ removelast l → x ∈ l.
Proof.
  induction l as [|a l IH]; [done|]. destruct l as [|b l]; simpl.
  - by intros ?%elem_of_nil.
  - intros [->|Hx]%elem_of_cons; [left|right; by apply IH].
Qed.

Lemma Queue_tail_live w retired live :
  Queue w retired live → tail (state w) ∈ live.
Proof. intros (_ & _ & Hlast & _). by apply last_Some_elem_of. Qed.

Lemma enqueue_frame w retired live m node :
  Queue w retired live →
  malloc A (heap w) (sizeof_Node + length m) = Some node →
  ∃ w', enqueue A uninit NDEBUG m w = Ok (node, w')
    ∧ Queue w' retired (live ++ [node])
    ∧ ∀ x, x ≠ node → x ≠ tail (state w) → heap w' !! x = heap w !! x.
Proof.
  intros HQ Hm. pose proof (malloc_fresh A _ _ _ Hm) as Hfresh.
  destruct (Queue_alloc w retired live node (mkNode None m) HQ Hfresh)
    as (HQ1 & Hp1 & Hnot).
  pose proof HQ1 as (_ & Hlive & Hlast & _).
  destruct (lseg_last _ _ _ _ Hlive Hlast) as (nt & Ht & _).
  destruct (Queue_push _ _ _ node m nt HQ1) as [HQ2 Hp2]; try done.
  { simpl. apply lookup_insert_eq. }
  eexists. split; [|split; [exact HQ2|]].
  - unfold enqueue.
    erewrite bind_ok; [|apply node_new_copy_ok; exact Hm].
    erewrite bind_ok; [done|]. eapply push_back_ok; [|exact Ht].
    simpl. apply lookup_insert_eq.
  - intros x Hx1 Hx2. simpl. by rewrite !lookup_insert_ne.
Qed.

Lemma handle_line_valid_frame w retired live line node :
  Queue w retired live →
  Nat.even (length line) = true →
  Forall hex_digit line →
  malloc A (free_all retired (heap w)) (sizeof_Node + length line / 2) = Some node →
  ∃ w', handle_line A uninit NDEBUG line w = Ok (tt, w')
    ∧ Queue w' [] (live ++ [node])
    ∧ ∀ x, x ≠ node → x ≠ tail (state w) →
           heap w' !! x = free_all retired (heap w) !! x.
Proof.
  intros HQ Heven Hall Hm.
  rewrite (handle_line_decoded A uninit NDEBUG w retired live line node HQ Heven Hm).
  rewrite decode_bytes_valid by done.
  rewrite decode_bytes_whole by (done || by rewrite length_map, length_seq).
  rewrite bool_decide_eq_true_2 by done. simpl decode_diag. rewrite app_nil_r.
  destruct (Queue_reclaimed NDEBUG w retired live (stderr w) HQ) as [HQ1 Hp1].
  pose proof (malloc_fresh A _ _ _ Hm) as Hfresh.
  destruct (Queue_alloc _ [] live node (mkNode None (decode_line line)) HQ1 Hfresh)
    as (HQ2 & Hp2 & Hnot).
  pose proof HQ2 as (_ & Hlive & Hlast & _).
  destruct (lseg_last _ _ _ _ Hlive Hlast) as (nt & Ht & _).
  destruct (Queue_push _ _ _ node (decode_line line) nt HQ2) as [HQ3 Hp3];
    try done.
  { simpl. apply lookup_insert_eq. }
  eexists. split; [|split; [exact HQ3|]].
  - eapply push_back_ok; [|exact Ht]. simpl. apply lookup_insert_eq.
  - intros x Hx1 Hx2. simpl. by rewrite !lookup_insert_ne.
Qed.

(** A call reads, writes and frees nodes of the queue only, and what it
    allocates was free: an allocated node outside the queue keeps its
    contents and stays outside. *)
Lemma exec_frame c w retired live x :
  Queue w retired live →
  alloc_total A →
  is_Some (heap w !! x) →
  x ∉ retired ++ live →
  ∃ w' retired' live',
    exec A uninit NDEBUG c w = Ok (tt, w')
    ∧ Queue w' retired' live'
    ∧ heap w' !! x = heap w !! x
    ∧ x ∉ retired' ++ live'.
Proof.
  intros HQ Htotal Hx Hout.
  assert ((x ∉ retired) ∧ (x ∉ live)) as [Hr Hl].
  { split; intros Hin; apply Hout, elem_of_app; auto. }
  assert (x ≠ tail (state w)) as Htail.
  { intros ->. by apply Hl, (Queue_tail_live w retired). }
  assert (free_all retired (heap w) !! x = heap w !! x) as Hfree.
  { rewrite free_all_lookup. by rewrite decide_False. }
  destruct c as [m|line|buffer|]; simpl exec.
  - destruct (Htotal (heap w) (sizeof_Node + length m)%nat) as [node Hm].
    destruct (enqueue_frame _ _ _ _ _ HQ Hm) as (w' & Hrun & HQ' & Hframe).
    assert (x ≠ node) as Hnode.
    { intros ->. rewrite (malloc_fresh A _ _ _ Hm) in Hx. by destruct Hx. }
    exists w', retired, (live ++ [node]).
    rewrite (bind_ok _ _ _ _ _ Hrun). split; [done|]. split; [done|].
    split; [by apply Hframe|].
    rewrite app_assoc. intros [?|?%list_elem_of_singleton]%elem_of_app; done.
  - destruct (Nat.even (length line)) eqn:Heven.
    + destruct (Htotal (free_all retired (heap w))
                  (sizeof_Node + length line / 2)%nat) as [node Hm].
      assert (x ≠ node) as Hnode.
      { intros ->. rewrite (malloc_fresh A _ _ _ Hm) in Hfree.
        rewrite <- Hfree in Hx. by destruct Hx. }
      destruct (decide (Forall hex_digit line)) as [Hall|Hbad].
      * destruct (handle_line_valid_frame _ _ _ _ _ HQ Heven Hall Hm)
          as (w' & Hrun & HQ' & Hframe).
        exists w', [], (live ++ [node]). split; [done|]. split; [done|].
        split; [by rewrite Hframe|]. simpl.
        intros [?|?%list_elem_of_singleton]%elem_of_app; done.
      * destruct (handle_line_invalid A uninit NDEBUG _ _ _ _ _ HQ Heven Hbad Hm)
          as (w' & c & nd & Hrun & _ & _ & _ & _ & Hheap & HQ' & _).
        exists w', [], live. split; [done|]. split; [done|].
        split; [|done]. by rewrite Hheap, lookup_insert_ne.
    + rewrite (handle_line_odd A uninit NDEBUG _ _ _ _ HQ Heven).
      destruct (Queue_reclaimed NDEBUG w retired live
                  (stderr w ++ [BadMessageLength]) HQ) as [HQ' _].
      eexists _, [], live. split; [done|]. split; [exact HQ'|]. done.
  - unfold get_heap, mbind at 1, M_bind at 1.
    destruct (port (state w)) eqn:Hport; [destruct buffer|].
    + destruct (process_ok w retired live (S (size (heap w))) HQ Hport)
        as [Hrun HQ'].
      { pose proof (Queue_size _ _ _ HQ) as Hsize.
        rewrite length_app in Hsize. lia. }
      cbv zeta in Hrun, HQ'.
      eexists _, _, _. rewrite (bind_ok _ _ _ _ _ Hrun).
      split; [done|]. split; [exact HQ'|]. split; [done|].
      rewrite <- app_assoc.
      intros [?|[?%removelast_elem_of|?%list_elem_of_singleton]%elem_of_app]%elem_of_app;
        done.
    + exists w, retired, live. split; [|done].
      unfold process, get_state, mbind, M_bind, mret, M_ret. by rewrite Hport.
    + exists w, retired, live. split; [|done].
      unfold process, get_state, mbind, M_bind, mret, M_ret. by rewrite Hport.
  - destruct (free_excess_ok NDEBUG _ _ _ HQ) as (Hrun & HQ' & _).
    cbv zeta in Hrun, HQ'.
    eexists _, [], live. split; [exact Hrun|]. split; [exact HQ'|]. done.
Qed.

Lemma exec_all_frame cs x : ∀ w retired live,
  Queue w retired live →
  alloc_total A →
  is_Some (heap w !! x) →
  x ∉ retired ++ live →
  ∃ w' retired' live',
    exec_all A uninit NDEBUG cs w = Ok (tt, w')
    ∧ Queue w' retired' live'
    ∧ heap w' !! x = heap w !! x
    ∧ x ∉ retired' ++ live'.
Proof.
  induction cs as [|c cs IH]; intros w retired live HQ Htotal Hx Hout.
  - by exists w, retired, live.
  - destruct (exec_frame c w retired live x HQ Htotal Hx Hout)
      as (w1 & retired1 & live1 & Hrun & HQ1 & Hh1 & Hout1).
    destruct (IH w1 retired1 live1 HQ1 Htotal) as
      (w' & retired' & live' & Hrun' & HQ' & Hh' & Hout'); [by rewrite Hh1|done|].
    exists w', retired', live'. simpl. rewrite (bind_ok _ _ _ _ _ Hrun).
    split; [done|]. split; [done|]. split; [by rewrite Hh', Hh1|done].
Qed.

End Frame.

(** X3.  A line rejected for an invalid hex digit leaks its node.  The
    node that [handle_line] allocated before it met the bad character is
    neither linked into the queue nor freed, and no later call changes
    that: after any sequence of calls it is still allocated, with the
    same contents, and is no node of the queue. *)
Theorem rejected_line_leaks_its_node
    (A : Allocator) (uninit : addr → nat → Z) (NDEBUG : bool)
    (w : World) (retired live : list addr) (line : list Z) (cs : list call) :
  Queue w retired live →
  alloc_total A →
  Nat.even (length line) = true →
  ¬ Forall hex_digit line →
  ∃ node w1 w' retired' live',
    malloc A (free_all retired (heap w)) (sizeof_Node + length line / 2)
    = Some node
    ∧ handle_line A uninit NDEBUG line w = Ok (tt, w1)
    ∧ exec_all A uninit NDEBUG cs w1 = Ok (tt, w')
    ∧ Queue w' retired' live'
    ∧ is_Some (heap w1 !! node)
    ∧ heap w' !! node = heap w1 !! node
    ∧ node ∉ retired' ++ live'.
Proof.
  intros HQ Htotal Heven Hbad.
  destruct (Htotal (free_all retired (heap w))
              (sizeof_Node + length line / 2)%nat) as [node Hm].
  destruct (handle_line_invalid A uninit NDEBUG _ _ _ _ _ HQ Heven Hbad Hm)
    as (w1 & c & nd & Hrun & _ & _ & _ & _ & Hheap & HQ1 & _ & Hnot).
  assert (heap w1 !! node = Some nd) as Hnode.
  { rewrite Hheap. apply lookup_insert_eq. }
  destruct (exec_all_frame A uninit NDEBUG cs node w1 [] live HQ1 Htotal)
    as (w' & retired' & live' & Hrun' & HQ' & Hh' & Hout'); [by rewrite Hnode|done|].
  exists node, w1, w', retired', live'. rewrite Hnode. by rewrite Hh', Hnode.
Qed.

Lemma rejected_line_leaks_its_node_witness :
  ∃ node w1 w' retired' live',
    malloc bump_allocator (free_all [] (heap (initial_world 1%positive)))
           (sizeof_Node + length [57; 48; 103; 48] / 2)
    = Some node
    ∧ handle_line bump_allocator (λ _ _, 0) true [57; 48; 103; 48]
        (initial_world 1%positive) = Ok (tt, w1)
    ∧ exec_all bump_allocator (λ _ _, 0) true
        [Line [57; 48]; Drain true; Reclaim; Reclaim] w1 = Ok (tt, w')
    ∧ Queue w' retired' live'
    ∧ is_Some (heap w1 !! node)
    ∧ heap w' !! node = heap w1 !! node
    ∧ node ∉ retired' ++ live'.
Proof.
  apply (rejected_line_leaks_its_node bump_allocator (λ _ _, 0) true
           (initial_world 1%positive) [] [1%positive] [57; 48; 103; 48]
           [Line [57; 48]; Drain true; Reclaim; Reclaim]).
  - apply Queue_initial.
  - exact bump_allocator_total.
  - reflexivity.
  - intros H. apply Forall_cons in H as [_ H]. apply Forall_cons in H as [_ H].
    apply Forall_cons in H as [H _]. by apply H.
Defined.

(** X2.  Delivered messages are given back to the allocator.  A process
    callback followed by [free_excess] emits what was waiting and frees
    every node of the queue except the one the tail points to; memory
    outside the queue is left alone. *)
Theorem delivered_nodes_are_freed
    (A : Allocator) (uninit : addr → nat → Z) (NDEBUG : bool)
    (w : World) (retired live : list addr) :
  Queue w retired live →
  port (state w) = true →
  ∃ w',
    exec_all_events A uninit NDEBUG [Drain true; Reclaim] w
    = Ok (pending w live, w')
    ∧ Queue w' [] [tail (state w)]
    ∧ (∀ x, x ∈ retired ++ live → x ≠ tail (state w) → heap w' !! x = None)
    ∧ heap w' !! tail (state w) = heap w !! tail (state w)
    ∧ (∀ x, x ∉ retired ++ live → heap w' !! x = heap w !! x).
Proof.
  intros HQ Hport.
  destruct (process_ok w retired live (S (size (heap w))) HQ Hport)
    as [Hrun HQ1].
  { pose proof (Queue_size _ _ _ HQ) as Hsize.
    rewrite length_app in Hsize. lia. }
  cbv zeta in Hrun, HQ1.
  destruct (free_excess_ok NDEBUG _ _ _ HQ1) as (Hrun2 & HQ2 & _).
  cbv zeta in Hrun2, HQ2. simpl in Hrun2, HQ2.
  pose proof HQ as (_ & _ & Hlast & Hnd).
  apply last_Some in Hlast as [init Hinit].
  assert (removelast live = init) as Hrl by (by rewrite Hinit, removelast_last).
  rewrite Hinit, app_assoc in Hnd. apply NoDup_app in Hnd as (_ & Hdisj & _).
  eexists. split; [|split; [exact HQ2|split; [|split]]].
  - simpl exec_all_events.
    erewrite bind_ok; cycle 1.
    { unfold get_heap, mbind at 1, M_bind at 1.
      rewrite (bind_ok _ _ _ _ _ Hrun). reflexivity. }
    erewrite bind_ok; cycle 1.
    { erewrite bind_ok; cycle 1.
      { rewrite (bind_ok _ _ _ _ _ Hrun2). reflexivity. }
      reflexivity. }
    simpl. by rewrite !app_nil_r.
  - intros x Hx Hne. simpl. rewrite free_all_lookup, decide_True; [done|].
    rewrite Hrl. rewrite Hinit, app_assoc in Hx.
    apply elem_of_app in Hx as [Hx|Hx%list_elem_of_singleton]; done.
  - simpl. rewrite free_all_lookup, decide_False; [done|].
    rewrite Hrl. intros Hin. apply (Hdisj _ Hin). by left.
  - intros x Hx. simpl. rewrite free_all_lookup, decide_False; [done|].
    intros Hin. apply Hx. rewrite Hrl in Hin. rewrite Hinit, app_assoc.
    apply elem_of_app. by left.
Qed.

Lemma delivered_nodes_are_freed_witness :
  let w := mkWorld {[1%positive := mkNode (Some 2%positive) [];
                     2%positive := mkNode (Some 3%positive) [144; 60; 127];
                     3%positive := mkNode None [128; 60; 0]]}
                   (mkState true 1 2 3)%positive [] in
  ∃ w',
    exec_all_events bump_allocator (λ _ _, 0) true [Drain true; Reclaim] w
    = Ok (pending w [2; 3]%positive, w')
    ∧ Queue w' [] [tail (state w)]
    ∧ (∀ x, x ∈ [1%positive] ++ [2; 3]%positive → x ≠ tail (state w) →
            heap w' !! x = None)
    ∧ heap w' !! tail (state w) = heap w !! tail (state w)
    ∧ (∀ x, x ∉ [1%positive] ++ [2; 3]%positive → heap w' !! x = heap w !! x).
Proof.
  intros w.
  apply (delivered_nodes_are_freed bump_allocator (λ _ _, 0) true w
           [1%positive] [2; 3]%positive).
  - split; [|split; [|split]].
    + simpl. split; [done|]. by eexists.
    + simpl. split; [done|]. eexists. split; [reflexivity|]. simpl.
      split; [done|]. by eexists.
    + done.
    + simpl. compute_done.
  - reflexivity.
Defined.

(** ** The scalar cell over any input *)

Lemma SFleb_refl_zero_one :
  Cv.in_range Cv.float_zero ∧ Cv.in_range Cv.float_one.
Proof. by vm_compute. Qed.

Lemma clamped_in_range v : SFeqb v v = true → Cv.in_range (Cv.clamped v).
Proof.
  intros Hnan. unfold Cv.clamped.
  destruct (SFltb v Cv.float_zero) eqn:H0; [apply SFleb_refl_zero_one|].
  destruct (SFltb Cv.float_one v) eqn:H1; [apply SFleb_refl_zero_one|].
  destruct v as [s|s| |s m e]; try done.
  - destruct s; [by vm_compute in H0 | by vm_compute in H1].
  - destruct s; [by vm_compute in H0|]. split; [done|].
    unfold SFltb, SFleb, SFcompare, Cv.float_one in *.
    rewrite (Z.compare_antisym e (-23)) in H1.
    destruct (e ?= -23) eqn:He; cbn [CompOpp] in *; try done.
    pose proof (Pos.compare_cont_antisym m 8388608 Eq) as Ha.
    cbn [CompOpp] in Ha. rewrite <- Ha in H1.
    by destruct (Pos.compare_cont Eq m 8388608).
Qed.

Lemma clamped_not_nan v : SFeqb v v = true → SFeqb (Cv.clamped v) (Cv.clamped v) = true.
Proof.
  intros Hnan. unfold Cv.clamped.
  destruct (SFltb v Cv.float_zero); [done|].
  by destruct (SFltb Cv.float_one v).
Qed.

Section CvInvariant.

Variable strtof : list Z → Cv.strtof_result.
Variable clamp : bool.

Lemma cv_handle_line_good line w :
  Cv.good clamp w → Cv.good clamp (Cv.handle_line strtof clamp line w).
Proof.
  intros [Hnan Hrange]. unfold Cv.handle_line. cbv zeta.
  destruct (_ || _ || _); [done|].
  destruct (SFeqb (Cv.sf_value (strtof line)) (Cv.sf_value (strtof line)))
    eqn:Hv; [|done].
  simpl negb. cbv iota. destruct clamp; simpl negb; cbv iota; [|done].
  pose proof (clamped_in_range _ Hv) as Hc.
  pose proof (clamped_not_nan _ Hv) as Hn.
  unfold Cv.clamped in Hc, Hn.
  destruct (SFltb (Cv.sf_value (strtof line)) Cv.float_zero); [done|].
  by destruct (SFltb Cv.float_one (Cv.sf_value (strtof line))).
Qed.

Lemma cv_on_bytes_good buf : ∀ line w,
  Cv.good clamp w →
  ∃ rest w', Cv.main_on_bytes strtof clamp buf (line, w) = Ok (rest, w')
             ∧ Cv.good clamp w'.
Proof.
  induction buf as [|b buf IH]; intros line w Hw; [by exists line, w|].
  unfold Cv.main_on_bytes in *. rewrite on_bytes_cons.
  unfold EventLoop.on_byte. simpl andb. cbv iota.
  destruct (b =? EventLoop.char_LF).
  - unfold Cv.line_handler at 1. apply IH. by apply cv_handle_line_good.
  - destruct (_ <? _)%nat; by apply IH.
Qed.

End CvInvariant.

(** X8.  The control voltage is always a number, and in a clamping build
    it is always between 0 and 1.  Whatever bytes arrive on standard
    input and whatever [strtof] makes of them, the loop of [main] runs
    through them, and every sample that [process] then writes is no NaN;
    when [JACLI_CV_CLAMP] is set every sample lies in [0, 1]. *)
Theorem cv_output_is_a_number_in_range
    (strtof : list Z → Cv.strtof_result) (clamp : bool)
    (buf : list Z) (nframes : nat) :
  ∃ rest w,
    Cv.main_on_bytes strtof clamp buf ([], Cv.main_init) = Ok (rest, w)
    ∧ Forall (λ v, SFeqb v v = true ∧ (clamp = true → Cv.in_range v))
             (Cv.process nframes w).
Proof.
  destruct (cv_on_bytes_good strtof clamp buf [] Cv.main_init)
    as (rest & w & Hrun & Hgood).
  { split; [done|]. intros _. apply SFleb_refl_zero_one. }
  exists rest, w. split; [done|].
  unfold Cv.process. apply Forall_forall. intros v Hv.
  apply list_elem_of_In, repeat_spec in Hv. by subst v.
Qed.

(** ** [jack-midi-to-stdin.c]: the process callback *)

Section Sender.

Variable write : nat → list Z → Z.

#[local] Abbreviation put := MidiToStdin.put.
#[local] Abbreviation event_loop := (MidiToStdin.event_loop write).
#[local] Abbreviation events_loop := (MidiToStdin.events_loop write).

Lemma put_ok c buf :
  (length buf < 128)%nat → put c buf = Ok (buf ++ [c]).
Proof.
  intros Hlen. unfold MidiToStdin.put, MidiToStdin.sizeof_buf.
  by destruct (Nat.ltb_spec (length buf) 128); [|lia].
Qed.

Lemma put_overrun c buf :
  (128 ≤ length buf)%nat → put c buf = Stop Undefined.
Proof.
  intros Hlen. unfold MidiToStdin.put, MidiToStdin.sizeof_buf.
  by destruct (Nat.ltb_spec (length buf) 128); [lia|].
Qed.

Lemma event_loop_cons value bytes buf w :
  event_loop (value :: bytes) buf w
  = match put (MidiToStdin.int_to_hex (Z.shiftr value 4)) buf with
    | Stop e => Stop e
    | Ok buf =>
        match put (MidiToStdin.int_to_hex (Z.land value 15)) buf with
        | Stop e => Stop e
        | Ok buf =>
            if (length buf <? MidiToStdin.sizeof_buf)%nat
            then event_loop bytes buf w
            else
              let r := MidiToStdin.flush_buf write buf w in
              if negb r.1 then Ok (None, r.2)
              else event_loop bytes [] r.2
        end
    end.
Proof. done. Qed.

Lemma encode_event_length bytes :
  length (MidiToStdin.encode_event bytes) = (2 * length bytes + 1)%nat.
Proof.
  unfold MidiToStdin.encode_event.
  rewrite length_app, encode_length. simpl. lia.
Qed.

(** While the characters of an event fit, they are only stored. *)
Lemma event_loop_fits bytes : ∀ buf w,
  (length buf + 2 * length bytes < 128)%nat →
  event_loop bytes buf w
  = Ok (Some (buf ++ flat_map MidiToStdin.encode_byte bytes), w).
Proof.
  induction bytes as [|value bytes IH]; intros buf w Hlen.
  - simpl. by rewrite app_nil_r.
  - rewrite event_loop_cons. simpl length in Hlen.
    rewrite put_ok by lia. rewrite put_ok by (rewrite length_app; simpl; lia).
    unfold MidiToStdin.sizeof_buf.
    destruct (Nat.ltb_spec (length ((buf ++ [MidiToStdin.int_to_hex (value ≫ 4)])
                ++ [MidiToStdin.int_to_hex (Z.land value 15)])) 128) as [_|Hge].
    + rewrite IH by (rewrite !length_app; simpl; lia).
      simpl. by rewrite <- !app_assoc.
    + rewrite !length_app in Hge. simpl in Hge. lia.
Qed.

Lemma events_loop_fits events : ∀ buf w,
  (length buf + length (concat (map MidiToStdin.encode_event events)) ≤ 128)%nat →
  events_loop (map Some events) buf w
  = Ok (Some (buf ++ concat (map MidiToStdin.encode_event events)), w).
Proof.
  induction events as [|bytes events IH]; intros buf w Hlen.
  - simpl. by rewrite app_nil_r.
  - simpl in Hlen. rewrite length_app, encode_event_length in Hlen.
    simpl. rewrite event_loop_fits by lia.
    rewrite put_ok by (rewrite length_app, encode_length; lia).
    rewrite IH.
    + unfold MidiToStdin.encode_event. by rewrite <- !app_assoc.
    + rewrite !length_app, encode_length. simpl. lia.
Qed.

(** From an odd fill, the second character of a pair is the one that
    does not fit any more. *)
Lemma event_loop_overrun bytes : ∀ buf w,
  Nat.odd (length buf) = true →
  (length buf ≤ 127)%nat →
  (129 ≤ length buf + 2 * length bytes)%nat →
  event_loop bytes buf w = Stop Undefined.
Proof.
  induction bytes as [|value bytes IH]; intros buf w Hodd Hle Hlen.
  - simpl in Hlen. lia.
  - rewrite event_loop_cons. rewrite put_ok.
    2: { destruct (decide (length buf = 127%nat)); [lia|].
         destruct (decide (length buf = 128%nat)); lia. }
    destruct (decide (length buf = 127%nat)) as [H127|H127].
    + rewrite put_overrun; [done|]. rewrite length_app. simpl. lia.
    + assert (length buf ≤ 125)%nat as Hle'.
      { destruct (decide (length buf = 126%nat)) as [H126|]; [|lia].
        rewrite H126 in Hodd. done. }
      rewrite put_ok by (rewrite length_app; simpl; lia).
      unfold MidiToStdin.sizeof_buf.
      destruct (Nat.ltb_spec (length ((buf ++ [MidiToStdin.int_to_hex (value ≫ 4)])
                  ++ [MidiToStdin.int_to_hex (Z.land value 15)])) 128) as [_|Hge].
      * apply IH.
        -- rewrite !length_app. simpl.
           replace (length buf + 1 + 1)%nat with (Datatypes.S (Datatypes.S (length buf))) by lia.
           by rewrite Nat.odd_succ_succ.
        -- rewrite !length_app. simpl. lia.
        -- rewrite !length_app. simpl. simpl in Hlen. lia.
      * rewrite !length_app in Hge. simpl in Hge. lia.
Qed.

End Sender.

Lemma payload_first_put w :
  (if negb (MidiToStdin.line_completed w)
   then MidiToStdin.put EventLoop.char_X [] else Ok [])
  = Ok (MidiToStdin.payload w []).
Proof.
  unfold MidiToStdin.payload. by destruct (MidiToStdin.line_completed w).
Qed.

Lemma payload_app w pre :
  MidiToStdin.payload w pre
  = MidiToStdin.payload w [] ++ concat (map MidiToStdin.encode_event pre).
Proof.
  unfold MidiToStdin.payload. simpl. by rewrite app_nil_r.
Qed.

(** A callback whose characters fit the buffer makes one call of
    [write]: when the marker (if one is due) and the encoded events take
    at most 128 characters, [process] stores them all, calls [flush_buf]
    once on exactly these characters, and returns 0. *)
Lemma process_fits
    (write : nat → list Z → Z) (w : MidiToStdin.World)
    (events : list (list Z)) :
  MidiToStdin.port w = true →
  (length (MidiToStdin.payload w events) ≤ 128)%nat →
  MidiToStdin.process write (Some (map Some events)) w
  = Ok (0, (MidiToStdin.flush_buf write (MidiToStdin.payload w events) w).2).
Proof.
  intros Hport Hlen. unfold MidiToStdin.process. rewrite Hport. simpl negb.
  cbv iota zeta. rewrite payload_first_put.
  rewrite payload_app, length_app in Hlen.
  rewrite events_loop_fits by done. by rewrite <- payload_app.
Qed.

(** X9.  [process] can write past the end of [buf].  The buffer is
    flushed only when a pair of hex digits fills it exactly.  When the
    characters stored before an event are odd in number (the marker, or
    the line feeds of earlier events, shift the pairs by one) and the
    event is long enough to reach the end of the buffer, the second
    digit of a pair is stored at [buf[128]]: undefined behaviour. *)
Theorem process_overruns_buf
    (write : nat → list Z → Z) (w : MidiToStdin.World)
    (pre : list (list Z)) (bytes : list Z)
    (rest : list (option (list Z))) :
  MidiToStdin.port w = true →
  Nat.odd (length (MidiToStdin.payload w pre)) = true →
  (length (MidiToStdin.payload w pre) ≤ 127)%nat →
  (129 ≤ length (MidiToStdin.payload w pre) + 2 * length bytes)%nat →
  MidiToStdin.process write (Some (map Some pre ++ Some bytes :: rest)) w
  = Stop Undefined.
Proof.
  intros Hport Hodd Hle Hlen. unfold MidiToStdin.process. rewrite Hport.
  simpl negb. cbv iota zeta. rewrite payload_first_put.
  assert (∀ pre buf w',
    (length buf + length (concat (map MidiToStdin.encode_event pre)) ≤ 128)%nat →
    MidiToStdin.events_loop write (map Some pre ++ Some bytes :: rest) buf w'
    = match MidiToStdin.event_loop write bytes
              (buf ++ concat (map MidiToStdin.encode_event pre)) w' with
      | Stop e => Stop e
      | Ok (None, w) => Ok (None, w)
      | Ok (Some buf, w) =>
          match MidiToStdin.put EventLoop.char_LF buf with
          | Stop e => Stop e
          | Ok buf => MidiToStdin.events_loop write rest buf w
          end
      end) as Hpre.
  { clear. induction pre as [|e pre IH]; intros buf w' Hlen.
    - simpl. by rewrite app_nil_r.
    - simpl in Hlen. rewrite length_app, encode_event_length in Hlen.
      simpl. rewrite event_loop_fits by lia.
      rewrite put_ok by (rewrite length_app, encode_length; lia).
      rewrite IH.
      + unfold MidiToStdin.encode_event. by rewrite <- !app_assoc.
      + rewrite !length_app, encode_length. simpl. lia. }
  rewrite payload_app, length_app in Hle, Hlen, Hodd.
  rewrite Hpre by lia. rewrite <- payload_app.
  rewrite <- length_app, <- payload_app in Hle, Hlen, Hodd.
  by rewrite event_loop_overrun.
Qed.

Lemma process_overruns_buf_witness :
  MidiToStdin.process (λ _ bytes, Z.of_nat (length bytes))
    (Some (map Some [[248]] ++ Some (repeat 0 63) :: []))
    MidiToStdin.main_init
  = Stop Undefined.
Proof.
  apply (process_overruns_buf (λ _ bytes, Z.of_nat (length bytes))
           MidiToStdin.main_init [[248]] (repeat 0 63) []).
  - reflexivity.
  - reflexivity.
  - vm_compute. lia.
  - vm_compute. lia.
Defined.

Lemma payload_last w events :
  MidiToStdin.payload w events ≠ [] →
  ∃ init c, MidiToStdin.payload w events = init ++ [c]
            ∧ (c = EventLoop.char_LF ∨ c = EventLoop.char_X).
Proof.
  intros Hne. unfold MidiToStdin.payload in *.
  destruct events as [|e events _] using rev_ind.
  - simpl in *. destruct (MidiToStdin.line_completed w); [done|].
    exists [], EventLoop.char_X. split; [done | by right].
  - rewrite map_app, concat_app. simpl. rewrite app_nil_r.
    unfold MidiToStdin.encode_event at 2. rewrite !app_assoc.
    eexists _, EventLoop.char_LF. split; [done | by left].
Qed.

(** [flush_buf] when [write] takes everything. *)
Lemma flush_buf_complete write w events :
  write (MidiToStdin.writes w) (MidiToStdin.payload w events)
  = Z.of_nat (length (MidiToStdin.payload w events)) →
  let w' := (MidiToStdin.flush_buf write (MidiToStdin.payload w events) w).2 in
  MidiToStdin.stdout w' = MidiToStdin.stdout w ++ MidiToStdin.payload w events
  ∧ MidiToStdin.line_completed w' = true
  ∧ MidiToStdin.port w' = MidiToStdin.port w.
Proof.
  intros Hwrite w'. subst w'. unfold MidiToStdin.flush_buf. cbv zeta.
  rewrite Hwrite, Nat2Z.id, firstn_all.
  destruct (decide (MidiToStdin.payload w events = [])) as [Hnil|Hne].
  - rewrite Hnil. simpl. split; [done|]. split; [|done].
    unfold MidiToStdin.payload in Hnil.
    by destruct (MidiToStdin.line_completed w).
  - destruct (payload_last w events Hne) as (init & c & Heq & Hc).
    rewrite Heq. rewrite length_app. simpl length.
    destruct (Z.ltb_spec (Z.of_nat (length init + 1)) 1) as [|_]; [lia|].
    rewrite Z.ltb_irrefl. simpl.
    replace (Z.to_nat (Z.of_nat (length init + 1) - 1)) with (length init) by lia.
    rewrite nth_middle. split; [done|]. split; [|done].
    by destruct Hc as [-> | ->].
Qed.

Lemma encode_event_length_le m events :
  m ∈ events →
  (length (MidiToStdin.encode_event m)
   ≤ length (concat (map MidiToStdin.encode_event events)))%nat.
Proof.
  induction events as [|e events IH]; [by intros ?%elem_of_nil|].
  simpl. rewrite length_app.
  intros [->|Hin]%elem_of_cons; [lia|]. specialize (IH Hin). lia.
Qed.

(** X10.  What one callback sends, the other program receives.  When the
    characters of a callback fit the buffer and [write] takes them all,
    standard output receives the marker (if the last line was left
    unfinished) and the encoded events; fed to the loop of
    [jack-stdin-to-midi.c], whose line buffer may hold the unfinished
    line, these bytes enqueue exactly the events, in order, and nothing
    is reported.  Afterwards the line is complete on both sides. *)
Theorem tunnel_delivers_events
    (A : Allocator) (uninit : addr → nat → Z) (NDEBUG : bool)
    (write : nat → list Z → Z) (ws : MidiToStdin.World)
    (events : list (list Z))
    (wr : World) (retired live : list addr) (line : list Z) :
  MidiToStdin.port ws = true →
  (length (MidiToStdin.payload ws events) ≤ 128)%nat →
  write (MidiToStdin.writes ws) (MidiToStdin.payload ws events)
  = Z.of_nat (length (MidiToStdin.payload ws events)) →
  Forall (Forall uchar) events →
  (MidiToStdin.line_completed ws = true → line = []) →
  Queue wr retired live →
  alloc_total A →
  ∃ ws' wr' retired' live',
    MidiToStdin.process write (Some (map Some events)) ws = Ok (0, ws')
    ∧ MidiToStdin.stdout ws'
      = MidiToStdin.stdout ws ++ MidiToStdin.payload ws events
    ∧ MidiToStdin.line_completed ws' = true
    ∧ main_on_bytes A uninit NDEBUG (MidiToStdin.payload ws events) (line, wr)
      = Ok ([], wr')
    ∧ Queue wr' retired' live'
    ∧ pending wr' live' = pending wr live ++ events
    ∧ stderr wr' = stderr wr.
Proof.
  intros Hport Hlen Hwrite Hbytes Hline HQ Htotal.
  destruct (flush_buf_complete write ws events Hwrite) as (Hout & Hlc & _).
  assert (Forall (λ m, Forall uchar m ∧ (length m ≤ 511)%nat) events) as Hev.
  { apply Forall_forall. intros m Hm. split.
    - by apply (proj1 (Forall_forall _ _) Hbytes).
    - pose proof (encode_event_length_le m events Hm) as Hle.
      rewrite encode_event_length in Hle.
      rewrite payload_app, length_app in Hlen. lia. }
  destruct (main_on_bytes_encoded A uninit NDEBUG events wr retired live
              HQ Htotal Hev) as (wr' & retired' & live' & Hrun & HQ' & Hp & He).
  eexists _, wr', retired', live'.
  split; [by apply process_fits|]. split; [exact Hout|]. split; [exact Hlc|].
  split; [|done].
  unfold MidiToStdin.payload.
  destruct (MidiToStdin.line_completed ws) eqn:Hc.
  - by rewrite Hline.
  - cbn [app]. unfold main_on_bytes in *.
    rewrite on_bytes_cons, on_byte_X by done. exact Hrun.
Qed.

Lemma tunnel_delivers_events_witness :
  let write := λ (_ : nat) (bytes : list Z), Z.of_nat (length bytes) in
  let ws := MidiToStdin.mkWorld true false [57; 48] 4 in
  let events := [[144; 60; 127]; [128; 60; 0]] in
  ∃ ws' wr' retired' live',
    MidiToStdin.process write (Some (map Some events)) ws = Ok (0, ws')
    ∧ MidiToStdin.stdout ws'
      = MidiToStdin.stdout ws ++ MidiToStdin.payload ws events
    ∧ MidiToStdin.line_completed ws' = true
    ∧ main_on_bytes bump_allocator (λ _ _, 0) true
        (MidiToStdin.payload ws events) ([57; 48], initial_world 1%positive)
      = Ok ([], wr')
    ∧ Queue wr' retired' live'
    ∧ pending wr' live'
      = pending (initial_world 1%positive) [1%positive] ++ events
    ∧ stderr wr' = stderr (initial_world 1%positive).
Proof.
  intros write ws events.
  apply (tunnel_delivers_events bump_allocator (λ _ _, 0) true write ws events
           (initial_world 1%positive) [] [1%positive] [57; 48]).
  - reflexivity.
  - vm_compute. lia.
  - reflexivity.
  - repeat constructor; unfold uchar; lia.
  - intros H. discriminate H.
  - apply Queue_initial.
  - exact bump_allocator_total.
Defined.

(** ** Partial writes *)

Section PartialWrites.

Variable write : nat → list Z → Z.

Lemma framed_refl w : MidiToStdin.framed w w [].
Proof. intros Hlc. by left. Qed.

Lemma framed_trans w w1 w2 p1 p2 :
  MidiToStdin.framed w w1 p1 → MidiToStdin.framed w1 w2 p2 →
  MidiToStdin.framed w w2 (p1 ++ p2).
Proof.
  intros H1 H2 Hlc. destruct (H2 Hlc) as [[-> Hlc1]|(init & c & -> & Hc)].
  - rewrite app_nil_r. by apply H1.
  - right. exists (p1 ++ init), c. by rewrite app_assoc.
Qed.

(** [flush_buf] sends an initial part of [buf], all of it when it
    returns true, and sets [line_completed] by the last byte sent. *)
Lemma flush_buf_sent buf w :
  let r := MidiToStdin.flush_buf write buf w in
  ∃ fl, MidiToStdin.stdout r.2 = MidiToStdin.stdout w ++ fl
        ∧ MidiToStdin.port r.2 = MidiToStdin.port w
        ∧ fl `prefix_of` buf
        ∧ (r.1 = true → fl = buf)
        ∧ MidiToStdin.framed w r.2 fl.
Proof.
  intros r. subst r. unfold MidiToStdin.flush_buf. cbv zeta.
  set (written := write (MidiToStdin.writes w) buf).
  exists (take (Z.to_nat written) buf).
  destruct (Z.ltb_spec written 1) as [Hlt|Hge]; simpl.
  - split; [done|]. split; [done|]. split; [apply prefix_take|].
    split; [done|]. replace (Z.to_nat written) with 0%nat by lia.
    intros Hlc. by left.
  - destruct (Z.ltb_spec (Z.of_nat (length buf)) written) as [Hgt|Hle]; simpl.
    + split; [done|]. split; [done|]. split; [apply prefix_take|].
      split; [done|]. by intros Hlc.
    + split; [done|]. split; [done|]. split; [apply prefix_take|]. split.
      * intros ->%Z.eqb_eq. by rewrite Nat2Z.id, firstn_all.
      * intros Hlc. simpl in Hlc. right.
        assert (Z.to_nat (written - 1) < length buf)%nat as Hi by lia.
        destruct (lookup_lt_is_Some_2 buf _ Hi) as [c Hc].
        exists (take (Z.to_nat (written - 1)) buf), c. split.
        -- replace (Z.to_nat written)
             with (Datatypes.S (Z.to_nat (written - 1))) by lia.
           by apply take_S_r.
        -- rewrite (nth_lookup_Some _ _ _ _ Hc) in Hlc.
           apply orb_true_iff in Hlc as [?%Z.eqb_eq|?%Z.eqb_eq]; auto.
Qed.

Lemma put_cases c buf :
  MidiToStdin.put c buf = Stop Undefined
  ∨ MidiToStdin.put c buf = Ok (buf ++ [c]).
Proof. unfold MidiToStdin.put. destruct (_ <? _)%nat; auto. Qed.

(** What a loop has sent when it is left: [fl] has gone out; either the
    loop has run to its end with [buf'] stored, and together they are
    the characters due, or [process] has returned and [fl] is an
    initial part of them. *)
Lemma event_loop_sent bytes : ∀ buf w,
  MidiToStdin.event_loop write bytes buf w = Stop Undefined
  ∨ ∃ res w' fl,
      MidiToStdin.event_loop write bytes buf w = Ok (res, w')
      ∧ MidiToStdin.stdout w' = MidiToStdin.stdout w ++ fl
      ∧ MidiToStdin.port w' = MidiToStdin.port w
      ∧ match res with
        | Some buf' => fl ++ buf' = buf ++ flat_map MidiToStdin.encode_byte bytes
        | None => fl `prefix_of` buf ++ flat_map MidiToStdin.encode_byte bytes
        end
      ∧ MidiToStdin.framed w w' fl.
Proof.
  induction bytes as [|value bytes IH]; intros buf w.
  - right. exists (Some buf), w, []. simpl. rewrite !app_nil_r.
    split; [done|]. split; [done|]. split; [done|]. split; [done|].
    apply framed_refl.
  - rewrite event_loop_cons.
    destruct (put_cases (MidiToStdin.int_to_hex (value ≫ 4)) buf) as [->| ->];
      [by left|].
    destruct (put_cases (MidiToStdin.int_to_hex (Z.land value 15))
                (buf ++ [MidiToStdin.int_to_hex (value ≫ 4)])) as [->| ->];
      [by left|].
    set (buf2 := (buf ++ [MidiToStdin.int_to_hex (value ≫ 4)])
                 ++ [MidiToStdin.int_to_hex (Z.land value 15)]).
    assert (buf ++ flat_map MidiToStdin.encode_byte (value :: bytes)
            = buf2 ++ flat_map MidiToStdin.encode_byte bytes) as Htarget.
    { subst buf2. simpl. by rewrite <- !app_assoc. }
    rewrite Htarget.
    destruct (length buf2 <? MidiToStdin.sizeof_buf)%nat; [apply IH|].
    cbv zeta.
    destruct (flush_buf_sent buf2 w) as (fl1 & Hout1 & Hport1 & Hpre1 & Hall1 & Hfr1).
    cbv zeta in Hout1, Hport1, Hall1, Hfr1.
    destruct (MidiToStdin.flush_buf write buf2 w) as [ok w1]. simpl in *.
    destruct ok; simpl.
    + rewrite Hall1 in * by done.
      destruct (IH [] w1) as [->|(res & w' & fl & -> & Hout & Hport & Hres & Hfr)];
        [by left|].
      right. exists res, w', (buf2 ++ fl). split; [done|].
      split; [by rewrite Hout, Hout1, app_assoc|].
      split; [by rewrite Hport|]. split.
      * destruct res as [buf'|].
        -- by rewrite <- app_assoc, Hres.
        -- by apply prefix_app.
      * by eapply framed_trans.
    + right. exists None, w1, fl1. split; [done|]. split; [done|].
      split; [done|]. split; [|done]. by apply prefix_app_r.
Qed.

Lemma events_loop_sent events : ∀ buf w,
  MidiToStdin.events_loop write (map Some events) buf w = Stop Undefined
  ∨ ∃ res w' fl,
      MidiToStdin.events_loop write (map Some events) buf w = Ok (res, w')
      ∧ MidiToStdin.stdout w' = MidiToStdin.stdout w ++ fl
      ∧ MidiToStdin.port w' = MidiToStdin.port w
      ∧ match res with
        | Some buf' =>
            fl ++ buf' = buf ++ concat (map MidiToStdin.encode_event events)
        | None =>
            fl `prefix_of` buf ++ concat (map MidiToStdin.encode_event events)
        end
      ∧ MidiToStdin.framed w w' fl.
Proof.
  induction events as [|bytes events IH]; intros buf w.
  - right. exists (Some buf), w, []. simpl. rewrite !app_nil_r.
    split; [done|]. split; [done|]. split; [done|]. split; [done|].
    apply framed_refl.
  - simpl.
    destruct (event_loop_sent bytes buf w)
      as [->|(res1 & w1 & fl1 & -> & Hout1 & Hport1 & Hres1 & Hfr1)];
      [by left|].
    assert (buf ++ MidiToStdin.encode_event bytes
                ++ concat (map MidiToStdin.encode_event events)
            = (buf ++ flat_map MidiToStdin.encode_byte bytes)
              ++ [EventLoop.char_LF]
              ++ concat (map MidiToStdin.encode_event events)) as ->.
    { unfold MidiToStdin.encode_event at 1. by rewrite <- !app_assoc. }
    destruct res1 as [buf1|].
    + destruct (put_cases EventLoop.char_LF buf1) as [->| ->]; [by left|].
      destruct (IH (buf1 ++ [EventLoop.char_LF]) w1)
        as [->|(res & w' & fl & -> & Hout & Hport & Hres & Hfr)]; [by left|].
      right. exists res, w', (fl1 ++ fl). split; [done|].
      split; [by rewrite Hout, Hout1, app_assoc|].
      split; [by rewrite Hport|]. split; [|by eapply framed_trans].
      rewrite <- Hres1. rewrite <- !app_assoc in Hres.
      destruct res as [buf'|].
      * by rewrite <- !app_assoc, Hres.
      * rewrite <- !app_assoc. by apply prefix_app.
    + right. exists None, w1, fl1. split; [done|]. split; [done|].
      split; [done|]. split; [|done]. by apply prefix_app_r.
Qed.

(** One callback: an initial part of its characters has gone out. *)
Lemma process_sent w events :
  MidiToStdin.port w = true →
  MidiToStdin.process write (Some (map Some events)) w = Stop Undefined
  ∨ ∃ w' p,
      MidiToStdin.process write (Some (map Some events)) w = Ok (0, w')
      ∧ MidiToStdin.stdout w' = MidiToStdin.stdout w ++ p
      ∧ MidiToStdin.port w' = true
      ∧ p `prefix_of` MidiToStdin.payload w events
      ∧ MidiToStdin.framed w w' p.
Proof.
  intros Hport. unfold MidiToStdin.process. rewrite Hport. simpl negb.
  cbv iota zeta. rewrite payload_first_put.
  destruct (events_loop_sent events (MidiToStdin.payload w []) w)
    as [->|(res & w1 & fl1 & -> & Hout1 & Hport1 & Hres1 & Hfr1)]; [by left|].
  rewrite <- payload_app in Hres1. right.
  destruct res as [buf|].
  - destruct (flush_buf_sent buf w1) as (fl & Hout & Hport' & Hpre & _ & Hfr).
    cbv zeta in Hout, Hport', Hfr.
    exists (MidiToStdin.flush_buf write buf w1).2, (fl1 ++ fl).
    split; [done|]. split; [by rewrite Hout, Hout1, app_assoc|].
    split; [by rewrite Hport', Hport1|].
    split; [|by eapply framed_trans].
    rewrite <- Hres1. by apply prefix_app.
  - exists w1, fl1. split; [done|]. split; [done|].
    split; [by rewrite Hport1|]. done.
Qed.

End PartialWrites.

Section Receiver.

Variable A : Allocator.
Variable uninit : addr → nat → Z.
Variable NDEBUG : bool.

(** The loop of [main] on an initial part of an encoded stream: the
    messages whose lines are complete are enqueued; what is left in the
    line buffer is the unfinished line. *)
Lemma main_on_bytes_prefix events : ∀ p w retired live,
  Queue w retired live →
  alloc_total A →
  Forall (λ m, Forall uchar m ∧ (length m ≤ 511)%nat) events →
  p `prefix_of` concat (map MidiToStdin.encode_event events) →
  ∃ k line' w' retired' live',
    main_on_bytes A uninit NDEBUG p ([], w) = Ok (line', w')
    ∧ Queue w' retired' live'
    ∧ pending w' live' = pending w live ++ take k events
    ∧ stderr w' = stderr w
    ∧ (p = [] ∨ MidiToStdin.ends_line p → line' = []).
Proof.
  induction events as [|m events IH]; intros p w retired live HQ Htotal Hev Hpre.
  - apply prefix_nil_inv in Hpre as ->.
    exists 0%nat, [], w, retired, live. by rewrite app_nil_r.
  - apply Forall_cons in Hev as [[Hm Hlen] Hev].
    pose proof (Forall_impl _ _ _ (encode_hex_digits m Hm) hex_digit_plain)
      as Hplain.
    assert ((∃ q, flat_map MidiToStdin.encode_byte m = p ++ q)
            ∨ ∃ k0, p = MidiToStdin.encode_event m ++ k0
                    ∧ k0 `prefix_of` concat (map MidiToStdin.encode_event events))
      as [[q Hq]|(k0 & -> & Hk0)].
    { destruct Hpre as [rest Hpre]. simpl in Hpre. symmetry in Hpre.
      apply app_eq_inv in Hpre as [(k0 & Hp & Hrest)|(k0 & HE & Hrest)].
      - right. exists k0. split; [done | by exists rest].
      - destruct k0 as [|x k0 _] using rev_ind.
        + right. exists []. rewrite app_nil_r in HE.
          split; [by rewrite app_nil_r | apply prefix_nil].
        + left. exists k0. unfold MidiToStdin.encode_event in HE.
          rewrite app_assoc in HE. by apply app_inj_tail in HE as [? _]. }
    + (* the first line is only partly there *)
      assert (Forall (EventLoop.plain true) p) as Hpp.
      { rewrite Hq in Hplain. by apply Forall_app in Hplain as [? _]. }
      assert (length p ≤ 1022)%nat as Hlp.
      { apply (f_equal length) in Hq.
        rewrite length_app, encode_length in Hq. lia. }
      exists 0%nat, p, w, retired, live.
      split; [|split; [done|split; [by rewrite app_nil_r|split; [done|]]]].
      * unfold main_on_bytes. rewrite on_bytes_plain by done. simpl.
        by rewrite take_ge by lia.
      * intros [->|(init & c & -> & Hc)]; [done|].
        apply Forall_app in Hpp as [_ Hc'].
        apply Forall_singleton in Hc' as [Hlf Hx].
        destruct Hc as [->| ->]; [done | by destruct Hx].
    + (* the first line is there *)
      destruct (handle_line_verdict A uninit NDEBUG w retired live
                  (flat_map MidiToStdin.encode_byte m) HQ Htotal)
        as (w1 & live1 & Hrun & HQ1 & _ & Hp1 & He1 & _).
      rewrite line_verdict_encode in * by done. simpl in Hp1, He1.
      rewrite app_nil_r in He1.
      destruct (IH k0 w1 [] (live ++ live1) HQ1 Htotal Hev Hk0)
        as (k & line' & w' & retired' & live' & Hrun' & HQ' & Hp' & He' & Hends).
      exists (Datatypes.S k), line', w', retired', live'.
      split; [|split; [done|split; [|split]]].
      * unfold main_on_bytes, MidiToStdin.encode_event in *.
        rewrite on_bytes_app, on_bytes_line by done.
        rewrite take_ge by (rewrite encode_length; lia).
        unfold line_handler at 1. by rewrite Hrun.
      * by rewrite Hp', Hp1, <- app_assoc.
      * by rewrite He', He1.
      * intros [Hnil|(init & c & Heq & Hc)].
        -- by apply app_eq_nil in Hnil as [[? ?]%app_eq_nil _].
        -- apply Hends. destruct k0 as [|x k0 _] using rev_ind; [by left|].
           right. rewrite app_assoc in Heq. apply app_inj_tail in Heq as [_ ->].
           by exists k0, c.
Qed.

End Receiver.

(** One callback on events of at most 511 bytes, while the loop of
    [jack-stdin-to-midi.c] reads what it sends, with an empty line
    buffer whenever [line_completed] is set.  Whatever [write] returns,
    either [process] runs past the end of [buf], or: an initial part of
    the callback's characters goes out; the other program enqueues the
    first [k] events, unchanged and in order, and reports nothing; and
    its line buffer is empty again whenever [line_completed] is set, so
    that the next callback finds the same situation. *)
Lemma callback_delivers_prefix
    (A : Allocator) (uninit : addr → nat → Z) (NDEBUG : bool)
    (write : nat → list Z → Z) (ws : MidiToStdin.World)
    (events : list (list Z))
    (wr : World) (retired live : list addr) (line : list Z) :
  MidiToStdin.port ws = true →
  Forall (λ m, Forall uchar m ∧ (length m ≤ 511)%nat) events →
  (MidiToStdin.line_completed ws = true → line = []) →
  Queue wr retired live →
  alloc_total A →
  MidiToStdin.process write (Some (map Some events)) ws = Stop Undefined
  ∨ ∃ ws' p k line' wr' retired' live',
      MidiToStdin.process write (Some (map Some events)) ws = Ok (0, ws')
      ∧ MidiToStdin.stdout ws' = MidiToStdin.stdout ws ++ p
      ∧ p `prefix_of` MidiToStdin.payload ws events
      ∧ main_on_bytes A uninit NDEBUG p (line, wr) = Ok (line', wr')
      ∧ Queue wr' retired' live'
      ∧ pending wr' live' = pending wr live ++ take k events
      ∧ stderr wr' = stderr wr
      ∧ MidiToStdin.port ws' = true
      ∧ (MidiToStdin.line_completed ws' = true → line' = []).
Proof.
  intros Hport Hev Hline HQ Htotal.
  destruct (process_sent write ws events Hport)
    as [?|(ws' & p & Hrun & Hout & Hport' & Hpre & Hfr)]; [by left|].
  right. exists ws', p.
  unfold MidiToStdin.payload in Hpre.
  destruct (MidiToStdin.line_completed ws) eqn:Hlc.
  - rewrite Hline by done. simpl in Hpre.
    destruct (main_on_bytes_prefix A uninit NDEBUG events p wr retired live
                HQ Htotal Hev Hpre)
      as (k & line' & wr' & retired' & live' & Hrun' & HQ' & Hp' & He' & Hends).
    exists k, line', wr', retired', live'.
    split; [done|]. split; [done|].
    split; [by unfold MidiToStdin.payload; rewrite Hlc|].
    do 5 (split; [done|]).
    intros Hlc'. apply Hends. destruct (Hfr Hlc') as [[? _]|?]; auto.
  - destruct p as [|c p].
    + exists 0%nat, line, wr, retired, live.
      split; [done|]. split; [done|].
      split; [apply prefix_nil|]. split; [done|]. split; [done|].
      split; [by rewrite app_nil_r|]. split; [done|]. split; [done|].
      intros Hlc'. destruct (Hfr Hlc') as [[_ ?]|(init & c & Heq & _)];
        [congruence|]. by destruct init.
    + simpl in Hpre. pose proof (prefix_cons_inv_1 _ _ _ _ Hpre) as ->.
      apply prefix_cons_inv_2 in Hpre.
      destruct (main_on_bytes_prefix A uninit NDEBUG events p wr retired live
                  HQ Htotal Hev Hpre)
        as (k & line' & wr' & retired' & live' & Hrun' & HQ' & Hp' & He' & Hends).
      exists k, line', wr', retired', live'.
      split; [done|]. split; [done|].
      split; [unfold MidiToStdin.payload; rewrite Hlc; by apply prefix_cons|].
      split.
      { unfold main_on_bytes in *. by rewrite on_bytes_cons, on_byte_X. }
      do 4 (split; [done|]).
      intros Hlc'. apply Hends.
      destruct (Hfr Hlc') as [[? _]|(init & c & Heq & Hc)]; [done|].
      destruct p as [|x p _] using rev_ind; [by left|]. right.
      rewrite app_comm_cons in Heq. apply app_inj_tail in Heq as [_ ->].
      by exists p, c.
Qed.

(** ** Decoding, then encoding *)

Lemma int_to_hex_hex_to_int c :
  hex_digit c → MidiToStdin.int_to_hex (hex_to_int c) = to_lower c.
Proof.
  unfold hex_digit, hex_to_int, MidiToStdin.int_to_hex, to_lower. leb_cases.
Qed.

Lemma encode_byte_join hi lo :
  0 ≤ hi ≤ 15 → 0 ≤ lo ≤ 15 →
  MidiToStdin.encode_byte (16 * hi + lo)
  = [MidiToStdin.int_to_hex hi; MidiToStdin.int_to_hex lo].
Proof.
  intros Hhi Hlo. unfold MidiToStdin.encode_byte.
  destruct (nibbles_split (16 * hi + lo)) as (H1 & H2 & H3);
    [unfold uchar; lia|].
  replace (Z.shiftr (16 * hi + lo) 4) with hi by lia.
  by replace (Z.land (16 * hi + lo) 15) with lo by lia.
Qed.

(** X12.  Decoding a line and encoding the result gives the line back in
    lower case.  For a line of hex digits of even length, the bytes that
    [handle_line] stores are all below 256, and the characters that
    [process] of [jack-midi-to-stdin.c] writes for them are those of the
    line, with [A]-[F] turned into [a]-[f], followed by a line feed. *)
Theorem decode_then_encode_lowercases (line : list Z) :
  Nat.even (length line) = true →
  Forall hex_digit line →
  Forall uchar (decode_line line)
  ∧ MidiToStdin.encode_event (decode_line line)
    = map to_lower line ++ [EventLoop.char_LF].
Proof.
  intros Heven Hhex.
  assert (Forall uchar (decode_line line)
          ∧ flat_map MidiToStdin.encode_byte (decode_line line)
            = map to_lower line) as [Hu Hflat];
    [|split; [done|]; unfold MidiToStdin.encode_event; by rewrite Hflat].
  revert Heven Hhex. induction line as [| x | x y line IH] using list_pair_ind;
    intros Heven Hhex; [done..|].
  apply Forall_cons in Hhex as [Hx Hhex]. apply Forall_cons in Hhex as [Hy Hhex].
  destruct IH as [IHu IHf]; [done..|].
  pose proof (hex_to_int_range x Hx). pose proof (hex_to_int_range y Hy).
  change (decode_line (x :: y :: line))
    with ((16 * hex_to_int x + hex_to_int y) :: decode_line line).
  split.
  - constructor; [unfold uchar; lia | done].
  - change (flat_map MidiToStdin.encode_byte
              ((16 * hex_to_int x + hex_to_int y) :: decode_line line))
      with (MidiToStdin.encode_byte (16 * hex_to_int x + hex_to_int y)
            ++ flat_map MidiToStdin.encode_byte (decode_line line)).
    rewrite encode_byte_join, IHf by done.
    by rewrite !int_to_hex_hex_to_int.
Qed.

Lemma decode_then_encode_lowercases_witness :
  Forall uchar (decode_line [57; 48; 51; 67; 55; 102])
  ∧ MidiToStdin.encode_event (decode_line [57; 48; 51; 67; 55; 102])
    = map to_lower [57; 48; 51; 67; 55; 102] ++ [EventLoop.char_LF].
Proof.
  apply (decode_then_encode_lowercases [57; 48; 51; 67; 55; 102]).
  - reflexivity.
  - repeat constructor; by vm_compute.
Defined.

(** ** The name in the usage message *)

Lemma usage_loop_app l1 l2 : ∀ i start,
  Cli.usage_loop (l1 ++ l2) i start
  = Cli.usage_loop l2 (i + length l1) (Cli.usage_loop l1 i start).
Proof.
  induction l1 as [|c l1 IH]; intros i start; simpl.
  - by rewrite Nat.add_0_r.
  - rewrite IH. f_equal. lia.
Qed.

Lemma usage_loop_no_slash l : ∀ i start,
  Cli.char_slash ∉ l → Cli.usage_loop l i start = start.
Proof.
  induction l as [|c l IH]; intros i start Hl; [done|].
  apply not_elem_of_cons in Hl as [Hc Hl]. simpl.
  destruct (Z.eqb_spec c Cli.char_slash) as [->|_]; [done|]. by apply IH.
Qed.

(** X13.  The usage message names the program by the last component of
    [argv[0]].  Whatever directories [argv[0]] goes through, the name
    printed is what follows its last ['/']; when nothing follows it, or
    [argv[0]] is empty or NULL, the name in the source is printed. *)
Theorem usage_prints_last_component
    (fallback dir base : list Z) :
  Cli.char_slash ∉ base →
  dir = [] ∨ last dir = Some Cli.char_slash →
  Cli.usage fallback (Some (dir ++ base))
  = (if decide (base = []) then fallback else base)
  ∧ Cli.usage fallback None = fallback.
Proof.
  intros Hbase Hdir. split; [|done]. unfold Cli.usage. cbv zeta.
  assert (Cli.usage_loop (dir ++ base) 0 0 = length dir) as ->.
  { rewrite usage_loop_app, usage_loop_no_slash by done.
    destruct Hdir as [->|Hlast]; [done|].
    apply last_Some in Hlast as [init ->].
    rewrite usage_loop_app. simpl. rewrite length_app. simpl. lia. }
  rewrite drop_app_length. by destruct base.
Qed.

Lemma usage_prints_last_component_witness :
  Cli.usage [106; 97; 99; 108; 45; 99; 118]
    (Some ([46; 47; 98; 105; 110; 47] ++ [99; 118]))
  = (if decide ([99; 118] = []) then [106; 97; 99; 108; 45; 99; 118]
     else [99; 118])
  ∧ Cli.usage [106; 97; 99; 108; 45; 99; 118] None
    = [106; 97; 99; 108; 45; 99; 118].
Proof.
  apply (usage_prints_last_component [106; 97; 99; 108; 45; 99; 118]
           [46; 47; 98; 105; 110; 47] [99; 118]).
  - intros H. by repeat (apply elem_of_cons in H as [H|H]; [discriminate H|]);
      apply elem_of_nil in H.
  - by right.
Defined.

Lemma overlong_midi_line_rejected_witness :
  ∃ w', main_on_bytes bump_allocator (λ _ _, 0) true
          (repeat 48 1024 ++ [EventLoop.char_LF])
          ([], initial_world 1%positive)
        = Ok ([], w')
    ∧ stderr w' = stderr (initial_world 1%positive) ++ [BadMessageLength]
    ∧ Queue w' [] [1%positive]
    ∧ pending w' [1%positive] = pending (initial_world 1%positive) [1%positive].
Proof.
  apply (overlong_midi_line_rejected bump_allocator (λ _ _, 0) true
           (initial_world 1%positive) [] [1%positive] (repeat 48 1024)).
  - apply Queue_initial.
  - apply Forall_forall. intros b Hb%list_elem_of_In%repeat_spec. by subst b.
  - rewrite repeat_length. lia.
Defined.

(** ** The log under every schedule *)

Lemma drop1_app {X} (l k : list X) : l ≠ [] → drop 1 (l ++ k) = drop 1 l ++ k.
Proof. by destruct l. Qed.

Lemma payload_map_ext h h' (l : list addr) :
  (∀ x, x ∈ l → h' !! x = h !! x) → map (payload h') l = map (payload h) l.
Proof.
  intros Hl. apply map_ext_in. intros x Hx%list_elem_of_In.
  unfold payload. by rewrite Hl.
Qed.

Lemma payload_relink h a n v x :
  h !! a = Some n →
  payload (<[a := mkNode v (message n)]> h) x = payload h x.
Proof.
  intros Ha. unfold payload. destruct (decide (x = a)) as [->|Hne].
  - by rewrite lookup_insert_eq, Ha.
  - by rewrite lookup_insert_ne.
Qed.

Section InterleavingLog.

Variable A : Allocator.
Variable uninit : addr → nat → Z.
Variable NDEBUG : bool.

#[local] Abbreviation step := (step A uninit NDEBUG).
#[local] Abbreviation control_step := (control_step A uninit NDEBUG).

(** A step of the control thread that leaves the nodes of [live] and
    their order alone keeps what the real-time thread has written. *)
Lemma LogInv_realtime sys sys' log live live' :
  LogInv sys log live →
  realtime sys' = realtime sys →
  (∃ more, live' = live ++ more) →
  (∀ x, x ∈ live → payload (heap (world sys')) x = payload (heap (world sys)) x) →
  match realtime sys' with
  | RealtimeIdle => True
  | Draining node events | Publishing node events =>
      ∃ pre post,
        live' = pre ++ node :: post
        ∧ events = map (payload (heap (world sys'))) (drop 1 (pre ++ [node]))
  end.
Proof.
  intros [_ Hr] -> [more ->] Hpay.
  assert (∀ node events,
    (∃ pre post, live = pre ++ node :: post
       ∧ events = map (payload (heap (world sys))) (drop 1 (pre ++ [node]))) →
    ∃ pre post, live ++ more = pre ++ node :: post
       ∧ events = map (payload (heap (world sys'))) (drop 1 (pre ++ [node])))
    as Hgo.
  { intros node events (pre & post & -> & ->).
    exists pre, (post ++ more). split; [by rewrite <- app_assoc|].
    apply map_ext_in. intros x Hx%list_elem_of_In. symmetry. apply Hpay.
    apply (subseteq_drop 1) in Hx.
    apply elem_of_app in Hx as [Hx|Hx%list_elem_of_singleton].
    - apply elem_of_app. by left.
    - subst x. apply elem_of_app. right. by left. }
  destruct (realtime sys); [done|by apply Hgo..].
Qed.

Lemma reclaim_begin_keeps_log sys log tofree retired live :
  SystemQueue sys tofree retired live →
  LogInv sys log live →
  control sys = ControlIdle →
  ∃ sys', step ReclaimBegin sys = Ok sys'
    ∧ SystemQueue sys' retired [] live
    ∧ LogInv sys' (step_log ReclaimBegin sys log) live.
Proof.
  destruct sys as [w c r]. simpl.
  intros (Hnd & Hret & Hlive & Hc & Ht & Hr) HL ->.
  simpl in *. subst tofree. eexists. split; [|split].
  - apply step_control; [done|]. simpl. by destruct r.
  - unfold SystemQueue. simpl in *. by repeat split.
  - destruct HL as [Hacc Hrt]. unfold linking, pending in *. simpl in *.
    split; [|done].
    unfold step_log, step_accepts, step_emits. simpl.
    rewrite !app_nil_r in *. by destruct r.
Qed.

Lemma step_log_control a sys log :
  a ≠ DrainEnd → (∀ line, a ≠ Produce line) →
  step_log a sys log = log.
Proof.
  intros Hd Hp. unfold step_log, step_accepts, step_emits.
  destruct log as [acc em]. simpl.
  destruct a; try done; rewrite ?app_nil_r; try done.
  by destruct (Hp line).
Qed.

Lemma reclaim_step_keeps_log sys log tofree retired live node hd :
  SystemQueue sys tofree retired live →
  LogInv sys log live →
  control sys = Freeing node hd →
  ∃ sys' tofree', step ReclaimStep sys = Ok sys'
    ∧ SystemQueue sys' tofree' retired live
    ∧ LogInv sys' (step_log ReclaimStep sys log) live.
Proof.
  rewrite step_log_control by done.
  destruct sys as [w c r]. simpl.
  intros (Hnd & Hret & Hlive & Hc & Ht & Hr) HL ->.
  simpl in *. destruct Hc as [Hfree ->].
  assert (malloc_head (state w) ∈ retired ++ live) as Hmh.
  { destruct retired as [|x retired].
    - simpl in Hret. injection Hret as ->.
      destruct live as [|y live]; [done|]. destruct Hlive as [[= <-] _].
      by left.
    - destruct Hret as [[= <-] _]. by left. }
  destruct (decide (node = Some (malloc_head (state w)))) as [->|Hne].
  - assert (tofree = []) as ->.
    { destruct tofree as [|x tofree]; [done|]. destruct Hfree as [[= <-] _].
      apply NoDup_app in Hnd as (_ & Hdisj & _). exfalso.
      eapply Hdisj; [by left | done]. }
    exists (mkSystem w ControlIdle r), [].
    split; [|split; [by unfold SystemQueue|]].
    + apply step_control; simpl; [by rewrite decide_True | by destruct r].
    + destruct HL as [Hacc Hrt]. by split.
  - destruct tofree as [|a tofree]; [done|].
    destruct Hfree as [-> (n & Hn & Hfree)].
    apply NoDup_cons in Hnd as [Ha Hnd].
    assert (∀ l, (∀ x, x ∈ l → x ≠ a) → ∀ b c,
              lseg (heap w) b l c → lseg (delete a (heap w)) b l c) as Hkeep.
    { intros l Hl b c'. apply lseg_ext. intros x Hx.
      apply lookup_delete_ne. intros <-. by eapply Hl. }
    assert (∀ x, x ∈ live → x ≠ a) as Hla.
    { intros x Hx ->. apply Ha. apply elem_of_app. right.
      apply elem_of_app. by right. }
    eexists (mkSystem (mkWorld (delete a (heap w)) (state w) (stderr w))
                      (Freeing (next n) (malloc_head (state w))) r), tofree.
    split; [|split].
    + apply step_control; [|by destruct r]. simpl.
      rewrite decide_False by done.
      erewrite bind_ok; [|by apply assert_ok].
      rewrite (bind_ok _ _ _ _ _ (load_next_ok _ _ _ Hn)).
      by rewrite (bind_ok _ _ _ _ _ (free_ok _ _ _ Hn)).
    + unfold SystemQueue. simpl in *. split; [done|].
      split; [apply Hkeep; [|done]|split; [by apply Hkeep|]].
      * intros x Hx ->. apply Ha. apply elem_of_app. right.
        apply elem_of_app. by left.
      * split; [|done]. split; [|done]. apply Hkeep; [|done].
        intros x Hx ->. apply Ha. apply elem_of_app. by left.
    + assert (∀ x, x ∈ live →
                payload (delete a (heap w)) x = payload (heap w) x) as Hpay.
      { intros x Hx. unfold payload. rewrite lookup_delete_ne; [done|].
        intros <-. by apply (Hla a). }
      split.
      * destruct HL as [Hacc _]. unfold linking, pending in *. simpl in *.
        rewrite Hacc. do 2 f_equal. apply map_ext_in.
        intros x Hx%list_elem_of_In. symmetry. apply Hpay.
        by apply (subseteq_drop 1).
      * eapply (LogInv_realtime _ _ _ _ _ HL); simpl; [done| |done].
        exists []. by rewrite app_nil_r.
Qed.

Lemma produce_keeps_log sys log tofree retired live line :
  SystemQueue sys tofree retired live →
  LogInv sys log live →
  control sys = ControlIdle →
  step (Produce line) sys = Stop Aborted
  ∨ ∃ sys', step (Produce line) sys = Ok sys'
      ∧ SystemQueue sys' tofree retired live
      ∧ LogInv sys' (step_log (Produce line) sys log) live.
Proof.
  destruct sys as [w c r]. simpl.
  intros (Hnd & Hret & Hlive & Hc & Ht & Hr) HL ->.
  simpl in *. subst tofree. simpl in Hnd.
  assert (step_log (Produce line) (mkSystem w ControlIdle r) log
          = mkLog (accepted log ++ verdict_messages (line_verdict line))
                  (emitted log)) as ->.
  { unfold step_log, step_emits. simpl. by rewrite app_nil_r. }
  unfold StdinToMidi.step. simpl. rewrite land_1_even.
  unfold line_verdict.
  destruct (Nat.even (length line)) eqn:Heven; simpl; cycle 1.
  { right. eexists. split; [by destruct r|]. split; [by unfold SystemQueue|].
    destruct HL as [Hacc Hrt]. unfold linking, pending in *. simpl in *.
    rewrite app_nil_r. split; [done|]. by destruct r. }
  destruct (malloc A (heap w) (sizeof_Node + length line / 2)) as [node|] eqn:Hm;
    cycle 1.
  { left. erewrite bind_stop; [done|]. by apply node_new_abort. }
  right. pose proof (malloc_fresh A _ _ _ Hm) as Hfresh.
  assert (node ∉ retired ++ live) as Hnot.
  { intros [Hin|Hin]%elem_of_app.
    - destruct (lseg_allocated _ _ _ _ _ Hret Hin) as [? Hs]. congruence.
    - destruct (lseg_allocated _ _ _ _ _ Hlive Hin) as [? Hs]. congruence. }
  assert (∀ nd l b c, (∀ x, x ∈ l → x ∈ retired ++ live) →
            lseg (heap w) b l c → lseg (<[node := nd]> (heap w)) b l c) as Hkeep.
  { intros nd l b c' Hl. apply lseg_ext. intros x Hx.
    apply lookup_insert_ne. intros <-. by apply Hnot, Hl. }
  assert (∀ nd x, x ∈ live →
            payload (<[node := nd]> (heap w)) x = payload (heap w) x) as Hpay.
  { intros nd x Hx. unfold payload. rewrite lookup_insert_ne; [done|].
    intros <-. apply Hnot. apply elem_of_app. by right. }
  erewrite bind_ok; [|apply node_new_NULL_ok; exact Hm].
  erewrite bind_ok; cycle 1.
  { eapply decode_loop_ok.
    - simpl. apply lookup_insert_eq.
    - rewrite length_map, length_seq. pose proof (even_div2 _ Heven).
      change (0 + length line)%nat with (length line).
      change ((Nat.divmod (length line) 1 0 1).1) with (length line / 2)%nat.
      lia. }
  simpl. rewrite insert_insert_eq. rewrite decode_bytes_first_bad.
  destruct (first_bad line) as [bad|] eqn:Hbad.
  - rewrite bool_decide_eq_false_2 by done.
    simpl. eexists. split; [by destruct r|]. split.
    + unfold SystemQueue. simpl.
      split; [done|]. split; [apply Hkeep; [|done]|split; [apply Hkeep; [|done]|]].
      * intros x Hx. apply elem_of_app. by left.
      * intros x Hx. apply elem_of_app. by right.
      * done.
    + split.
      * destruct HL as [Hacc _]. unfold linking, pending in *. simpl in *.
        rewrite !app_nil_r in *. rewrite Hacc. f_equal. apply map_ext_in.
        intros x Hx%list_elem_of_In. symmetry. apply Hpay.
        by apply (subseteq_drop 1).
      * eapply (LogInv_realtime _ _ _ _ _ HL); simpl; [by destruct r| |].
        -- exists []. by rewrite app_nil_r.
        -- destruct r; simpl; apply Hpay.
  - rewrite bool_decide_eq_true_2 by done.
    erewrite bind_ok; cycle 1.
    { apply assert_ok. erewrite bind_ok; [|
        apply load_next_ok; simpl; apply lookup_insert_eq]. reflexivity. }
    simpl. eexists. split; [by destruct r|]. split.
    + unfold SystemQueue. simpl.
      split; [done|]. split; [apply Hkeep; [|done]|split; [apply Hkeep; [|done]|]].
      * intros x Hx. apply elem_of_app. by left.
      * intros x Hx. apply elem_of_app. by right.
      * split; [done|]. split; [|done]. split; [done|]. split; [done|].
        split; [|done]. eexists. apply lookup_insert_eq.
    + split.
      * destruct HL as [Hacc _]. unfold linking, pending in *. simpl in *.
        rewrite !app_nil_r in *. rewrite Hacc, <- app_assoc. do 2 f_equal.
        -- apply map_ext_in.
           intros x Hx%list_elem_of_In. symmetry. apply Hpay.
           by apply (subseteq_drop 1).
        -- unfold payload. rewrite lookup_insert_eq. simpl. f_equal.
           symmetry. apply decode_bytes_whole; [by apply first_bad_None|done|].
           by rewrite length_map, length_seq.
      * eapply (LogInv_realtime _ _ _ _ _ HL); simpl; [by destruct r| |].
        -- exists []. by rewrite app_nil_r.
        -- destruct r; simpl; apply Hpay.
Qed.

Lemma push_end_keeps_log sys log tofree retired live old node :
  SystemQueue sys tofree retired live →
  LogInv sys log live →
  control sys = Linking old node →
  ∃ sys', step PushEnd sys = Ok sys'
    ∧ SystemQueue sys' tofree retired (live ++ [node])
    ∧ LogInv sys' (step_log PushEnd sys log) (live ++ [node]).
Proof.
  rewrite step_log_control by done.
  destruct sys as [w c r]. simpl.
  intros (Hnd & Hret & Hlive & Hc & Ht & Hr) HL ->.
  simpl in *. subst tofree. simpl in *.
  destruct Ht as (Hlast & Htail & [m Hnode] & Hnot).
  destruct (lseg_last _ _ _ _ Hlive Hlast) as (nt & Hold & _).
  apply not_elem_of_app in Hnot as [Hnr Hnl].
  pose proof Hnd as (Hndr & Hdisj & Hndl)%NoDup_app.
  pose proof (last_Some_elem_of _ _ Hlast) as Hin.
  eexists. split; [|split].
  - unfold StdinToMidi.step. simpl.
    rewrite (bind_ok _ _ _ _ _ (store_next_ok _ _ _ _ Hold)). simpl.
    by destruct r.
  - unfold SystemQueue. simpl. split; [|split; [|split; [|split; [done|split]]]].
    + rewrite app_assoc. apply NoDup_app. split; [done|].
      split; [|apply NoDup_singleton].
      intros x Hx ->%list_elem_of_singleton.
      apply elem_of_app in Hx as [?|?]; done.
    + eapply lseg_ext; [|exact Hret]. intros x Hx.
      apply lookup_insert_ne. intros <-. by apply (Hdisj _ Hx).
    + by apply lseg_push with (m := m).
    + rewrite last_snoc. by rewrite Htail.
    + destruct r; [done| |]; apply elem_of_app; by left.
  - split.
    + destruct HL as [Hacc _]. unfold linking, pending in *. simpl in *.
      rewrite app_nil_r, Hacc. f_equal.
      rewrite drop1_app by (by destruct live).
      rewrite map_app. simpl. f_equal.
      * apply map_ext_in. intros x _. symmetry. by apply payload_relink.
      * by rewrite payload_relink.
    + eapply (LogInv_realtime _ _ _ _ _ HL); simpl; [by destruct r| |].
      * by exists [node].
      * destruct r; simpl; intros x _; by apply payload_relink.
Qed.

Lemma drain_begin_keeps_log sys log tofree retired live :
  SystemQueue sys tofree retired live →
  LogInv sys log live →
  realtime sys = RealtimeIdle →
  ∃ sys', step DrainBegin sys = Ok sys'
    ∧ SystemQueue sys' tofree retired live
    ∧ LogInv sys' (step_log DrainBegin sys log) live.
Proof.
  rewrite step_log_control by done.
  destruct sys as [w c r]. simpl.
  intros (Hnd & Hret & Hlive & Hc & Ht & Hr) [Hacc _] ->.
  assert (∃ rest, live = head (state w) :: rest) as [rest ->].
  { destruct live as [|x live]; [done|]. destruct Hlive as [[= <-] _]. eauto. }
  eexists. split; [|split].
  - unfold StdinToMidi.step. simpl. by destruct c.
  - unfold SystemQueue. simpl. do 5 (split; [done|]). by left.
  - split.
    + unfold linking, pending in *. simpl in *. by destruct c.
    + simpl. by exists [], rest.
Qed.

Lemma drain_step_keeps_log sys log tofree retired live node events :
  SystemQueue sys tofree retired live →
  LogInv sys log live →
  realtime sys = Draining node events →
  ∃ sys', step DrainStep sys = Ok sys'
    ∧ SystemQueue sys' tofree retired live
    ∧ LogInv sys' (step_log DrainStep sys log) live.
Proof.
  rewrite step_log_control by done.
  destruct sys as [w c r]. simpl.
  intros (Hnd & Hret & Hlive & Hc & Ht & Hr) [Hacc Hrt] ->.
  simpl in Hr, Hrt, Hlive, Hret, Hnd, Hc, Ht.
  destruct Hrt as (pre & post & -> & ->).
  destruct (lseg_app_inv _ _ _ _ _ Hlive) as (mid & Hpre & Hpost).
  destruct Hpost as [-> (n & Hn & Hpost)].
  assert (control_step DrainStep c w = Ok (c, w)) as Hcs by (by destruct c).
  destruct (next n) as [node'|] eqn:Hnext.
  - destruct post as [|x post]; [done|].
    destruct Hpost as [[= <-] (n' & Hn' & Hpost)].
    eexists. split; [|split].
    + unfold StdinToMidi.step. cbn [control world realtime]. rewrite Hcs. simpl.
      rewrite (bind_ok _ _ _ _ _ (load_next_ok _ _ _ Hn)), Hnext.
      by rewrite (bind_ok _ _ _ _ _ (deref_ok _ _ _ Hn')).
    + unfold SystemQueue. simpl. do 5 (split; [done|]).
      apply elem_of_app. right. right. by left.
    + split.
      * unfold linking, pending in *. simpl in *. by destruct c.
      * simpl. exists (pre ++ [node]), post.
        split; [by rewrite <- app_assoc|].
        rewrite (drop1_app (pre ++ [node])) by (by destruct pre).
        rewrite map_app. simpl. unfold payload at 3. by rewrite Hn'.
  - eexists. split; [|split].
    + unfold StdinToMidi.step. cbn [control world realtime]. rewrite Hcs. simpl.
      by rewrite (bind_ok _ _ _ _ _ (load_next_ok _ _ _ Hn)), Hnext.
    + by unfold SystemQueue.
    + split.
      * unfold linking, pending in *. simpl in *. by destruct c.
      * simpl. by exists pre, post.
Qed.

Lemma drain_end_keeps_log sys log tofree retired live node events :
  SystemQueue sys tofree retired live →
  LogInv sys log live →
  realtime sys = Publishing node events →
  ∃ sys' pre post, step DrainEnd sys = Ok sys'
    ∧ live = pre ++ node :: post
    ∧ SystemQueue sys' tofree (retired ++ pre) (node :: post)
    ∧ LogInv sys' (step_log DrainEnd sys log) (node :: post).
Proof.
  destruct sys as [w c r]. simpl.
  intros (Hnd & Hret & Hlive & Hc & Ht & Hr) [Hacc Hrt] ->.
  simpl in Hr, Hrt, Hlive, Hret, Hnd, Hc, Ht.
  destruct Hrt as (pre & post & -> & ->).
  destruct (lseg_app_inv _ _ _ _ _ Hlive) as (mid & Hpre & Hpost).
  assert (mid = Some node) as -> by (by destruct Hpost as [-> _]).
  assert (control_step DrainEnd c w = Ok (c, w)) as Hcs by (by destruct c).
  eexists _, pre, post. split; [|split; [done|split]].
  - unfold StdinToMidi.step. cbn [control world realtime]. by rewrite Hcs.
  - unfold SystemQueue. simpl.
    assert (last (node :: post) = last (pre ++ node :: post)) as Hlast.
    { rewrite last_app. by destruct (last (node :: post)) eqn:E;
        [|apply last_None in E]. }
    split; [by rewrite <- (app_assoc retired)|].
    split; [by eapply lseg_app|]. split; [done|]. split; [done|].
    split; [|done]. destruct c; rewrite ?Hlast; try done.
    destruct Ht as (? & ? & ? & Hnot). do 3 (split; [done|]).
    by rewrite <- (app_assoc retired).
  - split; [|done].
    unfold step_log, step_accepts, step_emits, linking, pending in *.
    simpl in *. rewrite app_nil_r, Hacc.
    replace (pre ++ node :: post) with ((pre ++ [node]) ++ post)
      by (by rewrite <- app_assoc).
    rewrite (drop1_app (pre ++ [node])) by (by destruct pre).
    rewrite map_app, <- !app_assoc. by destruct c.
Qed.

Lemma step_keeps_log a sys log tofree retired live :
  SystemQueue sys tofree retired live →
  LogInv sys log live →
  step a sys = Stop Aborted
  ∨ ∃ sys' tofree' retired' live',
      step a sys = Ok sys'
      ∧ SystemQueue sys' tofree' retired' live'
      ∧ LogInv sys' (step_log a sys log) live'.
Proof.
  intros HQ HL.
  assert (step a sys = Ok sys → step_log a sys log = log →
          step a sys = Stop Aborted
          ∨ ∃ sys' tofree' retired' live',
              step a sys = Ok sys'
              ∧ SystemQueue sys' tofree' retired' live'
              ∧ LogInv sys' (step_log a sys log) live')
    as Hskip.
  { intros Hs Hl. right. exists sys, tofree, retired, live.
    by rewrite Hs, Hl. }
  assert (∀ acc em, mkLog (acc ++ []) (em ++ []) = mkLog acc em) as Hnil.
  { intros acc em. by rewrite !app_nil_r. }
  destruct a.
  - destruct (control sys) eqn:Hc;
      [|apply Hskip; [destruct sys as [? ? []]; simpl in *; by subst
                     |by apply step_log_control]..].
    destruct (reclaim_begin_keeps_log _ _ _ _ _ HQ HL Hc) as (sys' & ? & ? & ?).
    right. eauto 10.
  - destruct (control sys) eqn:Hc;
      [apply Hskip; [destruct sys as [? ? []]; simpl in *; by subst
                    |by apply step_log_control]| |
       apply Hskip; [destruct sys as [? ? []]; simpl in *; by subst
                    |by apply step_log_control]].
    destruct (reclaim_step_keeps_log _ _ _ _ _ _ _ HQ HL Hc)
      as (sys' & ? & ? & ? & ?).
    right. eauto 10.
  - destruct (control sys) eqn:Hc;
      [|apply Hskip; [destruct sys as [? ? []]; simpl in *; by subst
                     |unfold step_log, step_accepts, step_emits;
                      rewrite Hc; destruct log; apply Hnil]..].
    destruct (produce_keeps_log _ _ _ _ _ line HQ HL Hc)
      as [?|(sys' & ? & ? & ?)]; [by left|]. right. eauto 10.
  - destruct (control sys) eqn:Hc;
      [apply Hskip; [destruct sys as [? ? []]; simpl in *; by subst
                    |by apply step_log_control]..|].
    destruct (push_end_keeps_log _ _ _ _ _ _ _ HQ HL Hc) as (sys' & ? & ? & ?).
    right. eauto 10.
  - destruct (realtime sys) eqn:Hr;
      [|apply Hskip; [destruct sys as [? [] ?]; simpl in *; by subst
                     |by apply step_log_control]..].
    destruct (drain_begin_keeps_log _ _ _ _ _ HQ HL Hr) as (sys' & ? & ? & ?).
    right. eauto 10.
  - destruct (realtime sys) eqn:Hr;
      [apply Hskip; [destruct sys as [? [] ?]; simpl in *; by subst
                    |by apply step_log_control]| |
       apply Hskip; [destruct sys as [? [] ?]; simpl in *; by subst
                    |by apply step_log_control]].
    destruct (drain_step_keeps_log _ _ _ _ _ _ _ HQ HL Hr) as (sys' & ? & ? & ?).
    right. eauto 10.
  - destruct (realtime sys) eqn:Hr;
      [apply Hskip; [destruct sys as [? [] ?]; simpl in *; by subst
                    |unfold step_log, step_accepts, step_emits;
                     rewrite Hr; destruct log; apply Hnil]..|].
    destruct (drain_end_keeps_log _ _ _ _ _ _ _ HQ HL Hr)
      as (sys' & pre & post & ? & ? & ? & ?).
    right. eauto 10.
Qed.

Lemma steps_keep_log schedule : ∀ sys log tofree retired live,
  SystemQueue sys tofree retired live →
  LogInv sys log live →
  steps_log A uninit NDEBUG schedule sys log = Stop Aborted
  ∨ ∃ sys' log' tofree' retired' live',
      steps_log A uninit NDEBUG schedule sys log = Ok (sys', log')
      ∧ SystemQueue sys' tofree' retired' live'
      ∧ LogInv sys' log' live'.
Proof.
  induction schedule as [|a schedule IH]; intros sys log tofree retired live HQ HL.
  - right. by exists sys, log, tofree, retired, live.
  - simpl.
    destruct (step_keeps_log a sys log _ _ _ HQ HL)
      as [Hs | (sys' & ? & ? & ? & Hs & HQ' & HL')]; rewrite Hs; [by left|].
    by eapply IH.
Qed.

End InterleavingLog.

(** X14.  Messages in order under every schedule.  Let the two threads
    advance one shared access at a time, in any order, from the queue
    that [main] builds, and log the message of every line that
    [handle_line] accepts and the events of every callback that ends.
    Unless [malloc] fails, after any number of steps the events emitted
    so far, followed by those that the callback in progress has written,
    are an initial part of the messages accepted so far: no message is
    invented, duplicated or reordered.  The accepted messages that are
    not yet emitted are those waiting in the queue, followed by the one
    that [push_back] is about to link. *)
Theorem interleaved_messages_in_order
    (A : Allocator) (uninit : addr → nat → Z) (NDEBUG : bool)
    (blank : addr) (schedule : list action) :
  let run := steps_log A uninit NDEBUG schedule
               (mkSystem (initial_world blank) ControlIdle RealtimeIdle)
               (mkLog [] []) in
  run = Stop Aborted
  ∨ ∃ sys log tofree retired live,
      run = Ok (sys, log)
      ∧ SystemQueue sys tofree retired live
      ∧ emitted log ++ in_flight sys `prefix_of` accepted log
      ∧ accepted log
        = emitted log ++ pending (world sys) live ++ linking sys.
Proof.
  intros run. subst run.
  destruct (steps_keep_log A uninit NDEBUG schedule
              (mkSystem (initial_world blank) ControlIdle RealtimeIdle)
              (mkLog [] []) [] [] [blank])
    as [?|(sys & log & tofree & retired & live & Hrun & HQ & Hacc & Hrt)];
    [| |by left|].
  { unfold SystemQueue. simpl. split; [apply NoDup_singleton|].
    split; [done|]. split; [|done]. split; [done|].
    eexists. split; [apply lookup_singleton_eq | done]. }
  { by split. }
  right. exists sys, log, tofree, retired, live.
  split; [done|]. split; [done|]. split; [|done].
  rewrite Hacc. apply prefix_app. unfold in_flight, pending.
  destruct (realtime sys) as [|node events|node events];
    [apply prefix_nil|..];
    destruct Hrt as (pre & post & -> & ->);
    (replace (pre ++ node :: post) with ((pre ++ [node]) ++ post)
       by (by rewrite <- app_assoc));
    rewrite (drop1_app (pre ++ [node])) by (by destruct pre);
    rewrite map_app, <- app_assoc; apply prefix_app_r; done.
Qed.

(** Two lines, two callbacks and a reclamation, interleaved: the first
    callback starts before the first message is linked and emits it;
    the second emits the second message while [free_excess] runs. *)
Example interleaved_log_schedule :
  match steps_log bump_allocator (λ _ _, 0) true
          [Produce [57; 48; 51; 99; 55; 102]; DrainBegin; PushEnd; DrainStep;
           Produce [56; 48; 51; 99; 48; 48]; DrainStep; DrainEnd; PushEnd;
           ReclaimBegin; DrainBegin; ReclaimStep; DrainStep; DrainStep;
           ReclaimStep; DrainEnd]
          (mkSystem (initial_world 1%positive) ControlIdle RealtimeIdle)
          (mkLog [] []) with
  | Ok (sys, log) =>
      accepted log = [[144; 60; 127]; [128; 60; 0]]
      ∧ emitted log = [[144; 60; 127]; [128; 60; 0]]
      ∧ control sys = ControlIdle ∧ realtime sys = RealtimeIdle
  | Stop _ => False
  end.
Proof. by vm_compute. Qed.

(** ** The end of the input *)

Section EndOfInput.

Context {S : Type}.
Variable capacity : nat.
Variable resync : bool.
Variable handler : list Z → S → outcome S.

#[local] Abbreviation run := (EventLoop.run capacity resync handler).

(** Once standard input has left the poll set, no turn changes the
    state, whatever [poll] reports. *)
Lemma run_closed_any ks : ∀ ls : EventLoop.LoopState S,
  EventLoop.stdin_fd ls < 0 →
  ∃ c, run ks ls = Ok c ∧ EventLoop.state_of c = ls.
Proof.
  induction ks as [|k ks IH]; intros ls Hfd.
  - by exists (EventLoop.Continue ls).
  - simpl.
    destruct (wake_closed capacity resync handler k ls Hfd) as [[code ->]| ->].
    + by exists (EventLoop.Exit code ls).
    + by apply IH.
Qed.

End EndOfInput.

(** X15.  A last line without its line feed is lost.  When the input
    ends with bytes that no line feed follows, these bytes are stored in
    the line buffer and [read] then returns 0: the handler is not called
    on them, in this turn or in any later one, whatever [poll] reports.
    The run ends with the state that the handler had reached on the
    complete lines. *)
Theorem unterminated_last_line_is_lost
    {S : Type} (capacity : nat) (resync : bool)
    (handler : list Z → S → outcome S)
    (k : EventLoop.Wake) (ks : list EventLoop.Wake)
    (ls : EventLoop.LoopState S)
    (chunks : list (list Z)) (last_bytes : list Z)
    (rs : list EventLoop.read_result) (l1 : list Z) (s1 : S) :
  0 < EventLoop.poll_status k →
  EventLoop.revents0 k = 0 →
  0 ≤ EventLoop.stdin_fd ls →
  Z.land (EventLoop.revents1 k) EventLoop.POLLNVAL = 0 →
  Z.land (EventLoop.revents1 k) EventLoop.POLLIN ≠ 0 →
  EventLoop.reads k
  = map EventLoop.ReadBytes (chunks ++ [last_bytes]) ++ EventLoop.ReadEof :: rs →
  Forall (EventLoop.plain resync) last_bytes →
  EventLoop.on_bytes capacity resync handler (concat chunks)
    (EventLoop.line ls, EventLoop.user ls) = Ok (l1, s1) →
  ∃ c, EventLoop.run capacity resync handler (k :: ks) ls = Ok c
       ∧ EventLoop.user (EventLoop.state_of c) = s1
       ∧ EventLoop.line (EventLoop.state_of c)
         = l1 ++ take (capacity - 1 - length l1) last_bytes
       ∧ EventLoop.stdin_fd (EventLoop.state_of c) = -1.
Proof.
  intros Hst Hrev Hfd Hnval Hin Hreads Hplain Hrun.
  change (EventLoop.run capacity resync handler (k :: ks) ls)
    with (match EventLoop.wake capacity resync handler k ls with
          | Ok (EventLoop.Continue ls') =>
              EventLoop.run capacity resync handler ks ls'
          | r => r
          end).
  rewrite (wake_eof capacity resync handler k ls _ rs Hst Hrev Hfd Hnval Hin Hreads).
  rewrite concat_app, on_bytes_app, Hrun. simpl concat. rewrite app_nil_r.
  rewrite on_bytes_plain by done.
  destruct (run_closed_any capacity resync handler ks
              (EventLoop.mkLoopState (-1)
                 (l1 ++ take (capacity - 1 - length l1) last_bytes) s1))
    as (c & -> & Hc); [simpl; lia|].
  exists c. by rewrite Hc.
Qed.

Lemma unterminated_last_line_is_lost_witness :
  let k := EventLoop.mkWake 1 false 0 EventLoop.POLLIN
             (map EventLoop.ReadBytes ([[48; 46; 53; 10]] ++ [[49; 46; 53]])
              ++ EventLoop.ReadEof :: []) in
  ∃ c, EventLoop.run 128 false (Cv.line_handler Cv.strtof_sample true)
         (k :: [EventLoop.mkWake 1 false 16 0 []])
         (EventLoop.mkLoopState 0 [] Cv.main_init) = Ok c
       ∧ EventLoop.user (EventLoop.state_of c)
         = Cv.mkWorld Cv.float_0_5 []
       ∧ EventLoop.line (EventLoop.state_of c)
         = [] ++ take (128 - 1 - length (@nil Z)) [49; 46; 53]
       ∧ EventLoop.stdin_fd (EventLoop.state_of c) = -1.
Proof.
  intros k.
  apply (unterminated_last_line_is_lost 128 false
           (Cv.line_handler Cv.strtof_sample true) k
           [EventLoop.mkWake 1 false 16 0 []]
           (EventLoop.mkLoopState 0 [] Cv.main_init)
           [[48; 46; 53; 10]] [49; 46; 53] [] [] (Cv.mkWorld Cv.float_0_5 [])).
  - simpl. lia.
  - reflexivity.
  - simpl. lia.
  - reflexivity.
  - by vm_compute.
  - reflexivity.
  - repeat constructor; by vm_compute.
  - by vm_compute.
Defined.

(** ** Any number of callbacks *)

(** X11.  A short or failed [write] never corrupts a message.  Let
    [jack-midi-to-stdin.c] run any number of callbacks, each on events
    of at most 511 bytes, while the loop of [jack-stdin-to-midi.c] reads
    what they send, starting with an empty line buffer if
    [line_completed] is set.  Whatever [write] returns at each of its
    calls, either a callback runs past the end of [buf], or: the other
    program enqueues, for each callback in turn, the first events of
    that callback, unchanged and in order, and nothing else; it reports
    nothing; and its line buffer is empty whenever [line_completed] is
    set at the end. *)
Theorem partial_writes_never_corrupt_messages
    (A : Allocator) (uninit : addr → nat → Z) (NDEBUG : bool)
    (write : nat → list Z → Z) (cycles : list (list (list Z))) :
  ∀ (ws : MidiToStdin.World) (wr : World) (retired live : list addr)
    (line : list Z),
  MidiToStdin.port ws = true →
  Forall (Forall (λ m, Forall uchar m ∧ (length m ≤ 511)%nat)) cycles →
  (MidiToStdin.line_completed ws = true → line = []) →
  Queue wr retired live →
  alloc_total A →
  MidiToStdin.callbacks write cycles ws = Stop Undefined
  ∨ ∃ ws' out ks line' wr' retired' live',
      MidiToStdin.callbacks write cycles ws = Ok ws'
      ∧ MidiToStdin.stdout ws' = MidiToStdin.stdout ws ++ out
      ∧ main_on_bytes A uninit NDEBUG out (line, wr) = Ok (line', wr')
      ∧ Queue wr' retired' live'
      ∧ length ks = length cycles
      ∧ pending wr' live' = pending wr live ++ concat (zip_with take ks cycles)
      ∧ stderr wr' = stderr wr
      ∧ (MidiToStdin.line_completed ws' = true → line' = []).
Proof.
  induction cycles as [|events cycles IH];
    intros ws wr retired live line Hport Hev Hline HQ Htotal.
  - right. exists ws, [], [], line, wr, retired, live.
    simpl. by rewrite !app_nil_r.
  - apply Forall_cons in Hev as [Hev Hevs]. simpl.
    destruct (callback_delivers_prefix A uninit NDEBUG write ws events
                wr retired live line Hport Hev Hline HQ Htotal)
      as [->|(ws1 & p & k & line1 & wr1 & retired1 & live1
              & -> & Hout1 & _ & Hrun1 & HQ1 & Hp1 & He1 & Hport1 & Hline1)];
      [by left|].
    destruct (IH ws1 wr1 retired1 live1 line1 Hport1 Hevs Hline1 HQ1 Htotal)
      as [->|(ws' & out & ks & line' & wr' & retired' & live'
              & -> & Hout & Hrun & HQ' & Hlen & Hp & He & Hline')];
      [by left|].
    right. exists ws', (p ++ out), (k :: ks), line', wr', retired', live'.
    split; [done|]. split; [by rewrite Hout, Hout1, app_assoc|].
    split.
    { unfold main_on_bytes in *. by rewrite on_bytes_app, Hrun1. }
    split; [done|]. split; [by simpl; rewrite Hlen|].
    split; [by simpl; rewrite Hp, Hp1, <- app_assoc|].
    split; [by rewrite He, He1 | done].
Qed.

Lemma partial_writes_never_corrupt_messages_witness :
  let write := λ (k : nat) (bytes : list Z),
                 match k with
                 | 4%nat => 9
                 | 5%nat => -1
                 | _ => Z.of_nat (length bytes)
                 end in
  let ws := MidiToStdin.mkWorld true false [57; 48] 4 in
  let cycles := [[[144; 60; 127]; [128; 60; 0]]; [[176; 7; 100]]; [[224; 0; 64]]] in
  MidiToStdin.callbacks write cycles ws = Stop Undefined
  ∨ ∃ ws' out ks line' wr' retired' live',
      MidiToStdin.callbacks write cycles ws = Ok ws'
      ∧ MidiToStdin.stdout ws' = MidiToStdin.stdout ws ++ out
      ∧ main_on_bytes bump_allocator (λ _ _, 0) true out
          ([57; 48], initial_world 1%positive) = Ok (line', wr')
      ∧ Queue wr' retired' live'
      ∧ length ks = length cycles
      ∧ pending wr' live'
        = pending (initial_world 1%positive) [1%positive]
          ++ concat (zip_with take ks cycles)
      ∧ stderr wr' = stderr (initial_world 1%positive)
      ∧ (MidiToStdin.line_completed ws' = true → line' = []).
Proof.
  intros write ws cycles.
  apply (partial_writes_never_corrupt_messages bump_allocator (λ _ _, 0) true
           write cycles ws (initial_world 1%positive) [] [1%positive] [57; 48]).
  - reflexivity.
  - repeat constructor; unfold uchar; simpl; lia.
  - intros H. discriminate H.
  - apply Queue_initial.
  - exact bump_allocator_total.
Defined.

(** ** The encoder of [unnamed/part_002] *)

Section LastWritten.

Variable write : nat → list Z → Z.

#[local] Abbreviation V_event_loop := (MidiToStdinLastWritten.event_loop write).
#[local] Abbreviation V_events_loop := (MidiToStdinLastWritten.events_loop write).
#[local] Abbreviation V_do_write := (MidiToStdinLastWritten.do_write write).

(** Every call of [write] takes all that it is given. *)
#[local] Abbreviation complete :=
  (∀ (k : nat) (bytes : list Z), write k bytes = Z.of_nat (length bytes)).

Lemma V_event_loop_cons value bytes buf w :
  V_event_loop (value :: bytes) buf w
  = match MidiToStdin.put (MidiToStdin.int_to_hex (Z.shiftr value 4)) buf with
    | Stop e => Stop e
    | Ok buf =>
        match MidiToStdin.put (MidiToStdin.int_to_hex (Z.land value 15)) buf with
        | Stop e => Stop e
        | Ok buf =>
            if (length buf <? MidiToStdin.sizeof_buf)%nat
            then V_event_loop bytes buf w
            else
              let r := V_do_write buf w in
              if negb (r.1 =? Z.of_nat (length buf))
              then Ok (None, MidiToStdinLastWritten.set_last_written
                               MidiToStdinLastWritten.LAST_WRITTEN_PARTIAL r.2)
              else V_event_loop bytes [] r.2
        end
    end.
Proof. done. Qed.

Lemma V_do_write_sent buf w :
  let r := V_do_write buf w in
  MidiToStdinLastWritten.stdout r.2
  = MidiToStdinLastWritten.stdout w ++ take (Z.to_nat r.1) buf
  ∧ MidiToStdinLastWritten.port r.2 = MidiToStdinLastWritten.port w
  ∧ MidiToStdinLastWritten.last_written r.2
    = MidiToStdinLastWritten.last_written w
  ∧ MidiToStdinLastWritten.stderr r.2 = MidiToStdinLastWritten.stderr w
  ∧ (complete → r.1 = Z.of_nat (length buf)).
Proof. simpl. do 4 (split; [done|]). intros Hc. apply Hc. Qed.

(** The buffer of an event starts empty, so a pair of digits always
    fits, and the buffer is written out when it is full. *)
Lemma V_event_loop_sent bytes : ∀ buf w,
  Nat.even (length buf) = true →
  (length buf < 128)%nat →
  ∃ res w' fl,
    V_event_loop bytes buf w = Ok (res, w')
    ∧ MidiToStdinLastWritten.stdout w' = MidiToStdinLastWritten.stdout w ++ fl
    ∧ MidiToStdinLastWritten.port w' = MidiToStdinLastWritten.port w
    ∧ MidiToStdinLastWritten.stderr w' = MidiToStdinLastWritten.stderr w
    ∧ match res with
      | Some buf' =>
          fl ++ buf' = buf ++ flat_map MidiToStdin.encode_byte bytes
          ∧ (length buf' < 128)%nat
          ∧ MidiToStdinLastWritten.last_written w'
            = MidiToStdinLastWritten.last_written w
      | None =>
          fl `prefix_of` buf ++ flat_map MidiToStdin.encode_byte bytes
          ∧ ¬ complete
      end.
Proof.
  induction bytes as [|value bytes IH]; intros buf w Heven Hlen.
  - exists (Some buf), w, []. simpl. by rewrite !app_nil_r.
  - rewrite V_event_loop_cons.
    assert (length buf ≤ 126)%nat as Hle.
    { destruct (decide (length buf = 127%nat)) as [H127|]; [|lia].
      by rewrite H127 in Heven. }
    rewrite put_ok by lia. rewrite put_ok by (rewrite length_app; simpl; lia).
    set (buf2 := (buf ++ [MidiToStdin.int_to_hex (value ≫ 4)])
                 ++ [MidiToStdin.int_to_hex (Z.land value 15)]).
    assert (buf ++ flat_map MidiToStdin.encode_byte (value :: bytes)
            = buf2 ++ flat_map MidiToStdin.encode_byte bytes) as ->.
    { subst buf2. simpl. by rewrite <- !app_assoc. }
    assert (length buf2 = Datatypes.S (Datatypes.S (length buf))) as Hlen2.
    { subst buf2. rewrite !length_app. simpl. lia. }
    unfold MidiToStdin.sizeof_buf.
    destruct (Nat.ltb_spec (length buf2) 128) as [Hlt|Hge].
    + apply IH; [|done]. by rewrite Hlen2, Nat.even_succ_succ.
    + cbv zeta.
      destruct (V_do_write_sent buf2 w) as (Hout & Hport & Hlw & Herr & Hc).
      destruct (V_do_write buf2 w) as [r w1]. simpl in *.
      destruct (Z.eqb_spec r (Z.of_nat (length buf2))) as [->|Hne]; simpl.
      * rewrite Nat2Z.id, firstn_all in Hout.
        destruct (IH [] w1) as (res & w' & fl & -> & Hout' & Hport' & Herr' & Hres);
          [done|simpl; lia|].
        exists res, w', (buf2 ++ fl). split; [done|].
        split; [by rewrite Hout', Hout, app_assoc|].
        split; [by rewrite Hport'|]. split; [by rewrite Herr'|].
        destruct res as [buf'|].
        -- destruct Hres as (Heq & ? & Hlw'). simpl in Heq.
           split; [by rewrite <- app_assoc, Heq|]. split; [done|].
           by rewrite Hlw'.
        -- destruct Hres as [Hpre ?]. split; [|done]. by apply prefix_app.
      * exists None, (MidiToStdinLastWritten.set_last_written
                        MidiToStdinLastWritten.LAST_WRITTEN_PARTIAL w1),
               (take (Z.to_nat r) buf2).
        split; [done|]. split; [done|]. split; [done|]. split; [done|].
        split; [apply prefix_app_r, prefix_take|]. intros Hall. by apply Hne, Hc.
Qed.

Lemma V_events_loop_cons bytes events w :
  V_events_loop (Some bytes :: events) w
  = let w := MidiToStdinLastWritten.mkWorld
               (MidiToStdinLastWritten.port w)
               (MidiToStdinLastWritten.last_written w)
               (MidiToStdinLastWritten.stdout w)
               (MidiToStdinLastWritten.stderr w ++ [length bytes])
               (MidiToStdinLastWritten.writes w) in
    match V_event_loop bytes [] w with
    | Stop e => Stop e
    | Ok (None, w) => Ok w
    | Ok (Some buf, w) =>
        match MidiToStdin.put EventLoop.char_LF buf with
        | Stop e => Stop e
        | Ok buf =>
            let r := V_do_write buf w in
            if negb (r.1 =? Z.of_nat (length buf))
            then Ok (MidiToStdinLastWritten.set_last_written
                       MidiToStdinLastWritten.LAST_WRITTEN_PARTIAL r.2)
            else V_events_loop events r.2
        end
    end.
Proof. done. Qed.

Lemma V_events_loop_sent events : ∀ w,
  ∃ w' fl,
    V_events_loop (map Some events) w = Ok w'
    ∧ MidiToStdinLastWritten.stdout w' = MidiToStdinLastWritten.stdout w ++ fl
    ∧ MidiToStdinLastWritten.port w' = MidiToStdinLastWritten.port w
    ∧ fl `prefix_of` concat (map MidiToStdin.encode_event events)
    ∧ (complete →
       fl = concat (map MidiToStdin.encode_event events)
       ∧ MidiToStdinLastWritten.last_written w'
         = MidiToStdinLastWritten.last_written w
       ∧ MidiToStdinLastWritten.stderr w'
         = MidiToStdinLastWritten.stderr w ++ map length events).
Proof.
  induction events as [|bytes events IH]; intros w.
  - exists w, []. simpl. by rewrite !app_nil_r.
  - rewrite map_cons, V_events_loop_cons. cbv zeta.
    change (concat (map MidiToStdin.encode_event (bytes :: events)))
      with (MidiToStdin.encode_event bytes
            ++ concat (map MidiToStdin.encode_event events)).
    change (map length (bytes :: events))
      with (length bytes :: map length events).
    set (w0 := MidiToStdinLastWritten.mkWorld _ _ _ _ _).
    destruct (V_event_loop_sent bytes [] w0)
      as (res & w1 & fl1 & -> & Hout1 & Hport1 & Herr1 & Hres);
      [done|simpl; lia|].
    destruct res as [buf1|]; cycle 1.
    { destruct Hres as [Hpre Hnot]. exists w1, fl1.
      split; [done|]. split; [done|]. split; [done|].
      split; [|done]. unfold MidiToStdin.encode_event.
      rewrite <- app_assoc. by apply prefix_app_r. }
    destruct Hres as (Heq & Hlen1 & Hlw1). simpl in Heq.
    rewrite put_ok by done.
    destruct (V_do_write_sent (buf1 ++ [EventLoop.char_LF]) w1)
      as (Hout & Hport & Hlw & Herr & Hc).
    destruct (V_do_write (buf1 ++ [EventLoop.char_LF]) w1) as [r w2].
    simpl in Hout, Hport, Hlw, Herr, Hc. cbn [fst snd].
    assert (MidiToStdin.encode_event bytes
            = fl1 ++ buf1 ++ [EventLoop.char_LF]) as Henc.
    { unfold MidiToStdin.encode_event. by rewrite <- Heq, <- app_assoc. }
    destruct (Z.eqb_spec r (Z.of_nat (length (buf1 ++ [EventLoop.char_LF]))))
      as [->|Hne]; simpl.
    + rewrite Nat2Z.id, firstn_all in Hout.
      destruct (IH w2) as (w' & fl & -> & Hout' & Hport' & Hpre' & Hall').
      exists w', (MidiToStdin.encode_event bytes ++ fl).
      split; [done|].
      split; [by rewrite Hout', Hout, Hout1, Henc, <- !app_assoc|].
      split; [by rewrite Hport', Hport, Hport1|].
      split; [by apply prefix_app|].
      intros Hall. destruct (Hall' Hall) as (-> & Hlw' & Herr').
      split; [done|]. split; [by rewrite Hlw', Hlw, Hlw1|].
      rewrite Herr', Herr, Herr1. subst w0. simpl. by rewrite <- app_assoc.
    + exists (MidiToStdinLastWritten.set_last_written
                MidiToStdinLastWritten.LAST_WRITTEN_PARTIAL w2),
             (fl1 ++ take (Z.to_nat r) (buf1 ++ [EventLoop.char_LF])).
      split; [done|]. split; [by simpl; rewrite Hout, Hout1, app_assoc|].
      split; [by simpl; rewrite Hport, Hport1|]. split.
      * rewrite Henc, <- app_assoc. apply prefix_app, prefix_app_r, prefix_take.
      * intros Hall. by destruct Hne; apply Hc.
Qed.

End LastWritten.

(** X16.  The encoder of [unnamed/part_002] stays inside its buffer.
    There [buf] belongs to one event and starts empty, so a pair of hex
    digits always fits and the buffer is written out when it is full:
    for all events, of any size, and whatever [write] returns, [process]
    returns 0 without any access out of bounds, and what has gone to
    standard output is an initial part of the characters due (the
    marker and the line feed that the last callback left to send, then
    the encoded events).  When every [write] takes all it is given, all
    these characters go out, [last_written] ends as
    LAST_WRITTEN_NEWLINE and one size per event is printed. *)
Theorem last_written_process_is_safe
    (write : nat → list Z → Z) (w : MidiToStdinLastWritten.World)
    (events : list (list Z)) :
  MidiToStdinLastWritten.port w = true →
  let due := MidiToStdinLastWritten.recovery
               (MidiToStdinLastWritten.last_written w)
             ++ concat (map MidiToStdin.encode_event events) in
  ∃ w' p,
    MidiToStdinLastWritten.process write (Some (map Some events)) w
    = Ok (0, w')
    ∧ MidiToStdinLastWritten.stdout w' = MidiToStdinLastWritten.stdout w ++ p
    ∧ p `prefix_of` due
    ∧ ((∀ k bytes, write k bytes = Z.of_nat (length bytes)) →
       p = due
       ∧ MidiToStdinLastWritten.last_written w'
         = MidiToStdinLastWritten.LAST_WRITTEN_NEWLINE
       ∧ MidiToStdinLastWritten.stderr w'
         = MidiToStdinLastWritten.stderr w ++ map length events).
Proof.
  intros Hport due. subst due. unfold MidiToStdinLastWritten.process.
  rewrite Hport. change (negb true) with false. cbv iota zeta.
  assert (∀ w0 pre,
    MidiToStdinLastWritten.stdout w0 = MidiToStdinLastWritten.stdout w ++ pre →
    MidiToStdinLastWritten.stderr w0 = MidiToStdinLastWritten.stderr w →
    ∃ w' p,
      match MidiToStdinLastWritten.events_loop write (map Some events)
              (MidiToStdinLastWritten.set_last_written
                 MidiToStdinLastWritten.LAST_WRITTEN_NEWLINE w0) with
      | Ok w1 => Ok (0, w1)
      | Stop e => Stop e
      end = Ok (0, w')
      ∧ MidiToStdinLastWritten.stdout w' = MidiToStdinLastWritten.stdout w ++ p
      ∧ p `prefix_of` pre ++ concat (map MidiToStdin.encode_event events)
      ∧ ((∀ k bytes, write k bytes = Z.of_nat (length bytes)) →
         p = pre ++ concat (map MidiToStdin.encode_event events)
         ∧ MidiToStdinLastWritten.last_written w'
           = MidiToStdinLastWritten.LAST_WRITTEN_NEWLINE
         ∧ MidiToStdinLastWritten.stderr w'
           = MidiToStdinLastWritten.stderr w ++ map length events)) as Hgo.
  { intros w0 pre Hout0 Herr0.
    destruct (V_events_loop_sent write events
                (MidiToStdinLastWritten.set_last_written
                   MidiToStdinLastWritten.LAST_WRITTEN_NEWLINE w0))
      as (w' & fl & -> & Hout & _ & Hpre & Hall).
    exists w', (pre ++ fl). split; [done|].
    split; [by rewrite Hout; simpl; rewrite Hout0, app_assoc|].
    split; [by apply prefix_app|].
    intros Hc. destruct (Hall Hc) as (-> & Hlw & Herr).
    split; [done|]. split; [done|]. by rewrite Herr; simpl; rewrite Herr0. }
  destruct (MidiToStdinLastWritten.last_written w) eqn:Hlw.
  - apply (Hgo w []); [by rewrite app_nil_r | done].
  - destruct (V_do_write_sent write [EventLoop.char_LF] w)
      as (Hout & _ & _ & Herr & Hc).
    destruct (MidiToStdinLastWritten.do_write write [EventLoop.char_LF] w)
      as [r w1]. simpl in Hout, Herr, Hc. cbn [fst snd].
    destruct (Z.eqb_spec r 1) as [->|Hne]; simpl negb; cbv iota.
    + apply (Hgo w1 [EventLoop.char_LF]); [exact Hout | exact Herr].
    + exists w1, (take (Z.to_nat r) [EventLoop.char_LF]).
      split; [done|]. split; [done|].
      split; [apply prefix_app_r, prefix_take|].
      intros Hall. destruct Hne. by rewrite Hc.
  - destruct (V_do_write_sent write [EventLoop.char_X; EventLoop.char_LF] w)
      as (Hout & _ & _ & Herr & Hc).
    destruct (MidiToStdinLastWritten.do_write write
                [EventLoop.char_X; EventLoop.char_LF] w) as [r w1].
    simpl in Hout, Herr, Hc. cbn [fst snd].
    destruct (Z.eqb_spec r 1) as [->|Hne1].
    { exists (MidiToStdinLastWritten.set_last_written
                MidiToStdinLastWritten.LAST_WRITTEN_X w1), [EventLoop.char_X].
      split; [done|]. split; [done|]. split; [by exists (EventLoop.char_LF
        :: concat (map MidiToStdin.encode_event events))|].
      intros Hall. by specialize (Hc Hall). }
    destruct (Z.eqb_spec r 2) as [->|Hne2].
    { apply (Hgo w1 [EventLoop.char_X; EventLoop.char_LF]);
        [exact Hout | exact Herr]. }
    exists w1, (take (Z.to_nat r) [EventLoop.char_X; EventLoop.char_LF]).
    split; [done|]. split; [done|].
    split; [apply prefix_app_r, prefix_take|].
    intros Hall. destruct Hne2. by rewrite Hc.
Qed.

Lemma last_written_process_is_safe_witness :
  let write := λ (_ : nat) (bytes : list Z), Z.of_nat (length bytes) in
  let w := MidiToStdinLastWritten.mkWorld true
             MidiToStdinLastWritten.LAST_WRITTEN_PARTIAL [57; 48] [] 3 in
  let events := [[248]; repeat 0 100] in
  let due := MidiToStdinLastWritten.recovery
               (MidiToStdinLastWritten.last_written w)
             ++ concat (map MidiToStdin.encode_event events) in
  ∃ w' p,
    MidiToStdinLastWritten.process write (Some (map Some events)) w
    = Ok (0, w')
    ∧ MidiToStdinLastWritten.stdout w' = MidiToStdinLastWritten.stdout w ++ p
    ∧ p `prefix_of` due
    ∧ ((∀ k bytes, write k bytes = Z.of_nat (length bytes)) →
       p = due
       ∧ MidiToStdinLastWritten.last_written w'
         = MidiToStdinLastWritten.LAST_WRITTEN_NEWLINE
       ∧ MidiToStdinLastWritten.stderr w'
         = MidiToStdinLastWritten.stderr w ++ map length events).
Proof.
  intros write w events.
  apply (last_written_process_is_safe write w events). reflexivity.
Defined.

(** ** One event of any size *)

Section WholeEvent.

Variable write : nat → list Z → Z.
Hypothesis write_complete :
  ∀ (k : nat) (bytes : list Z), write k bytes = Z.of_nat (length bytes).

Lemma flush_buf_all buf c w :
  MidiToStdin.flush_buf write (buf ++ [c]) w
  = (true, MidiToStdin.mkWorld (MidiToStdin.port w)
             ((c =? EventLoop.char_LF) || (c =? EventLoop.char_X))
             (MidiToStdin.stdout w ++ buf ++ [c])
             (Datatypes.S (MidiToStdin.writes w))).
Proof.
  unfold MidiToStdin.flush_buf. cbv zeta.
  rewrite write_complete, Nat2Z.id, firstn_all, length_app. simpl length.
  destruct (Z.ltb_spec (Z.of_nat (length buf + 1)) 1) as [|_]; [lia|].
  rewrite Z.ltb_irrefl, Z.eqb_refl.
  replace (Z.to_nat (Z.of_nat (length buf + 1) - 1)) with (length buf) by lia.
  by rewrite nth_middle.
Qed.

(** From an even fill, a pair of digits always fits, and the buffer is
    written out when it is full. *)
Lemma event_loop_even bytes : ∀ buf w,
  Nat.even (length buf) = true →
  (length buf < 128)%nat →
  ∃ buf' w' fl,
    MidiToStdin.event_loop write bytes buf w = Ok (Some buf', w')
    ∧ MidiToStdin.stdout w' = MidiToStdin.stdout w ++ fl
    ∧ MidiToStdin.port w' = MidiToStdin.port w
    ∧ fl ++ buf' = buf ++ flat_map MidiToStdin.encode_byte bytes
    ∧ (length buf' < 128)%nat.
Proof.
  induction bytes as [|value bytes IH]; intros buf w Heven Hlen.
  - exists buf, w, []. simpl. by rewrite !app_nil_r.
  - rewrite event_loop_cons.
    assert (length buf ≤ 126)%nat as Hle.
    { destruct (decide (length buf = 127%nat)) as [H127|]; [|lia].
      by rewrite H127 in Heven. }
    rewrite put_ok by lia. rewrite put_ok by (rewrite length_app; simpl; lia).
    set (hi := MidiToStdin.int_to_hex (value ≫ 4)).
    set (lo := MidiToStdin.int_to_hex (Z.land value 15)).
    assert (buf ++ flat_map MidiToStdin.encode_byte (value :: bytes)
            = ((buf ++ [hi]) ++ [lo]) ++ flat_map MidiToStdin.encode_byte bytes)
      as ->.
    { simpl. by rewrite <- !app_assoc. }
    assert (length ((buf ++ [hi]) ++ [lo])
            = Datatypes.S (Datatypes.S (length buf))) as Hlen2.
    { rewrite !length_app. simpl. lia. }
    unfold MidiToStdin.sizeof_buf.
    destruct (Nat.ltb_spec (length ((buf ++ [hi]) ++ [lo])) 128) as [Hlt|Hge].
    + apply IH; [|done]. by rewrite Hlen2, Nat.even_succ_succ.
    + cbv zeta. rewrite flush_buf_all. cbn [fst snd negb].
      destruct (IH [] (MidiToStdin.mkWorld (MidiToStdin.port w)
                  ((lo =? EventLoop.char_LF) || (lo =? EventLoop.char_X))
                  (MidiToStdin.stdout w ++ (buf ++ [hi]) ++ [lo])
                  (Datatypes.S (MidiToStdin.writes w))))
        as (buf' & w' & fl & -> & Hout & Hport & Heq & Hlen');
        [done|simpl; lia|].
      exists buf', w', (((buf ++ [hi]) ++ [lo]) ++ fl).
      split; [done|]. split; [by rewrite Hout; simpl; rewrite <- !app_assoc|].
      split; [done|]. split; [|done]. simpl in Heq.
      by rewrite <- app_assoc, Heq.
Qed.

End WholeEvent.

(** X17.  One event after a completed line is sent whole, whatever its
    size.  When [line_completed] is set, the buffer of [process] starts
    empty: the pairs of hex digits of the first event fill it exactly,
    it is written out each time it is full, and nothing is stored out of
    bounds.  If [write] takes all it is given, standard output receives
    two hex digits per byte and a line feed, and [line_completed] is set
    again. *)
Theorem single_event_is_sent_whole
    (write : nat → list Z → Z) (w : MidiToStdin.World) (bytes : list Z) :
  (∀ (k : nat) (bytes : list Z), write k bytes = Z.of_nat (length bytes)) →
  MidiToStdin.port w = true →
  MidiToStdin.line_completed w = true →
  ∃ w',
    MidiToStdin.process write (Some [Some bytes]) w = Ok (0, w')
    ∧ MidiToStdin.stdout w'
      = MidiToStdin.stdout w ++ MidiToStdin.encode_event bytes
    ∧ MidiToStdin.line_completed w' = true.
Proof.
  intros Hwrite Hport Hlc. unfold MidiToStdin.process.
  rewrite Hport, Hlc. change (negb true) with false. cbv iota zeta.
  cbn [MidiToStdin.events_loop].
  destruct (event_loop_even write Hwrite bytes [] w)
    as (buf' & w1 & fl & -> & Hout & Hport1 & Heq & Hlen); [done|simpl; lia|].
  rewrite put_ok by done. rewrite flush_buf_all by done. cbn [fst snd].
  eexists. split; [done|]. simpl. split.
  - rewrite Hout. unfold MidiToStdin.encode_event. simpl in Heq.
    by rewrite <- Heq, <- !app_assoc.
  - done.
Qed.

Lemma single_event_is_sent_whole_witness :
  let write := λ (_ : nat) (bytes : list Z), Z.of_nat (length bytes) in
  ∃ w',
    MidiToStdin.process write (Some [Some (repeat 240 200)])
      MidiToStdin.main_init = Ok (0, w')
    ∧ MidiToStdin.stdout w'
      = MidiToStdin.stdout MidiToStdin.main_init
        ++ MidiToStdin.encode_event (repeat 240 200)
    ∧ MidiToStdin.line_completed w' = true.
Proof.
  intros write.
  apply (single_event_is_sent_whole write MidiToStdin.main_init
           (repeat 240 200)); reflexivity.
Defined.

(** * The decoder against the specification *)

(** ** The hex digits *)







(** ** [handle_line] against the specification *)

Section SpecCodec.

Variable A : Allocator.
Variable uninit : addr → nat → Z.
Variable NDEBUG : bool.


End SpecCodec.


(** The three cases on concrete lines: "903C7f" is the message
    90 3c 7f; in "9g0z" the character [g] is reported; "904" is
    reported for its length. *)
Example handle_line_three_cases :
  spec_bytes [57; 48; 51; 67; 55; 102] = Some [144; 60; 127]
  ∧ (∃ w', handle_line bump_allocator (λ _ _, 0) true
             [57; 48; 51; 67; 55; 102] (initial_world 1%positive) = Ok (tt, w')
           ∧ stderr w' = []
           ∧ pending w' [1; 2]%positive = [[144; 60; 127]])
  ∧ (∃ w', handle_line bump_allocator (λ _ _, 0) true
             [57; 103; 48; 122] (initial_world 1%positive) = Ok (tt, w')
           ∧ stderr w' = [InvalidHexDigit 103]
           ∧ pending w' [1%positive] = [])
  ∧ (∃ w', handle_line bump_allocator (λ _ _, 0) true
             [57; 48; 52] (initial_world 1%positive) = Ok (tt, w')
           ∧ stderr w' = [BadMessageLength]
           ∧ pending w' [1%positive] = []).
Proof.
  split; [reflexivity|].
  split; [|split]; eexists; by vm_compute.
Qed.

(** * The marker inside a line *)


Section Marker.

Variable A : Allocator.
Variable uninit : addr → nat → Z.
Variable NDEBUG : bool.


End Marker.


